(** * Document-intelligence engine: table of contents, topic lookup, page
  ranges and layout reconstruction.

  A shallow embedding of the algorithmic core of the repository
  ([server/extract_toc.py], [rasa_backend/actions/actions.py],
  [server/spreadsheet_analysis.py]) followed by the properties proved
  about it.

  Conventions of the embedding.
  - A Python [str] is a [string]; a character is a code point below 256,
    and the character classes ([str.isspace], [\d], [str.lower]) are the
    ones Python has on that range.
  - A Python [int] is a [Z].  A Python [float] coordinate is finite and is
    the rational [Q] it stands for: comparisons, [min] and [max] are exact
    on floats; the sums and quotients of the two means the code computes
    round, and are those of an interface of float arithmetic.
  - A function that can raise returns a [res]: [Ok v] or [Raise e].
  - A [dict] is an association list in insertion order with unique keys. *)

From Stdlib Require Import Bool Ascii String List ZArith QArith Lia
  Permutation Sorted.
Import ListNotations.

Open Scope string_scope.
Open Scope Z_scope.
Open Scope list_scope.

(** ** Exceptions and results *)

Inductive exn : Type :=
| ValueError
| IndexError
| KeyError
| ZeroDivisionError.

Inductive res (A : Type) : Type :=
| Ok (a : A)
| Raise (e : exn).

Arguments Ok {A} a.
Arguments Raise {A} e.

Definition bind {A B : Type} (m : res A) (k : A -> res B) : res B :=
  match m with
  | Ok a => k a
  | Raise e => Raise e
  end.

Notation "x <- m ;; k" := (bind m (fun x => k))
  (at level 61, m at next level, right associativity).

Definition raises {A : Type} (m : res A) : Prop := exists e, m = Raise e.

Definition is_ok {A : Type} (m : res A) : bool :=
  match m with Ok _ => true | Raise _ => false end.

(** ** Python strings *)

Module PyStr.

Definition code (c : ascii) : Z := Z.of_nat (nat_of_ascii c).

(** [str.isspace] below 256, which is also the class [\s] of [re] and the
    set [str.strip] removes: TAB..CR, FS..US, space, NEL and NBSP. *)
Definition isspace (c : ascii) : bool :=
  let n := code c in
  ((9 <=? n) && (n <=? 13)) || ((28 <=? n) && (n <=? 32))
  || (n =? 133) || (n =? 160).

(** The class [\d] of [re], and the digits [int] accepts. *)
Definition isdecimal (c : ascii) : bool :=
  let n := code c in (48 <=? n) && (n <=? 57).

(** [str.isdigit] on one character: the decimal digits and the three
    superscript digits of the range. *)
Definition isdigit_char (c : ascii) : bool :=
  let n := code c in
  isdecimal c || (n =? 178) || (n =? 179) || (n =? 185).

Definition digit_value (c : ascii) : Z := code c - 48.

Definition lower_char (c : ascii) : ascii :=
  let n := code c in
  if ((65 <=? n) && (n <=? 90))
     || ((192 <=? n) && (n <=? 222) && negb (n =? 215))
  then ascii_of_nat (Z.to_nat (n + 32))
  else c.

Fixpoint lower (s : string) : string :=
  match s with
  | EmptyString => EmptyString
  | String c r => String (lower_char c) (lower r)
  end.

Fixpoint lstrip (s : string) : string :=
  match s with
  | EmptyString => EmptyString
  | String c r => if isspace c then lstrip r else s
  end.

Fixpoint rstrip (s : string) : string :=
  match s with
  | EmptyString => EmptyString
  | String c r =>
      match rstrip r with
      | EmptyString => if isspace c then EmptyString else String c EmptyString
      | r' => String c r'
      end
  end.

Definition strip (s : string) : string := rstrip (lstrip s).

(** [sep in s] for a separator of one character. *)
Fixpoint contains_char (sep : ascii) (s : string) : bool :=
  match s with
  | EmptyString => false
  | String c r => Ascii.eqb c sep || contains_char sep r
  end.

(** [s.split(sep)] for a separator of one character: never empty. *)
Fixpoint split (sep : ascii) (s : string) : list string :=
  match s with
  | EmptyString => [EmptyString]
  | String c r =>
      if Ascii.eqb c sep then EmptyString :: split sep r
      else match split sep r with
           | [] => [String c EmptyString]
           | p :: ps => String c p :: ps
           end
  end.

(** [s.split(sep, 1)] when [sep in s]: the text before the first
    separator and the text after it. *)
Fixpoint split1 (sep : ascii) (s : string) : string * string :=
  match s with
  | EmptyString => (EmptyString, EmptyString)
  | String c r =>
      if Ascii.eqb c sep then (EmptyString, r)
      else let '(a, b) := split1 sep r in (String c a, b)
  end.

(** The digits of an [int] literal after its first digit: digits, each
    optionally preceded by one underscore. *)
Fixpoint int_digits (acc : Z) (s : string) : option Z :=
  match s with
  | EmptyString => Some acc
  | String c r =>
      if isdecimal c then int_digits (10 * acc + digit_value c) r
      else if Ascii.eqb c "_" then
        match r with
        | String d r' =>
            if isdecimal d then int_digits (10 * acc + digit_value d) r'
            else None
        | EmptyString => None
        end
      else None
  end.

(** The whitespace [int] skips at the two ends of its argument: TAB..CR,
    the space, NEL and NBSP; not FS..US, which [str.strip] takes off. *)
Definition int_space (c : ascii) : bool :=
  let n := code c in
  ((9 <=? n) && (n <=? 13)) || (n =? 32) || (n =? 133) || (n =? 160).

Fixpoint int_lstrip (s : string) : string :=
  match s with
  | EmptyString => EmptyString
  | String c r => if int_space c then int_lstrip r else s
  end.

Fixpoint int_rstrip (s : string) : string :=
  match s with
  | EmptyString => EmptyString
  | String c r =>
      match int_rstrip r with
      | EmptyString => if int_space c then EmptyString else String c EmptyString
      | r' => String c r'
      end
  end.

(** [sys.get_int_max_str_digits()], which the sources leave at its default:
    [int] refuses a literal of more digits, underscores not counted. *)
Definition int_max_str_digits : Z := 4300.

Fixpoint count_decimal (s : string) : Z :=
  match s with
  | EmptyString => 0
  | String c r => (if isdecimal c then 1 else 0) + count_decimal r
  end.

Definition int_unsigned (s : string) : option Z :=
  match s with
  | String d r =>
      if isdecimal d then
        if int_max_str_digits <? count_decimal s then None
        else int_digits (digit_value d) r
      else None
  | EmptyString => None
  end.

(** [int(s)] in base ten: the whitespace at the two ends is dropped, one
    sign is allowed, then the digits.  [None] stands for [ValueError]. *)
Definition int_opt (s : string) : option Z :=
  match int_rstrip (int_lstrip s) with
  | EmptyString => None
  | String c r =>
      if Ascii.eqb c "+" then int_unsigned r
      else if Ascii.eqb c "-" then option_map Z.opp (int_unsigned r)
      else int_unsigned (String c r)
  end.

Definition int (s : string) : res Z :=
  match int_opt s with
  | Some z => Ok z
  | None => Raise ValueError
  end.

(** A string made of decimal digits only, and at least one. *)
Fixpoint all_decimal (s : string) : bool :=
  match s with
  | EmptyString => true
  | String c r => isdecimal c && all_decimal r
  end.

Definition numeric (s : string) : bool :=
  match s with
  | EmptyString => false
  | _ => all_decimal s
  end.

(** The value of a string of decimal digits read in base ten. *)
Fixpoint decimal_value (acc : Z) (s : string) : Z :=
  match s with
  | EmptyString => acc
  | String c r => decimal_value (10 * acc + digit_value c) r
  end.

(** The line boundaries of [str.splitlines] below 256: LF, VT, FF, CR, FS,
    GS, RS and NEL. *)
Definition is_linebreak (c : ascii) : bool :=
  let n := code c in
  ((10 <=? n) && (n <=? 13)) || ((28 <=? n) && (n <=? 30)) || (n =? 133).

(** [s.splitlines()]: CR LF is one boundary, and a boundary at the very end
    opens no further line. *)
Fixpoint splitlines (s : string) : list string :=
  match s with
  | EmptyString => []
  | String c r =>
      if is_linebreak c then
        match r with
        | String d r' =>
            if (code c =? 13) && (code d =? 10)
            then EmptyString :: splitlines r'
            else EmptyString :: splitlines r
        | EmptyString => [EmptyString]
        end
      else match splitlines r with
           | [] => [String c EmptyString]
           | l :: ls => String c l :: ls
           end
  end.

End PyStr.

(** ** Regular expressions of [re]

    A backtracking matcher with the semantics of Python's [re] for the
    constructs the three patterns of the sources use: greedy bounded
    repetition, ordered alternation, and the anchors [^] and [$] without
    [MULTILINE]. *)

Module Re.

Inductive regex : Type :=
| Bol                                   (* ^ *)
| Eol                                   (* $ *)
| Class (p : ascii -> bool)             (* \d, \s, \. *)
| Lit (s : string)                      (* literal text *)
| Cat (r1 r2 : regex)
| Alt (r1 r2 : regex)                   (* r1|r2, r1 tried first *)
| Rep (r : regex) (lo : nat) (hi : option nat).  (* greedy r{lo,hi} *)

Definition star (r : regex) : regex := Rep r 0 None.
Definition plus (r : regex) : regex := Rep r 1 None.
Definition opt (r : regex) : regex := Rep r 0 (Some 1%nat).
Definition dot_char : regex := Class (fun c => Ascii.eqb c ".").
Definition digit : regex := Class PyStr.isdecimal.
Definition space : regex := Class PyStr.isspace.

(** [s] starts with [l]: the rest of [s] after it. *)
Fixpoint strip_prefix (l s : string) : option string :=
  match l, s with
  | EmptyString, _ => Some s
  | String a l', String b s' =>
      if Ascii.eqb a b then strip_prefix l' s' else None
  | String _ _, EmptyString => None
  end.

Section Matcher.
Context {A : Type}.

(** [run r pos s k]: match [r] against [s], the text that starts at offset
    [pos] of the subject, and hand the offset and the text after the match
    to the continuation [k]; [None] makes the matcher backtrack. *)
Fixpoint run (r : regex) (pos : nat) (s : string)
    (k : nat -> string -> option A) {struct r} : option A :=
  match r with
  | Bol => if (pos =? 0)%nat then k pos s else None
  | Eol =>
      match s with
      | EmptyString => k pos s
      | String c EmptyString => if (PyStr.code c =? 10) then k pos s else None
      | _ => None
      end
  | Class p =>
      match s with
      | String c s' => if p c then k (S pos) s' else None
      | EmptyString => None
      end
  | Lit l =>
      match strip_prefix l s with
      | Some s' => k (pos + String.length l)%nat s'
      | None => None
      end
  | Cat r1 r2 => run r1 pos s (fun pos' s' => run r2 pos' s' k)
  | Alt r1 r2 =>
      match run r1 pos s k with
      | Some a => Some a
      | None => run r2 pos s k
      end
  | Rep r1 lo hi =>
      (fix rep (fuel lo : nat) (hi : option nat) (pos : nat) (s : string)
           {struct fuel} : option A :=
         let stop := if (lo =? 0)%nat then k pos s else None in
         match fuel with
         | O => stop
         | S fuel' =>
             match hi with
             | Some O => stop
             | _ =>
                 match run r1 pos s (fun pos' s' =>
                         if (pos' =? pos)%nat then None
                         else rep fuel' (Nat.pred lo) (option_map Nat.pred hi)
                                pos' s') with
                 | Some a => Some a
                 | None => stop
                 end
             end
         end) (S (String.length s)) lo hi pos s
  end.
End Matcher.

(** [re.match(r, s)] as a truth value. *)
Definition matches (r : regex) (s : string) : bool :=
  match run r 0 s (fun _ _ => Some tt) with
  | Some _ => true
  | None => false
  end.

(** [re.search(r, s)] as a truth value: a match at some offset. *)
Fixpoint search_from (r : regex) (pos : nat) (s : string) : bool :=
  match run r pos s (fun _ _ => Some tt) with
  | Some _ => true
  | None =>
      match s with
      | EmptyString => false
      | String _ s' => search_from r (S pos) s'
      end
  end.

Definition search (r : regex) (s : string) : bool := search_from r 0 s.

(** [re.sub(r, "", s)] for a pattern that matches no empty text: every
    match, found from left to right, is deleted. *)
Fixpoint delete_from (fuel : nat) (r : regex) (pos : nat) (s : string)
  : string :=
  match fuel with
  | O => s
  | S fuel' =>
      match run r pos s (fun pos' s' => Some (pos', s')) with
      | Some (pos', s') =>
          if (pos <? pos')%nat then delete_from fuel' r pos' s'
          else match s with
               | EmptyString => EmptyString
               | String c t => String c (delete_from fuel' r (S pos) t)
               end
      | None =>
          match s with
          | EmptyString => EmptyString
          | String c t => String c (delete_from fuel' r (S pos) t)
          end
      end
  end.

Definition sub_delete (r : regex) (s : string) : string :=
  delete_from (S (String.length s)) r 0 s.

End Re.



(** ** Dictionaries in insertion order *)

Section Dict.
Context {V : Type}.

Definition dict : Type := list (string * V).

(** [d[k] = v]: a key already present keeps its place. *)
Fixpoint dict_set (k : string) (v : V) (d : dict) : dict :=
  match d with
  | [] => [(k, v)]
  | (k', v') :: r =>
      if String.eqb k' k then (k', v) :: r else (k', v') :: dict_set k v r
  end.

Fixpoint dict_get (k : string) (d : dict) : option V :=
  match d with
  | [] => None
  | (k', v') :: r => if String.eqb k' k then Some v' else dict_get k r
  end.

Definition dict_mem (k : string) (d : dict) : bool :=
  match dict_get k d with Some _ => true | None => false end.

Definition dict_keys (d : dict) : list string := map fst d.
End Dict.

Arguments dict V : clear implicits.

(** ** [server/extract_toc.py] *)

Module ExtractToc.

(** A topic map value [[start, end]]; [None] is Python's [None]. *)
Definition page_span : Type := (Z * option Z)%type.

(** [end = nxt if (nxt and nxt >= start) else None]. *)
Definition entry_end (nxt : option Z) (start : Z) : option Z :=
  match nxt with
  | Some n => if negb (n =? 0) && (n >=? start) then Some n else None
  | None => None
  end.

(** The loop of [build_topic_map]: [todo] is what [enumerate] has still
    to yield and [idx] the index of its head. *)
Fixpoint build_topic_loop (entries : list (string * Z)) (idx : nat)
    (todo : list (string * Z)) (topic_map : dict page_span)
  : dict page_span :=
  match todo with
  | [] => topic_map
  | (title, start) :: todo' =>
      let nxt :=
        if (idx + 1 <? List.length entries)%nat
        then option_map snd (nth_error entries (idx + 1))
        else None in
      build_topic_loop entries (idx + 1) todo'
        (dict_set title (start, entry_end nxt start) topic_map)
  end.

Definition build_topic_map (entries : list (string * Z)) : dict page_span :=
  build_topic_loop entries 0 entries [].

(** [toc_pat = re.compile(r"(?:\.{2,}\s*\d+$|\s{2,}\d+$)")]. *)
Definition toc_pat : Re.regex :=
  Re.Alt
    (Re.Cat (Re.Rep Re.dot_char 2 None)
       (Re.Cat (Re.star Re.space) (Re.Cat (Re.plus Re.digit) Re.Eol)))
    (Re.Cat (Re.Rep Re.space 2 None) (Re.Cat (Re.plus Re.digit) Re.Eol)).

(** [r"^(table of )?contents$"]. *)
Definition contents_pat : Re.regex :=
  Re.Cat Re.Bol
    (Re.Cat (Re.opt (Re.Lit "table of ")) (Re.Cat (Re.Lit "contents") Re.Eol)).

Definition nonempty (s : string) : bool :=
  match s with EmptyString => false | _ => true end.

(** [[ln.strip() for ln in text.splitlines() if ln.strip()]]. *)
Definition stripped_lines (text : string) : list string :=
  map PyStr.strip
    (filter (fun ln => nonempty (PyStr.strip ln)) (PyStr.splitlines text)).

Definition count_true {X : Type} (p : X -> bool) (l : list X) : Z :=
  Z.of_nat (List.length (filter p l)).

Definition is_toc_like_page (text : string) (min_entry_lines min_total_lines : Z)
  : bool :=
  if negb (nonempty text) then false
  else
    let lines := stripped_lines text in
    if Z.of_nat (List.length lines) <? min_total_lines then false
    else count_true (Re.search toc_pat) lines >=? min_entry_lines.

(** The state of the scan of [find_toc_page_range]. *)
Definition toc_state : Type := (option Z * option Z)%type.

(** One page of the scan; [None] is the [break]. *)
Definition scan_page (i : nat) (txt : string) (st : toc_state)
  : option toc_state :=
  let low := map PyStr.lower (stripped_lines txt) in
  match fst st with
  | None =>
      if existsb (Re.matches contents_pat) low
      then Some (Some (Z.of_nat i + 1), Some (Z.of_nat i + 1))
      else if is_toc_like_page txt 3 5
      then Some (Some (Z.of_nat i + 1), Some (Z.of_nat i + 1))
      else Some st
  | Some _ =>
      if is_toc_like_page txt 3 5
      then Some (fst st, Some (Z.of_nat i + 1))
      else None
  end.

(** The [for i in range(...)] loop over the page texts [pages]. *)
Fixpoint scan_pages (pages : list string) (indices : list nat)
    (st : toc_state) : toc_state :=
  match indices with
  | [] => st
  | i :: rest =>
      match scan_page i (nth i pages EmptyString) st with
      | Some st' => scan_pages pages rest st'
      | None => st
      end
  end.

(** Python's truth value of an optional integer. *)
Definition truthy (x : option Z) : bool :=
  match x with
  | Some n => negb (n =? 0)
  | None => false
  end.

(** [pages] holds, page by page, the text [extract_text() or ""] gives. *)
Definition find_toc_page_range (pages : list string)
    (max_scan_pages min_toc_len : Z) : toc_state :=
  let n := Z.to_nat (Z.min (Z.of_nat (List.length pages)) max_scan_pages) in
  let '(toc_start, toc_end) := scan_pages pages (seq 0 n) (None, None) in
  match toc_start, toc_end with
  | Some s, Some e =>
      if truthy toc_start && truthy toc_end && (e - s + 1 >=? min_toc_len)
      then (Some s, Some e)
      else (None, None)
  | _, _ => (None, None)
  end.

(** [s.replace(old, "")]: the occurrences of [old], found from left to
    right, are taken out. *)
Fixpoint remove_all (fuel : nat) (old s : string) : string :=
  match fuel with
  | O => s
  | S fuel' =>
      match old, Re.strip_prefix old s with
      | String _ _, Some s' => remove_all fuel' old s'
      | _, _ =>
          match s with
          | EmptyString => EmptyString
          | String c t => String c (remove_all fuel' old t)
          end
      end
  end.

Definition replace_empty (old s : string) : string :=
  remove_all (S (String.length s)) old s.

(** [part.isdigit()]. *)
Fixpoint all_isdigit (s : string) : bool :=
  match s with
  | EmptyString => true
  | String c r => PyStr.isdigit_char c && all_isdigit r
  end.

Definition isdigit (s : string) : bool := nonempty s && all_isdigit s.

(** The body of the loop of [parse_page_input]: the range of one part, or
    nothing for a part without hyphen that is not made of digits. *)
Definition input_part (part : string) : res (list (Z * Z)) :=
  if PyStr.contains_char "-" part then
    match PyStr.split "-" part with
    | [a; b] =>
        start <- PyStr.int a ;;
        end_ <- PyStr.int b ;;
        Ok [(start, end_)]
    | _ => Raise ValueError
    end
  else if isdigit part then
    val <- PyStr.int part ;;
    Ok [(val, val)]
  else Ok [].

Fixpoint input_parts (parts : list string) (ranges : list (Z * Z))
  : res (list (Z * Z)) :=
  match parts with
  | [] => Ok ranges
  | part :: rest =>
      r <- input_part part ;;
      input_parts rest (ranges ++ r)
  end.

Definition parse_page_input (input_str : string) : res (list (Z * Z)) :=
  let input_str :=
    PyStr.strip
      (replace_empty "page" (replace_empty "pages" (PyStr.lower input_str))) in
  input_parts (map PyStr.strip (PyStr.split "," input_str)) [].

Definition default_max_scan_pages : Z := 50.
Definition default_min_toc_len : Z := 2.

End ExtractToc.

(** ** [difflib] of the Python standard library *)

Module Difflib.

(** [SequenceMatcher(None, a, b).ratio()], the similarity of two strings,
    is taken as an interface; [RatcliffObershelp] below implements it. *)
Class SequenceMatcher : Type := { ratio : string -> string -> Q }.

(** [(s1, x1) > (s2, x2)] on tuples of a score and a string. *)
Definition tuple_gt (t1 t2 : Q * string) : bool :=
  negb (Qle_bool (fst t1) (fst t2))
  || (Qeq_bool (fst t1) (fst t2) && String.ltb (snd t2) (snd t1)).

(** [max] of a non-empty sequence: the first of the largest elements. *)
Definition max_tuple (first : Q * string) (others : list (Q * string))
  : Q * string :=
  fold_left (fun best t => if tuple_gt t best then t else best) others first.

Section GetCloseMatches.
Context `{SequenceMatcher}.

(** The [(score, x)] pairs [get_close_matches] collects: the two quick
    ratios it tests first are upper bounds of [ratio], so a possibility is
    kept exactly when its ratio reaches the cutoff. *)
Definition scored (word : string) (possibilities : list string) (cutoff : Q)
  : list (Q * string) :=
  flat_map (fun x =>
    if Qle_bool cutoff (ratio x word) then [(ratio x word, x)] else [])
    possibilities.

(** [get_close_matches(word, possibilities, n=1, cutoff)]. *)
Definition get_close_matches (word : string) (possibilities : list string)
    (cutoff : Q) : list string :=
  match scored word possibilities cutoff with
  | [] => []
  | t :: ts => [snd (max_tuple t ts)]
  end.
End GetCloseMatches.

(** *** The ratio of Ratcliff and Obershelp

    What [ratio] computes when the second string is shorter than 200
    characters, so that no character is set aside as popular. *)

Fixpoint common_prefix (a b : string) : nat :=
  match a, b with
  | String x a', String y b' =>
      if Ascii.eqb x y then S (common_prefix a' b') else O
  | _, _ => O
  end.

(** The longest block of [a] (which starts at its offset 0) found in [b]:
    offset in [b] and length, the earliest offset among the longest. *)
Fixpoint best_in_b (a b : string) (j : nat) (best : nat * nat) : nat * nat :=
  match b with
  | EmptyString => best
  | String _ b' =>
      let k := common_prefix a b in
      best_in_b a b' (S j) (if (snd best <? k)%nat then (j, k) else best)
  end.

(** [find_longest_match]: offsets in [a] and [b] and length of the longest
    common block, the earliest in [a], then the earliest in [b]. *)
Fixpoint scan_a (a b : string) (i : nat) (best : nat * nat * nat)
  : nat * nat * nat :=
  match a with
  | EmptyString => best
  | String _ a' =>
      let '(j, k) := best_in_b a b 0 (O, O) in
      scan_a a' b (S i)
        (if (snd best <? k)%nat then (i, j, k) else best)
  end.

Definition find_longest_match (a b : string) : nat * nat * nat :=
  scan_a a b 0 (O, O, O).

Definition take (n : nat) (s : string) : string := String.substring 0 n s.

Definition drop (n : nat) (s : string) : string :=
  String.substring n (String.length s - n) s.

(** The total length of the matching blocks. *)
Fixpoint matched (fuel : nat) (a b : string) : nat :=
  match fuel with
  | O => O
  | S fuel' =>
      let '(i, j, k) := find_longest_match a b in
      if (k =? 0)%nat then O
      else (k + matched fuel' (take i a) (take j b)
            + matched fuel' (drop (i + k) a) (drop (j + k) b))%nat
  end.

Definition ro_ratio (a b : string) : Q :=
  let total := (String.length a + String.length b)%nat in
  if (total =? 0)%nat then 1%Q
  else Qmake (2 * Z.of_nat (matched (S total) a b)) (Pos.of_nat total).

#[global] Instance RatcliffObershelp : SequenceMatcher := { ratio := ro_ratio }.

End Difflib.


(** ** [rasa_backend/actions/actions.py] *)

Module Actions.

(** The body of the loop of [parse_page_query] for one [part]. *)
Definition parse_part (part : string) : res (Z * Z) :=
  let part := PyStr.strip part in
  if PyStr.contains_char "-" part then
    let '(start, end_) := PyStr.split1 "-" part in
    a <- PyStr.int start ;;
    b <- PyStr.int end_ ;;
    Ok (a, b)
  else
    p <- PyStr.int part ;;
    Ok (p, p).

Fixpoint parse_parts (parts : list string) (segments : list (Z * Z))
  : res (list (Z * Z)) :=
  match parts with
  | [] => Ok segments
  | part :: rest =>
      seg <- parse_part part ;;
      parse_parts rest (segments ++ [seg])
  end.

Definition parse_page_query (page_query : string) : res (list (Z * Z)) :=
  parse_parts (PyStr.split "," page_query) [].

(** [r"^\d+(\.\d+)*\s*"]. *)
Definition heading_prefix : Re.regex :=
  Re.Cat Re.Bol
    (Re.Cat (Re.plus Re.digit)
       (Re.Cat (Re.star (Re.Cat Re.dot_char (Re.plus Re.digit)))
          (Re.star Re.space))).

Definition clean_topic_key (key : string) : string :=
  PyStr.lower (PyStr.strip (Re.sub_delete heading_prefix key)).

(** [{self.clean_topic_key(k): k for k in topic_map}]. *)
Definition cleaned_of (keys : list string) : dict string :=
  fold_left (fun d k => dict_set (clean_topic_key k) k d) keys [].

(** What [by_topic] resolves a topic to: the raw title and its pages, from
    which it builds the text it returns, or the not-found message. *)
Inductive resolution : Type :=
| Resolved (real : string) (span : ExtractToc.page_span)
| TopicNotFound.

(** [d[k]]. *)
Definition subscript {V : Type} (d : dict V) (k : string) : res V :=
  match dict_get k d with
  | Some v => Ok v
  | None => Raise KeyError
  end.

Definition cutoff : Q := 6 # 10.

Section ByTopic.
Context `{Difflib.SequenceMatcher}.

Definition by_topic (topic : string) (topic_map : dict ExtractToc.page_span)
  : res resolution :=
  let cleaned := cleaned_of (dict_keys topic_map) in
  let tl := PyStr.strip (PyStr.lower topic) in
  if dict_mem tl cleaned then
    real <- subscript cleaned tl ;;
    span <- subscript topic_map real ;;
    Ok (Resolved real span)
  else
    match Difflib.get_close_matches tl (dict_keys cleaned) cutoff with
    | [] => Ok TopicNotFound
    | m :: _ =>
        real <- subscript cleaned m ;;
        span <- subscript topic_map real ;;
        Ok (Resolved real span)
    end.
End ByTopic.

End Actions.


(** ** Stable sorting, as [list.sort] and [sorted] do it *)

Section StableSort.
Context {X : Type} (lt : X -> X -> bool).

(** [x] stood before every element of [l]: it goes before the first
    element that is not smaller than it. *)
Fixpoint insert_sorted (x : X) (l : list X) : list X :=
  match l with
  | [] => [x]
  | y :: l' => if lt y x then y :: insert_sorted x l' else x :: l
  end.

Fixpoint stable_sort (l : list X) : list X :=
  match l with
  | [] => []
  | x :: l' => insert_sorted x (stable_sort l')
  end.
End StableSort.

Definition Qlt_bool (a b : Q) : bool := negb (Qle_bool b a).

(** ** [server/spreadsheet_analysis.py] *)

Module SpreadsheetAnalysis.

Definition point : Type := (Q * Q)%type.

(** The part of [shapely.geometry] the module uses: building a [Polygon]
    from its vertices, which may raise, and [Polygon.contains] of a
    [Point]. *)
Class Shapely : Type := {
  polygon_t : Type;
  Polygon : list point -> res polygon_t;
  contains : polygon_t -> point -> bool
}.

(** *** The analysis result of the document service *)

Record BoundingRegion : Type := {
  page_number : Z;
  polygon : list point
}.

(** [column_span] is [None] where the cell has no such attribute. *)
Record DocumentTableCell : Type := {
  row_index : Z;
  column_index : Z;
  column_span : option Z;
  content : string
}.

Record DocumentTable : Type := {
  bounding_regions : list BoundingRegion;
  table_cells : list DocumentTableCell
}.

Record DocumentLine : Type := {
  line_content : string;
  line_polygon : list point
}.

Record DocumentPage : Type := {
  page_page_number : Z;
  lines : list DocumentLine
}.

Record AnalyzeResult : Type := {
  pages : list DocumentPage;
  tables : list DocumentTable
}.

(** *** The sheet the module returns *)

Record SheetCell : Type := {
  value : string;
  enable : bool;
  index : Z
}.

Record SheetRow : Type := {
  cells : list SheetCell;
  row_number : Z               (* the key "index" of a row *)
}.

Record Sheet : Type := {
  name : string;
  rows : list SheetRow
}.

Record SheetModel : Type := {
  activeSheet : string;
  sheets : list Sheet
}.

(** *** Built-ins on numbers *)

(** [min(l)] and [max(l)]: the first of the smallest (largest) elements,
    [ValueError] on an empty sequence. *)
Definition py_min {X : Type} (lt : X -> X -> bool) (l : list X) : res X :=
  match l with
  | [] => Raise ValueError
  | x :: l' => Ok (fold_left (fun m y => if lt y m then y else m) l' x)
  end.

Definition py_max {X : Type} (lt : X -> X -> bool) (l : list X) : res X :=
  match l with
  | [] => Raise ValueError
  | x :: l' => Ok (fold_left (fun m y => if lt m y then y else m) l' x)
  end.

(** [min(a, b)] and [max(a, b)]. *)
Definition min2 (a b : Q) : Q := if Qlt_bool b a then b else a.
Definition max2 (a b : Q) : Q := if Qlt_bool a b then b else a.

(** The arithmetic of floats the module uses, [sum(l)] of a list of floats
    and [a / n] for a float and a count, rounds, and [sum] does not round
    alike in every interpreter: the two are an interface, which [Binary64]
    below implements. *)
Class FloatArith : Type := {
  float_sum : list Q -> Q;
  float_div : Q -> Z -> Q
}.

(** [sum(l) / len(l)]. *)
Definition mean `{FloatArith} (l : list Q) : res Q :=
  match l with
  | [] => Raise ZeroDivisionError
  | _ => Ok (float_div (float_sum l) (Z.of_nat (List.length l)))
  end.

(** [range(n)]. *)
Definition range (n : Z) : list Z := map Z.of_nat (seq 0 (Z.to_nat n)).

Section Layout.
Context `{Shapely} `{FloatArith}.

(** *** Tables with their geometry *)

Record table_info : Type := {
  table : DocumentTable;
  poly : polygon_t;
  ymin : Q;
  ymax : Q;
  xmin : Q
}.

(** The loop [for tbl in result.tables] of one page. *)
Fixpoint collect_tables (page_no : Z) (tbls : list DocumentTable)
    (acc : list table_info) : res (list table_info) :=
  match tbls with
  | [] => Ok acc
  | tbl :: rest =>
      match bounding_regions tbl with
      | [] => Raise IndexError
      | region :: _ =>
          if negb (page_number region =? page_no) then
            collect_tables page_no rest acc
          else
            let coords := polygon region in
            let ys := map snd coords in
            let xs := map fst coords in
            p <- Polygon coords ;;
            lo <- py_min Qlt_bool ys ;;
            hi <- py_max Qlt_bool ys ;;
            left <- py_min Qlt_bool xs ;;
            collect_tables page_no rest
              (acc ++ [{| table := tbl; poly := p;
                          ymin := lo; ymax := hi; xmin := left |}])
      end
  end.

(** *** Bands *)

Record band : Type := {
  band_tables : list table_info;
  band_ymin : Q;
  band_ymax : Q
}.

(** [not (tbl["ymax"] < band["ymin"] or tbl["ymin"] > band["ymax"])]. *)
Definition overlaps (tbl : table_info) (b : band) : bool :=
  negb (Qlt_bool (ymax tbl) (band_ymin b) || Qlt_bool (band_ymax b) (ymin tbl)).

Definition join (tbl : table_info) (b : band) : band :=
  {| band_tables := band_tables b ++ [tbl];
     band_ymin := min2 (band_ymin b) (ymin tbl);
     band_ymax := max2 (band_ymax b) (ymax tbl) |}.

Definition new_band (tbl : table_info) : band :=
  {| band_tables := [tbl]; band_ymin := ymin tbl; band_ymax := ymax tbl |}.

(** The inner loop [for band in bands]: the first band that overlaps is
    updated in place; [None] when no band was found ([placed] is false). *)
Fixpoint place (tbl : table_info) (bands : list band) : option (list band) :=
  match bands with
  | [] => None
  | b :: bs =>
      if overlaps tbl b then Some (join tbl b :: bs)
      else option_map (cons b) (place tbl bs)
  end.

Definition cluster_step (bands : list band) (tbl : table_info) : list band :=
  match place tbl bands with
  | Some bands' => bands'
  | None => bands ++ [new_band tbl]
  end.

Definition cluster (tbls : list table_info) : list band :=
  fold_left cluster_step tbls [].

(** *** Layout elements *)

Record col_cell : Type := { col : Z; text : string }.

(** [band_rows]: a dictionary from a row index to the cells put there. *)
Definition band_rows_t : Type := list (Z * list col_cell).

Inductive element : Type :=
| BandEl (y : Q) (band_rows : band_rows_t)
| LineEl (y : Q) (line_text : string).

Definition element_y (el : element) : Q :=
  match el with
  | BandEl y _ => y
  | LineEl y _ => y
  end.

(** [band_rows.setdefault(r, []).append(c)]. *)
Fixpoint setdefault_append (r : Z) (c : col_cell) (d : band_rows_t)
  : band_rows_t :=
  match d with
  | [] => [(r, [c])]
  | (r', cs) :: d' =>
      if r' =? r then (r', cs ++ [c]) :: d'
      else (r', cs) :: setdefault_append r c d'
  end.

(** The loop that computes [offsets]: [cum] is the running total. *)
Fixpoint column_offsets (tbls : list table_info) (cum : Z) : res (list Z) :=
  match tbls with
  | [] => Ok []
  | t :: rest =>
      m <- py_max Z.ltb (map column_index (table_cells (table t))) ;;
      offs <- column_offsets rest (cum + (m + 1)) ;;
      Ok (cum :: offs)
  end.

(** [getattr(cell, 'column_span', 1)]. *)
Definition span_of (cell : DocumentTableCell) : Z :=
  match column_span cell with
  | Some n => n
  | None => 1
  end.

(** The cells of one table cell, one for each column it spans. *)
Definition add_cell (off : Z) (d : band_rows_t) (cell : DocumentTableCell)
  : band_rows_t :=
  fold_left (fun d span_idx =>
      setdefault_append (row_index cell)
        {| col := off + column_index cell + span_idx;
           text := PyStr.strip (content cell) |} d)
    (range (span_of cell)) d.

Definition add_table (d : band_rows_t) (t_off : table_info * Z)
  : band_rows_t :=
  fold_left (add_cell (snd t_off)) (table_cells (table (fst t_off))) d.

(** The body of [for band in bands]. *)
Definition band_element (b : band) : res element :=
  let sorted_tables :=
    stable_sort (fun t u => Qlt_bool (xmin t) (xmin u)) (band_tables b) in
  offsets <- column_offsets sorted_tables 0 ;;
  Ok (BandEl (band_ymin b)
        (fold_left add_table (combine sorted_tables offsets) [])).

Fixpoint band_elements (bands : list band) : res (list element) :=
  match bands with
  | [] => Ok []
  | b :: bs =>
      el <- band_element b ;;
      els <- band_elements bs ;;
      Ok (el :: els)
  end.

(** The representative point of a line: the means of its vertices. *)
Definition line_point (line : DocumentLine) : res point :=
  let coords := line_polygon line in
  cy <- mean (map snd coords) ;;
  cx <- mean (map fst coords) ;;
  Ok (cx, cy).

(** [any(poly.contains(pt) for poly in table_polys)]. *)
Definition inside_a_table (table_polys : list polygon_t) (pt : point) : bool :=
  existsb (fun p => contains p pt) table_polys.

(** The loop [for line in page.lines]. *)
Fixpoint line_elements (table_polys : list polygon_t)
    (ls : list DocumentLine) : res (list element) :=
  match ls with
  | [] => Ok []
  | line :: rest =>
      pt <- line_point line ;;
      els <- line_elements table_polys rest ;;
      if negb (inside_a_table table_polys pt)
      then Ok (LineEl (snd pt) (PyStr.strip (line_content line)) :: els)
      else Ok els
  end.

(** The layout elements of one page, sorted from top to bottom. *)
Definition page_elements (result : AnalyzeResult) (page : DocumentPage)
  : res (list element) :=
  tbls <- collect_tables (page_page_number page) (tables result) [] ;;
  bands <- band_elements (cluster tbls) ;;
  texts <- line_elements (map poly tbls) (lines page) ;;
  Ok (stable_sort (fun a b => Qlt_bool (element_y a) (element_y b))
        (bands ++ texts)).

(** *** Emitting rows *)

(** What the emission carries along: [sheet_rows] and [current_row]. *)
Definition emit_state : Type := (list SheetRow * Z)%type.

(** [[{"value": c["text"], "enable": True, "index": i + 1}
      for i, c in enumerate(cells)]], [i] counting from [start]. *)
Fixpoint row_cells (start : Z) (cs : list col_cell) : list SheetCell :=
  match cs with
  | [] => []
  | c :: cs' =>
      {| value := text c; enable := true; index := start + 1 |}
      :: row_cells (start + 1) cs'
  end.

(** One row of a band: its cells sorted by column and numbered anew. *)
Definition emit_band_row (st : emit_state) (r_cells : Z * list col_cell)
  : emit_state :=
  let cells := stable_sort (fun a b => col a <? col b) (snd r_cells) in
  (fst st ++ [{| cells := row_cells 0 cells; row_number := snd st |}],
   snd st + 1).

(** [for r in sorted(el["rows"])]: the keys of a dictionary are distinct,
    so its items are visited in the order of their keys. *)
Definition sorted_rows (d : band_rows_t) : band_rows_t :=
  stable_sort (fun a b => fst a <? fst b) d.

(** The body of [for el in elements]. *)
Definition emit_element (st : emit_state) (el : element) : emit_state :=
  match el with
  | BandEl _ d =>
      let st' := fold_left emit_band_row (sorted_rows d) st in
      (fst st', snd st' + 1)
  | LineEl _ t =>
      (fst st ++ [{| cells := [{| value := t; enable := true; index := 1 |}];
                     row_number := snd st |}],
       snd st + 1)
  end.

(** The loop [for page in result.pages]. *)
Fixpoint emit_pages (result : AnalyzeResult) (ps : list DocumentPage)
    (st : emit_state) : res emit_state :=
  match ps with
  | [] => Ok st
  | page :: rest =>
      els <- page_elements result page ;;
      emit_pages result rest (fold_left emit_element els st)
  end.

(** [result] is what the document service returned for the file. *)
Definition analyze_spreadsheet_auto_merge (result : AnalyzeResult)
  : res SheetModel :=
  st <- emit_pages result (pages result) ([], 1) ;;
  Ok {| activeSheet := "Sheet1";
        sheets := [{| name := "Sheet1"; rows := fst st |}] |}.

End Layout.

(** *** A polygon library to run the model with

    Polygons are kept as their vertices; a ring of one or two vertices is
    refused, and a point is contained when it is off the boundary and a
    ray from it crosses the boundary an odd number of times. *)

Definition on_segment (p a b : point) : bool :=
  let '(px, py) := p in
  let '(ax, ay) := a in
  let '(bx, by_) := b in
  Qeq_bool ((bx - ax) * (py - ay)) ((by_ - ay) * (px - ax))
  && Qle_bool (min2 ax bx) px && Qle_bool px (max2 ax bx)
  && Qle_bool (min2 ay by_) py && Qle_bool py (max2 ay by_).

Definition crosses (p a b : point) : bool :=
  let '(px, py) := p in
  let '(ax, ay) := a in
  let '(bx, by_) := b in
  negb (Bool.eqb (Qlt_bool py ay) (Qlt_bool py by_))
  && Qlt_bool px ((bx - ax) * (py - ay) / (by_ - ay) + ax).

(** The edges of a ring: consecutive vertices, and the last to the first. *)
Definition edges (vs : list point) : list (point * point) :=
  match vs with
  | [] => []
  | v :: vs' => combine vs (vs' ++ [v])
  end.

Definition ring_contains (vs : list point) (p : point) : bool :=
  negb (existsb (fun e => on_segment p (fst e) (snd e)) (edges vs))
  && Nat.odd (List.length (filter (fun e => crosses p (fst e) (snd e)) (edges vs))).

Definition ring_polygon (coords : list point) : res (list point) :=
  match coords with
  | [_] | [_; _] => Raise ValueError
  | _ => Ok coords
  end.

#[global] Instance Rings : Shapely := {
  polygon_t := list point;
  Polygon := ring_polygon;
  contains := ring_contains
}.

(** *** Float arithmetic to run the model with

    The arithmetic of IEEE 754 binary64 on the floats that are finite, each
    the rational it stands for: an operation gives the float nearest to
    its exact result and, of two equally near, the one whose significand
    is even.  [sum] adds from left to right, as CPython does up to version
    3.11 (later versions compensate the rounding errors of the sum). *)

(** The integer nearest to [n / d], for [d] positive; of two integers
    equally near, the even one. *)
Definition nearest_even (n d : Z) : Z :=
  let q := n / d in
  match 2 * (n mod d) ?= d with
  | Lt => q
  | Gt => q + 1
  | Eq => if Z.even q then q else q + 1
  end.

(** The greatest [k] with [2 ^ k <= n / d], for [n] and [d] positive. *)
Definition log2_quot (n d : Z) : Z :=
  let k := Z.log2 n - Z.log2 d in
  if (if 0 <=? k then d * 2 ^ k <=? n else d <=? n * 2 ^ (- k))
  then k else k - 1.

(** The float nearest to a rational: a significand of 53 bits, of fewer
    under [2 ^ -1022], rounded to nearest, ties to even.  (A rational
    beyond the largest float, where the code has an infinity, is rounded
    to 53 bits all the same.) *)
Definition round64 (x : Q) : Q :=
  let n := Z.abs (Qnum x) in
  let d := Zpos (Qden x) in
  if n =? 0 then 0%Q
  else
    let e := Z.max (log2_quot n d - 52) (-1074) in
    let m := if 0 <=? e then nearest_even n (d * 2 ^ e)
             else nearest_even (n * 2 ^ (- e)) d in
    let s := Z.sgn (Qnum x) * m in
    Qred (if 0 <=? e then inject_Z (s * 2 ^ e)
          else Qmake s (Z.to_pos (2 ^ (- e)))).

Definition binary64_sum (l : list Q) : Q :=
  fold_left (fun acc y => round64 (acc + y)) l 0%Q.

Definition binary64_div (a : Q) (n : Z) : Q := round64 (a / inject_Z n).

#[global] Instance Binary64 : FloatArith := {
  float_sum := binary64_sum;
  float_div := binary64_div
}.

End SpreadsheetAnalysis.

(** ** Sample documents *)

Module Samples.
Import SpreadsheetAnalysis.

(** The rectangle with corners [(x0, y0)] and [(x1, y1)]. *)
Definition rect (x0 y0 x1 y1 : Z) : list point :=
  [(inject_Z x0, inject_Z y0); (inject_Z x1, inject_Z y0);
   (inject_Z x1, inject_Z y1); (inject_Z x0, inject_Z y1)].

Definition cell (r c : Z) (t : string) : DocumentTableCell :=
  {| row_index := r; column_index := c; column_span := Some 1; content := t |}.

Definition table_on (page_no : Z) (outline : list point)
    (cs : list DocumentTableCell) : DocumentTable :=
  {| bounding_regions := [{| page_number := page_no; polygon := outline |}];
     table_cells := cs |}.

Definition line_at (t : string) (outline : list point) : DocumentLine :=
  {| line_content := t; line_polygon := outline |}.

(** Three tables in a chain: [chain_c] touches [chain_a] above it and
    [chain_b] below it, which do not meet. *)
Definition chain_a : DocumentTable := table_on 1 (rect 0 0 1 1) [cell 0 0 "a"].
Definition chain_b : DocumentTable := table_on 1 (rect 0 2 1 3) [cell 0 0 "b"].
Definition chain_c : DocumentTable := table_on 1 (rect 2 1 3 2) [cell 0 0 "c"].

(** Three tables every two of which overlap, from 8 to 12, from 2 to 10 and
    from 9 to 11, and a fourth above them, from 0 to 2, that touches the
    second alone. *)
Definition mutual_p : DocumentTable := table_on 1 (rect 0 8 1 12) [cell 0 0 "p"].
Definition mutual_q : DocumentTable := table_on 1 (rect 2 2 3 10) [cell 0 0 "q"].
Definition mutual_r : DocumentTable := table_on 1 (rect 4 9 5 11) [cell 0 0 "r"].
Definition lone_top : DocumentTable := table_on 1 (rect 6 0 7 2) [cell 0 0 "x"].

(** The number of tables in each band of page 1, band by band. *)
Definition band_sizes (tbls : list DocumentTable) : res (list nat) :=
  infos <- collect_tables 1 tbls [] ;;
  Ok (map (fun b => List.length (band_tables b)) (cluster infos)).

(** A document of two pages: two tables side by side with a line inside
    the first, a line above them and a line below; then a page of text. *)
Definition left_table : DocumentTable :=
  table_on 1 (rect 0 0 10 10) [cell 0 0 "a"; cell 0 1 " b "; cell 1 0 "a2"].
Definition right_table : DocumentTable :=
  table_on 1 (rect 20 5 30 15) [cell 0 0 "c"].
Definition inside_line : DocumentLine := line_at "inside" (rect 2 2 6 6).
Definition below_line : DocumentLine := line_at " below " (rect 0 30 10 40).
Definition above_line : DocumentLine :=
  line_at "above" [(inject_Z 0, inject_Z (-10)); (inject_Z 10, inject_Z (-10))].
Definition first_page : DocumentPage :=
  {| page_page_number := 1; lines := [inside_line; below_line; above_line] |}.
Definition second_page : DocumentPage :=
  {| page_page_number := 2; lines := [below_line] |}.
Definition two_pages : AnalyzeResult :=
  {| pages := [first_page; second_page];
     tables := [right_table; left_table] |}.

(** The layout of the first page: the line above, the band of the two
    tables, and the line below; the line inside the left table is gone. *)
Definition first_page_elements : list element :=
  [LineEl (-10 # 1) "above";
   BandEl 0
     [(0, [{| col := 0; text := "a" |}; {| col := 1; text := "b" |};
           {| col := 2; text := "c" |}]);
      (1, [{| col := 0; text := "a2" |}])];
   LineEl (35 # 1) "below"].

(** A table drawn with two vertices, and a line with none. *)
Definition flat_table : DocumentTable :=
  table_on 1 [(inject_Z 0, inject_Z 0); (inject_Z 10, inject_Z 0)]
    [cell 0 0 "x"].
Definition empty_line : DocumentLine := line_at "lost" [].
Definition with_flat_table : AnalyzeResult :=
  {| pages := [first_page; second_page]; tables := [left_table; flat_table] |}.
Definition with_empty_line : AnalyzeResult :=
  {| pages := [{| page_page_number := 1; lines := [below_line; empty_line] |}];
     tables := [left_table] |}.

(** One table and a line below it. *)
Definition table_then_line : AnalyzeResult :=
  {| pages := [{| page_page_number := 1; lines := [below_line] |}];
     tables := [right_table] |}.

(** The texts of four pages: a cover, a contents page under its heading,
    a page of entries, and the first page of the text. *)
Definition book : list string :=
  ["A Book";
   "Table of Contents
Preface .... 1";
   "Intro ..... 1
Methods .... 5
Results   9
Discussion
Index";
   "Intro
The text starts here."].

(** The sheet the two sample pages give. *)
Definition two_pages_sheet : Sheet :=
  {| name := "Sheet1";
     rows :=
       [{| cells := [{| value := "above"; enable := true; index := 1 |}];
           row_number := 1 |};
        {| cells := [{| value := "a"; enable := true; index := 1 |};
                     {| value := "b"; enable := true; index := 2 |};
                     {| value := "c"; enable := true; index := 3 |}];
           row_number := 2 |};
        {| cells := [{| value := "a2"; enable := true; index := 1 |}];
           row_number := 3 |};
        {| cells := [{| value := "below"; enable := true; index := 1 |}];
           row_number := 5 |};
        {| cells := [{| value := "below"; enable := true; index := 1 |}];
           row_number := 6 |}] |}.

(** A table whose upper edge is at the float 0.2, and a line over that
    edge with its three vertices at the floats 0.1, 0.2 and 0.3: the mean
    of the three, taken exactly, is above the edge, and the mean binary64
    arithmetic gives, 0.20000000000000004, is below it, inside the table. *)
Definition tenth : Q := 3602879701896397 # 36028797018963968.
Definition fifth : Q := 3602879701896397 # 18014398509481984.
Definition three_tenths : Q := 5404319552844595 # 18014398509481984.
Definition edge_table : DocumentTable :=
  table_on 1 [(0, fifth); (10, fifth); (10, 1); (0, 1)]%Q [cell 0 0 "t"].
Definition edge_line : DocumentLine :=
  line_at "edge" [(5, tenth); (5, fifth); (5, three_tenths)]%Q.
Definition edge_page : DocumentPage :=
  {| page_page_number := 1; lines := [edge_line] |}.
Definition edge_document : AnalyzeResult :=
  {| pages := [edge_page]; tables := [edge_table] |}.

End Samples.

(** * Properties *)

(** ** Dictionaries *)

Section DictFacts.
Context {V : Type}.

Lemma dict_get_set_same (k : string) (v : V) (d : dict V) :
  dict_get k (dict_set k v d) = Some v.
Proof.
  induction d as [|[k' v'] d IH]; simpl.
  - now rewrite String.eqb_refl.
  - destruct (String.eqb k' k) eqn:E; simpl; rewrite E; auto.
Qed.

Lemma dict_get_set_other (k k' : string) (v : V) (d : dict V) :
  k <> k' -> dict_get k (dict_set k' v d) = dict_get k d.
Proof.
  intros Hne. induction d as [|[k0 v0] d IH]; simpl.
  - destruct (String.eqb k' k) eqn:E; auto.
    apply String.eqb_eq in E. congruence.
  - destruct (String.eqb k0 k') eqn:E; simpl.
    + apply String.eqb_eq in E. subst k0.
      destruct (String.eqb k' k) eqn:E'; auto.
      apply String.eqb_eq in E'. congruence.
    + now rewrite IH.
Qed.

Lemma dict_get_in_keys (k : string) (d : dict V) :
  In k (dict_keys d) -> exists v, dict_get k d = Some v.
Proof.
  induction d as [|[k0 v0] d IH]; simpl; [tauto|].
  intros [->|Hin].
  - rewrite String.eqb_refl. eauto.
  - destruct (String.eqb k0 k); eauto.
Qed.

Lemma dict_get_some_in_keys (k : string) (v : V) (d : dict V) :
  dict_get k d = Some v -> In k (dict_keys d).
Proof.
  induction d as [|[k0 v0] d IH]; simpl; [discriminate|].
  destruct (String.eqb k0 k) eqn:E; auto.
  apply String.eqb_eq in E. auto.
Qed.

End DictFacts.

(** ** The topic index builder *)

Module TopicIndexFacts.
Import ExtractToc.

(** The end the builder pairs with entry [i]: read off entry [i + 1]. *)
Definition end_of (entries : list (string * Z)) (i : nat) (start : Z)
  : option Z :=
  entry_end (option_map snd (nth_error entries (S i))) start.

Lemma next_in_range (entries : list (string * Z)) (idx : nat) :
  (if (idx + 1 <? List.length entries)%nat
   then option_map snd (nth_error entries (idx + 1))
   else None) = option_map snd (nth_error entries (S idx)).
Proof.
  replace (idx + 1)%nat with (S idx) by lia.
  destruct (S idx <? List.length entries)%nat eqn:E; auto.
  apply Nat.ltb_ge in E. apply nth_error_None in E. now rewrite E.
Qed.

(** A title the loop has no more entry for keeps what the map holds. *)
Lemma build_topic_loop_frame entries todo :
  forall idx topic_map title,
    ~ In title (map fst todo) ->
    dict_get title (build_topic_loop entries idx todo topic_map)
    = dict_get title topic_map.
Proof.
  induction todo as [|[t s] todo IH]; intros idx topic_map title Hnot; simpl; auto.
  rewrite IH by (intro; apply Hnot; simpl; auto).
  apply dict_get_set_other. intro; apply Hnot; simpl; auto.
Qed.

(** The last entry of a title decides what the map holds for it. *)
Lemma build_topic_loop_last entries todo :
  forall idx topic_map n title start,
    nth_error todo n = Some (title, start) ->
    ~ In title (map fst (skipn (S n) todo)) ->
    dict_get title (build_topic_loop entries idx todo topic_map)
    = Some (start, end_of entries (idx + n) start).
Proof.
  induction todo as [|[t s] todo IH]; intros idx topic_map n title start Hn Hlast.
  - destruct n; discriminate.
  - simpl. destruct n as [|n].
    + simpl in Hn. injection Hn as -> ->. simpl in Hlast.
      rewrite build_topic_loop_frame by assumption.
      rewrite dict_get_set_same, next_in_range.
      unfold end_of. now rewrite Nat.add_0_r.
    + simpl in Hn. rewrite (IH _ _ n title start Hn) by exact Hlast.
      f_equal. f_equal. f_equal. lia.
Qed.

(** The map the builder makes of the three entries of the example. *)
Definition example_entries : list (string * Z) :=
  [("Intro", 1); ("Methods", 5); ("Results", 9)].

(** C1, as the code has it: the three example entries give
    [{"Intro": [1, 5], "Methods": [5, 9], "Results": [9, None]}]; in
    general the title of entry [i], when no later entry repeats it, is
    mapped to its own page and to the page of entry [i + 1] itself (not
    one less), provided that page is not zero and not before its own, and
    to [None] otherwise, as for the last entry. *)
Theorem build_topic_map_ends :
  build_topic_map example_entries
  = [("Intro", (1, Some 5)); ("Methods", (5, Some 9)); ("Results", (9, None))]
  /\ forall entries i title start,
      nth_error entries i = Some (title, start) ->
      ~ In title (map fst (skipn (S i) entries)) ->
      dict_get title (build_topic_map entries)
      = Some (start, end_of entries i start).
Proof.
  split; [reflexivity|].
  intros entries i title start Hi Hlast. unfold build_topic_map.
  now rewrite (build_topic_loop_last entries entries 0 [] i title start Hi Hlast).
Qed.

Lemma build_topic_map_ends_witness :
  dict_get "Methods" (build_topic_map example_entries) = Some (5, Some 9).
Proof.
  apply (proj2 build_topic_map_ends example_entries 1%nat "Methods" 5).
  - reflexivity.
  - simpl. intros [H|[]]. discriminate H.
Defined.

(** C1 as the specification words it fails: the ends are 5 and 9, the next
    start pages, and not 4 and 8. *)
Lemma build_topic_map_not_one_less :
  dict_get "Intro" (build_topic_map example_entries) = Some (1, Some 5)
  /\ build_topic_map example_entries
     <> [("Intro", (1, Some 4)); ("Methods", (5, Some 8)); ("Results", (9, None))].
Proof.
  split; [reflexivity|]. intro H. discriminate H.
Qed.

End TopicIndexFacts.

(** ** Python strings *)

Module PyStrFacts.
Import PyStr.

(** No character of [s] is whitespace. *)
Fixpoint no_space (s : string) : bool :=
  match s with
  | EmptyString => true
  | String c r => negb (isspace c) && no_space r
  end.

Lemma rstrip_no_space s : no_space s = true -> rstrip s = s.
Proof.
  induction s as [|c r IH]; simpl; auto.
  intros H. apply andb_true_iff in H as [Hc Hr].
  rewrite (IH Hr). destruct r; auto.
  apply negb_true_iff in Hc. now rewrite Hc.
Qed.

Lemma lstrip_no_space s : no_space s = true -> lstrip s = s.
Proof.
  destruct s as [|c r]; simpl; auto.
  intros H. apply andb_true_iff in H as [Hc _].
  apply negb_true_iff in Hc. now rewrite Hc.
Qed.

Lemma strip_no_space s : no_space s = true -> strip s = s.
Proof.
  intros H. unfold strip. rewrite (lstrip_no_space s H).
  now apply rstrip_no_space.
Qed.

Lemma isdecimal_not_space c : isdecimal c = true -> isspace c = false.
Proof.
  unfold isdecimal, isspace. intros H.
  apply andb_true_iff in H as [H1 H2].
  apply Z.leb_le in H1. apply Z.leb_le in H2.
  repeat match goal with
         | |- context [?a <=? ?b] =>
             destruct (Z.leb_spec a b); try lia
         | |- context [?a =? ?b] =>
             destruct (Z.eqb_spec a b); try lia
         end; reflexivity.
Qed.

Lemma isdecimal_not_hyphen c : isdecimal c = true -> Ascii.eqb c "-" = false.
Proof.
  intros H. destruct (Ascii.eqb_spec c "-") as [->|]; [discriminate H | reflexivity].
Qed.

Lemma all_decimal_no_space s : all_decimal s = true -> no_space s = true.
Proof.
  induction s as [|c r IH]; simpl; auto.
  intros H. apply andb_true_iff in H as [Hc Hr].
  now rewrite (isdecimal_not_space c Hc), (IH Hr).
Qed.

Lemma all_decimal_no_hyphen s :
  all_decimal s = true -> contains_char "-" s = false.
Proof.
  induction s as [|c r IH]; simpl; auto.
  intros H. apply andb_true_iff in H as [Hc Hr].
  now rewrite (isdecimal_not_hyphen c Hc), (IH Hr).
Qed.

Lemma numeric_all_decimal s : numeric s = true -> all_decimal s = true.
Proof. destruct s; simpl; auto. Qed.

Lemma no_space_append a b :
  no_space a = true -> no_space b = true -> no_space (String.append a b) = true.
Proof.
  induction a as [|c r IH]; simpl; auto.
  intros H Hb. apply andb_true_iff in H as [Hc Hr].
  now rewrite Hc, (IH Hr Hb).
Qed.

Lemma contains_char_append sep a b :
  contains_char sep (String.append a (String sep b)) = true.
Proof.
  induction a as [|c r IH]; simpl.
  - now rewrite Ascii.eqb_refl.
  - rewrite IH. apply orb_true_r.
Qed.

Lemma split1_append sep a b :
  contains_char sep a = false ->
  split1 sep (String.append a (String sep b)) = (a, b).
Proof.
  induction a as [|c r IH]; simpl.
  - now rewrite Ascii.eqb_refl.
  - intros H. apply orb_false_iff in H as [Hc Hr].
    now rewrite Hc, (IH Hr).
Qed.

Lemma int_digits_decimal s :
  forall acc, all_decimal s = true ->
    int_digits acc s = Some (decimal_value acc s).
Proof.
  induction s as [|c r IH]; intros acc H; simpl; auto.
  simpl in H. apply andb_true_iff in H as [Hc Hr].
  rewrite Hc. now apply IH.
Qed.

Lemma isdecimal_not_int_space c : isdecimal c = true -> int_space c = false.
Proof.
  destruct c as [[] [] [] [] [] [] [] []]; intros H;
    first [reflexivity | discriminate H].
Qed.

Lemma all_decimal_int_strip s :
  all_decimal s = true -> int_rstrip (int_lstrip s) = s.
Proof.
  intros H.
  assert (Hl : int_lstrip s = s).
  { destruct s as [|c r]; simpl; auto. simpl in H.
    apply andb_true_iff in H as [Hc _].
    now rewrite (isdecimal_not_int_space c Hc). }
  rewrite Hl. clear Hl. induction s as [|c r IH]; simpl; auto.
  simpl in H. apply andb_true_iff in H as [Hc Hr].
  rewrite (IH Hr). destruct r; auto.
  now rewrite (isdecimal_not_int_space c Hc).
Qed.

Lemma count_decimal_length s :
  all_decimal s = true -> count_decimal s = Z.of_nat (String.length s).
Proof.
  induction s as [|c r IH]; auto. intros H.
  simpl in H. apply andb_true_iff in H as [Hc Hr].
  change (count_decimal (String c r))
    with ((if isdecimal c then 1 else 0) + count_decimal r).
  change (String.length (String c r)) with (S (String.length r)).
  rewrite Hc, (IH Hr). lia.
Qed.

(** [int] reads a string of decimal digits, no more of them than the limit
    allows, as its value in base ten. *)
Lemma int_numeric s :
  numeric s = true ->
  Z.of_nat (String.length s) <= int_max_str_digits ->
  int s = Ok (decimal_value 0 s).
Proof.
  intros H Hlen. pose proof (numeric_all_decimal s H) as Hd.
  unfold int, int_opt. rewrite (all_decimal_int_strip s Hd).
  pose proof (count_decimal_length s Hd) as Hcount.
  destruct s as [|c r]; [discriminate|].
  unfold int_unsigned. rewrite Hcount.
  destruct (Z.ltb_spec int_max_str_digits (Z.of_nat (String.length (String c r))))
    as [Hlt|_]; [lia|].
  simpl in Hd. apply andb_true_iff in Hd as [Hc Hr].
  assert (Hplus : Ascii.eqb c "+" = false).
  { destruct (Ascii.eqb_spec c "+") as [->|]; [discriminate Hc | reflexivity]. }
  rewrite Hplus, (isdecimal_not_hyphen c Hc).
  rewrite Hc, (int_digits_decimal r _ Hr).
  reflexivity.
Qed.

(** A string longer than the limit and made of digits is refused. *)
Lemma int_too_long s :
  all_decimal s = true ->
  int_max_str_digits < Z.of_nat (String.length s) ->
  int s = Raise ValueError.
Proof.
  intros Hd Hlen. unfold int, int_opt. rewrite (all_decimal_int_strip s Hd).
  pose proof (count_decimal_length s Hd) as Hcount.
  destruct s as [|c r]; [reflexivity|].
  simpl in Hd. apply andb_true_iff in Hd as [Hc Hr].
  assert (Hplus : Ascii.eqb c "+" = false).
  { destruct (Ascii.eqb_spec c "+") as [->|]; [discriminate Hc | reflexivity]. }
  rewrite Hplus, (isdecimal_not_hyphen c Hc).
  unfold int_unsigned. rewrite Hc, Hcount.
  destruct (Z.ltb_spec int_max_str_digits (Z.of_nat (String.length (String c r))))
    as [_|Hge]; [reflexivity | lia].
Qed.

End PyStrFacts.

(** ** The page-range parser *)

Module PageRangeFacts.
Import PyStr PyStrFacts Actions.

(** A range [a-b] written with two strings of digits. *)
Definition hyphenated (a b : string) : string :=
  String.append a (String "-" b).

Lemma parse_part_error tok e : parse_part tok = Raise e -> e = ValueError.
Proof.
  unfold parse_part, int.
  destruct (contains_char "-" (strip tok)).
  - destruct (split1 "-" (strip tok)) as [a b].
    destruct (int_opt a); simpl; [|congruence].
    destruct (int_opt b); simpl; congruence.
  - destruct (int_opt (strip tok)); simpl; congruence.
Qed.

Lemma parse_parts_ok parts :
  forall acc rs,
    parse_parts parts acc = Ok rs <->
    exists rs', rs = acc ++ rs'
      /\ Forall2 (fun tok r => parse_part tok = Ok r) parts rs'.
Proof.
  induction parts as [|p parts IH]; intros acc rs; simpl.
  - split.
    + intros H. injection H as <-. exists []. rewrite app_nil_r. auto.
    + intros (rs' & -> & HF). inversion HF. now rewrite app_nil_r.
  - destruct (parse_part p) as [seg|e] eqn:Ep; simpl.
    + rewrite IH. split.
      * intros (rs' & -> & HF). exists (seg :: rs').
        rewrite <- app_assoc. auto.
      * intros (rs' & -> & HF). inversion HF as [|? r ? rs'' Hp HF']; subst.
        rewrite Ep in Hp. injection Hp as <-.
        exists rs''. rewrite <- app_assoc. auto.
    + split; [discriminate|].
      intros (rs' & -> & HF). inversion HF as [|? r ? rs'' Hp HF']; subst.
      rewrite Ep in Hp. discriminate.
Qed.

Lemma parse_parts_raise parts :
  forall acc,
    parse_parts parts acc = Raise ValueError <->
    exists tok, In tok parts /\ is_ok (parse_part tok) = false.
Proof.
  induction parts as [|p parts IH]; intros acc; simpl.
  - split; [discriminate|]. intros (tok & [] & _).
  - destruct (parse_part p) as [seg|e] eqn:Ep; simpl.
    + rewrite IH. split.
      * intros (tok & Hin & Hf). eauto.
      * intros (tok & [<-|Hin] & Hf); [|eauto].
        rewrite Ep in Hf. discriminate.
    + rewrite (parse_part_error p e Ep). split; auto.
      intros _. exists p. rewrite Ep. auto.
Qed.

Lemma parse_part_numeric tok :
  numeric (strip tok) = true ->
  Z.of_nat (String.length (strip tok)) <= int_max_str_digits ->
  parse_part tok
  = Ok (decimal_value 0 (strip tok), decimal_value 0 (strip tok)).
Proof.
  intros H Hlen. unfold parse_part.
  rewrite (all_decimal_no_hyphen _ (numeric_all_decimal _ H)).
  now rewrite (int_numeric _ H Hlen).
Qed.

Lemma parse_part_hyphenated tok a b :
  strip tok = hyphenated a b -> numeric a = true -> numeric b = true ->
  Z.of_nat (String.length a) <= int_max_str_digits ->
  Z.of_nat (String.length b) <= int_max_str_digits ->
  parse_part tok = Ok (decimal_value 0 a, decimal_value 0 b).
Proof.
  intros Ht Ha Hb Hla Hlb. unfold parse_part. rewrite Ht. unfold hyphenated.
  rewrite contains_char_append.
  rewrite (split1_append "-" a b (all_decimal_no_hyphen _ (numeric_all_decimal _ Ha))).
  now rewrite (int_numeric _ Ha Hla), (int_numeric _ Hb Hlb).
Qed.

(** *** What the integer conversion accepts *)

(** The characters of a string. *)
Definition chars (s : string) : list ascii := list_ascii_of_string s.

(** The characters an [int] literal is made of: digits, a sign, the
    underscore, and the whitespace [int] skips. *)
Definition int_char (c : ascii) : bool :=
  isdecimal c || int_space c || Ascii.eqb c "+" || Ascii.eqb c "-"
  || Ascii.eqb c "_".

(** The characters a token of a page query can hold without being refused:
    those of an [int] literal and the whitespace [str.strip] takes off. *)
Definition token_char (c : ascii) : bool := int_char c || isspace c.

Lemma int_digits_chars s :
  forall acc z, int_digits acc s = Some z ->
    forall c, In c (chars s) -> int_char c = true.
Proof.
  induction s as [|d r IH]; intros acc z Hz c Hin; [destruct Hin|].
  simpl in Hz. destruct (isdecimal d) eqn:Ed.
  - destruct Hin as [<-|Hin].
    + unfold int_char. now rewrite Ed.
    + exact (IH _ _ Hz c Hin).
  - destruct (Ascii.eqb_spec d "_") as [->|Hne]; [|discriminate Hz].
    destruct Hin as [<-|Hin]; [reflexivity|].
    destruct r as [|d' r']; [discriminate Hz|].
    destruct (isdecimal d') eqn:Ed'; [|discriminate Hz].
    apply (IH acc z); [|exact Hin]. simpl. now rewrite Ed'.
Qed.

Lemma int_unsigned_chars s z :
  int_unsigned s = Some z -> forall c, In c (chars s) -> int_char c = true.
Proof.
  destruct s as [|d r]; [discriminate|]. unfold int_unsigned.
  destruct (isdecimal d) eqn:Ed; [|discriminate].
  destruct (int_max_str_digits <? count_decimal (String d r)); [discriminate|].
  intros Hz c [<-|Hin].
  - unfold int_char. now rewrite Ed.
  - exact (int_digits_chars r _ z Hz c Hin).
Qed.

Lemma int_lstrip_chars s c :
  In c (chars s) -> int_space c = true \/ In c (chars (int_lstrip s)).
Proof.
  induction s as [|d r IH]; [intros []|]. intros [<-|Hin]; simpl.
  - destruct (int_space d) eqn:Ed; [now left | right; now left].
  - destruct (int_space d); [now apply IH | right; now right].
Qed.

Lemma int_rstrip_chars s c :
  In c (chars s) -> int_space c = true \/ In c (chars (int_rstrip s)).
Proof.
  induction s as [|d r IH]; [intros []|]. intros Hin. simpl.
  destruct (int_rstrip r) as [|e r'] eqn:Er.
  - destruct Hin as [<-|Hin].
    + destruct (int_space d) eqn:Ed; [now left | right; now left].
    + destruct (IH Hin) as [Hs|[]]. now left.
  - destruct Hin as [<-|Hin]; [right; now left|].
    destruct (IH Hin) as [Hs|Hin']; [now left | right; now right].
Qed.

(** A string with a character that no [int] literal holds is refused. *)
Lemma int_foreign s c :
  In c (chars s) -> int_char c = false -> int s = Raise ValueError.
Proof.
  intros Hin Hc. unfold int. destruct (int_opt s) as [z|] eqn:Ez; [|reflexivity].
  exfalso. assert (Hok : int_char c = true); [|congruence].
  assert (Hsp : int_space c = false).
  { unfold int_char in Hc. repeat (apply orb_false_iff in Hc as [Hc ?]).
    assumption. }
  destruct (int_lstrip_chars s c Hin) as [Hs|Hin1]; [congruence|].
  destruct (int_rstrip_chars _ c Hin1) as [Hs|Hin2]; [congruence|].
  unfold int_opt in Ez.
  destruct (int_rstrip (int_lstrip s)) as [|d r]; [discriminate|].
  destruct (Ascii.eqb_spec d "+") as [->|Hplus].
  - destruct Hin2 as [<-|Hin2]; [reflexivity|].
    exact (int_unsigned_chars r z Ez c Hin2).
  - destruct (Ascii.eqb_spec d "-") as [->|Hminus].
    + destruct Hin2 as [<-|Hin2]; [reflexivity|].
      destruct (int_unsigned r) as [z'|] eqn:Eu; [|discriminate].
      exact (int_unsigned_chars r z' Eu c Hin2).
    + exact (int_unsigned_chars _ z Ez c Hin2).
Qed.

Lemma lstrip_keeps s c :
  In c (chars s) -> isspace c = false -> In c (chars (lstrip s)).
Proof.
  induction s as [|d r IH]; [intros []|]. intros [<-|Hin] Hc; simpl.
  - rewrite Hc. now left.
  - destruct (isspace d); [now apply IH | now right].
Qed.

Lemma rstrip_keeps s c :
  In c (chars s) -> isspace c = false -> In c (chars (rstrip s)).
Proof.
  induction s as [|d r IH]; [intros []|]. intros Hin Hc. simpl.
  destruct (rstrip r) as [|e r'] eqn:Er.
  - destruct Hin as [<-|Hin].
    + rewrite Hc. now left.
    + destruct (IH Hin Hc).
  - destruct Hin as [<-|Hin]; [now left|]. right. now apply IH.
Qed.

Lemma split1_chars s c :
  contains_char "-" s = true -> In c (chars s) -> c <> "-"%char ->
  In c (chars (fst (split1 "-" s))) \/ In c (chars (snd (split1 "-" s))).
Proof.
  induction s as [|d r IH]; [discriminate|]. intros Hs Hin Hne. simpl in *.
  destruct (Ascii.eqb_spec d "-") as [->|Hd].
  - destruct Hin as [<-|Hin]; [congruence|]. now right.
  - simpl in Hs. destruct (split1 "-" r) as [a b] eqn:Esp. simpl in *.
    destruct Hin as [<-|Hin]; [left; now left|].
    destruct (IH Hs Hin Hne) as [Ha|Hb]; [left; now right | now right].
Qed.

(** *** The two parsers, token by token *)

(** The range a token of [parse_page_query] stands for: what [int] reads in
    the trimmed token, or on the two sides of its first hyphen. *)
Definition token_range (tok : string) (r : Z * Z) : Prop :=
  let part := strip tok in
  if contains_char "-" part then
    int (fst (split1 "-" part)) = Ok (fst r)
    /\ int (snd (split1 "-" part)) = Ok (snd r)
  else int part = Ok (fst r) /\ snd r = fst r.

(** [int] refuses the trimmed token, or a side of its first hyphen. *)
Definition refused (tok : string) : Prop :=
  let part := strip tok in
  if contains_char "-" part then
    int (fst (split1 "-" part)) = Raise ValueError
    \/ int (snd (split1 "-" part)) = Raise ValueError
  else int part = Raise ValueError.

(** The tokens [parse_page_input] reads: those of the input in lower case
    with the words [pages] and [page] taken out, each trimmed. *)
Definition input_tokens (input_str : string) : list string :=
  map strip
    (split ","
       (strip (ExtractToc.replace_empty "page"
                 (ExtractToc.replace_empty "pages" (lower input_str))))).

(** What a token of [parse_page_input] gives: a range when it has exactly
    one hyphen between two [int] literals or is made of digits [int] reads,
    and nothing at all when it has no hyphen and is not made of digits. *)
Definition input_token (tok : string) (rs : list (Z * Z)) : Prop :=
  if contains_char "-" tok then
    exists a b x y,
      split "-" tok = [a; b] /\ int a = Ok x /\ int b = Ok y
      /\ rs = [(x, y)]
  else if ExtractToc.isdigit tok then
    exists v, int tok = Ok v /\ rs = [(v, v)]
  else rs = [].

Lemma int_cases s : (exists z, int s = Ok z) \/ int s = Raise ValueError.
Proof. unfold int. destruct (int_opt s); eauto. Qed.

Lemma parse_part_range tok r : parse_part tok = Ok r <-> token_range tok r.
Proof.
  unfold parse_part, token_range. destruct (contains_char "-" (strip tok)).
  - destruct (split1 "-" (strip tok)) as [a b]. simpl.
    destruct (int_cases a) as [[x ->]| ->]; simpl.
    + destruct (int_cases b) as [[y ->]| ->]; simpl.
      * destruct r as [r1 r2]. simpl. split.
        -- intros Heq. injection Heq as <- <-. auto.
        -- intros [Hx Hy]. injection Hx as <-. injection Hy as <-. reflexivity.
      * split; [discriminate|]. intros [_ Hy]. discriminate.
    + split; [discriminate|]. intros [Hx _]. discriminate.
  - destruct (int_cases (strip tok)) as [[x ->]| ->]; simpl.
    + destruct r as [r1 r2]. simpl. split.
      * intros Heq. injection Heq as <- <-. auto.
      * intros [Hx ->]. injection Hx as <-. reflexivity.
    + split; [discriminate|]. intros [Hx _]. discriminate.
Qed.

Lemma parse_part_refused tok : is_ok (parse_part tok) = false <-> refused tok.
Proof.
  unfold parse_part, refused. destruct (contains_char "-" (strip tok)).
  - destruct (split1 "-" (strip tok)) as [a b]. simpl.
    destruct (int_cases a) as [[x ->]| ->]; simpl.
    + destruct (int_cases b) as [[y ->]| ->]; simpl.
      * split; [discriminate|]. intros [Hx|Hy]; discriminate.
      * split; auto.
    + split; auto.
  - destruct (int_cases (strip tok)) as [[x ->]| ->]; simpl.
    + split; discriminate.
    + split; auto.
Qed.

Lemma foreign_refused tok c :
  In c (chars tok) -> token_char c = false -> refused tok.
Proof.
  intros Hin Hc. unfold token_char in Hc.
  apply orb_false_iff in Hc as [Hint Hsp].
  assert (Hin' : In c (chars (strip tok))).
  { unfold strip. apply rstrip_keeps; auto. now apply lstrip_keeps. }
  unfold refused. destruct (contains_char "-" (strip tok)) eqn:Eh.
  - assert (Hne : c <> "-"%char) by (intros ->; discriminate Hint).
    destruct (split1_chars _ c Eh Hin' Hne) as [Ha|Hb].
    + left. exact (int_foreign _ c Ha Hint).
    + right. exact (int_foreign _ c Hb Hint).
  - exact (int_foreign _ c Hin' Hint).
Qed.

Lemma input_part_token tok rs :
  ExtractToc.input_part tok = Ok rs <-> input_token tok rs.
Proof.
  unfold ExtractToc.input_part, input_token.
  destruct (contains_char "-" tok).
  - destruct (split "-" tok) as [|a [|b [|c l]]];
      try (split; [discriminate
                  | intros (a' & b' & x & y & Hsp & _); discriminate]).
    destruct (int_cases a) as [[x Hx]|Hx]; rewrite Hx; simpl.
    + destruct (int_cases b) as [[y Hy]|Hy]; rewrite Hy; simpl.
      * split.
        -- intros Heq. injection Heq as <-. exists a, b, x, y. auto.
        -- intros (a' & b' & x' & y' & Hsp & Ha & Hb & ->).
           injection Hsp as <- <-. rewrite Hx in Ha. rewrite Hy in Hb.
           injection Ha as <-. injection Hb as <-. reflexivity.
      * split; [discriminate|].
        intros (a' & b' & x' & y' & Hsp & _ & Hb & _).
        injection Hsp as <- <-. rewrite Hy in Hb. discriminate.
    + split; [discriminate|].
      intros (a' & b' & x' & y' & Hsp & Ha & _). injection Hsp as <- <-.
      rewrite Hx in Ha. discriminate.
  - destruct (ExtractToc.isdigit tok).
    + destruct (int_cases tok) as [[x Hx]|Hx]; rewrite Hx; simpl.
      * split.
        -- intros Heq. injection Heq as <-. eauto.
        -- intros (v & Hv & ->). injection Hv as <-. reflexivity.
      * split; [discriminate|]. intros (v & Hv & _). discriminate.
    + split.
      * intros Heq. now injection Heq as <-.
      * intros ->. reflexivity.
Qed.

Lemma input_part_error tok e :
  ExtractToc.input_part tok = Raise e -> e = ValueError.
Proof.
  unfold ExtractToc.input_part. destruct (contains_char "-" tok).
  - destruct (split "-" tok) as [|a [|b [|c l]]]; try congruence.
    destruct (int_cases a) as [[x ->]| ->]; simpl; [|congruence].
    destruct (int_cases b) as [[y ->]| ->]; simpl; congruence.
  - destruct (ExtractToc.isdigit tok); [|discriminate].
    destruct (int_cases tok) as [[x ->]| ->]; simpl; congruence.
Qed.

Lemma input_parts_ok parts :
  forall acc rs,
    ExtractToc.input_parts parts acc = Ok rs <->
    exists rss, rs = acc ++ concat rss /\ Forall2 input_token parts rss.
Proof.
  induction parts as [|p parts IH]; intros acc rs; simpl.
  - split.
    + intros H. injection H as <-. exists []. simpl. rewrite app_nil_r. auto.
    + intros (rss & -> & HF). inversion HF. simpl. now rewrite app_nil_r.
  - destruct (ExtractToc.input_part p) as [r|e] eqn:Ep; simpl.
    + rewrite IH. split.
      * intros (rss & -> & HF). exists (r :: rss). simpl.
        rewrite <- app_assoc. split; auto. constructor; auto.
        now apply input_part_token.
      * intros (rss & -> & HF). inversion HF as [|? r' ? rss' Hp HF']; subst.
        apply input_part_token in Hp. rewrite Ep in Hp. injection Hp as <-.
        exists rss'. simpl. rewrite <- app_assoc. auto.
    + split; [discriminate|].
      intros (rss & -> & HF). inversion HF as [|? r' ? rss' Hp HF']; subst.
      apply input_part_token in Hp. rewrite Ep in Hp. discriminate.
Qed.

Lemma input_parts_error parts :
  forall acc e, ExtractToc.input_parts parts acc = Raise e -> e = ValueError.
Proof.
  induction parts as [|p parts IH]; intros acc e; simpl; [discriminate|].
  destruct (ExtractToc.input_part p) as [r|e'] eqn:Ep; simpl.
  - apply IH.
  - intros Heq. injection Heq as <-. exact (input_part_error p e' Ep).
Qed.

Lemma parse_parts_error parts :
  forall acc e, parse_parts parts acc = Raise e -> e = ValueError.
Proof.
  induction parts as [|p parts IH]; intros acc e; simpl; [discriminate|].
  destruct (parse_part p) as [r|e'] eqn:Ep; simpl.
  - apply IH.
  - intros Heq. injection Heq as <-. exact (parse_part_error p e' Ep).
Qed.

(** C2, as the code has it.  [parse_page_query] gives one range for each
    comma-separated token, in the order of the tokens, exactly when [int]
    reads every token: the trimmed token when it has no hyphen, else the
    two sides of its first hyphen.  It raises [ValueError], and so hands
    over no partial result, exactly when [int] refuses a token, as in
    ["x-1"], and raises nothing else.  A token of digits, no more than
    [int] takes, gives [(p, p)], and two of them joined by a hyphen give
    [(a, b)]; a token with a character that is neither a digit, a sign, an
    underscore nor whitespace is refused.  [parse_page_input] reads the
    three examples alike and raises [ValueError] on ["x-1"], nothing but
    [ValueError] ever, but it gives a range only for a token that has a
    hyphen or is made of digits: any other token is passed over, and the
    result holds the ranges of the tokens that are left. *)
Theorem parse_page_query_ranges :
  (parse_page_query "5" = Ok [(5, 5)]
   /\ parse_page_query "5-7" = Ok [(5, 7)]
   /\ parse_page_query "2,4,6-8" = Ok [(2, 2); (4, 4); (6, 8)]
   /\ parse_page_query "x-1" = Raise ValueError)
  /\ (forall q rs,
        parse_page_query q = Ok rs <-> Forall2 token_range (split "," q) rs)
  /\ (forall q,
        (parse_page_query q = Raise ValueError <->
         exists tok, In tok (split "," q) /\ refused tok)
        /\ forall e, parse_page_query q = Raise e -> e = ValueError)
  /\ (forall tok,
        numeric (strip tok) = true ->
        Z.of_nat (String.length (strip tok)) <= int_max_str_digits ->
        token_range tok
          (decimal_value 0 (strip tok), decimal_value 0 (strip tok)))
  /\ (forall tok a b,
        strip tok = hyphenated a b -> numeric a = true -> numeric b = true ->
        Z.of_nat (String.length a) <= int_max_str_digits ->
        Z.of_nat (String.length b) <= int_max_str_digits ->
        token_range tok (decimal_value 0 a, decimal_value 0 b))
  /\ (forall tok c,
        In c (chars tok) -> token_char c = false -> refused tok)
  /\ (ExtractToc.parse_page_input "5" = Ok [(5, 5)]
      /\ ExtractToc.parse_page_input "5-7" = Ok [(5, 7)]
      /\ ExtractToc.parse_page_input "2,4,6-8" = Ok [(2, 2); (4, 4); (6, 8)]
      /\ ExtractToc.parse_page_input "x-1" = Raise ValueError)
  /\ (forall s rs,
        ExtractToc.parse_page_input s = Ok rs <->
        exists rss, rs = concat rss /\ Forall2 input_token (input_tokens s) rss)
  /\ (forall s e, ExtractToc.parse_page_input s = Raise e -> e = ValueError).
Proof.
  split; [repeat split; reflexivity|].
  split.
  { intros q rs. unfold parse_page_query. rewrite parse_parts_ok. split.
    - intros (rs' & -> & HF). simpl.
      eapply Forall2_impl; [|exact HF]. intros tok r. apply parse_part_range.
    - intros HF. exists rs. split; auto.
      eapply Forall2_impl; [|exact HF]. intros tok r. apply parse_part_range. }
  split.
  { intros q. unfold parse_page_query. split.
    - rewrite parse_parts_raise.
      split; intros (tok & Hin & Hf); exists tok; (split; [exact Hin|]);
        now apply parse_part_refused.
    - apply parse_parts_error. }
  split.
  { intros tok Hn Hlen. apply parse_part_range. now apply parse_part_numeric. }
  split.
  { intros tok a b Ht Ha Hb Hla Hlb. apply parse_part_range.
    now apply (parse_part_hyphenated tok a b). }
  split; [exact foreign_refused|].
  split; [repeat split; reflexivity|].
  split.
  { intros s rs. unfold ExtractToc.parse_page_input, input_tokens.
    rewrite input_parts_ok. simpl. reflexivity. }
  intros s e. apply input_parts_error.
Qed.

Lemma parse_page_query_ranges_witness :
  parse_page_query "3,x,4" = Raise ValueError
  /\ token_range " 12-15 " (12, 15).
Proof.
  destruct parse_page_query_ranges
    as (_ & _ & Hraise & _ & Hhyphen & Hforeign & _).
  split.
  - apply Hraise. exists "x". split; [simpl; auto|].
    apply (Hforeign "x" "x"%char); [simpl; auto | reflexivity].
  - apply (Hhyphen " 12-15 " "12" "15"); try reflexivity;
      unfold int_max_str_digits; simpl; lia.
Defined.

(** C2 as the specification words it fails: ["+5"], ["5--7"] and ["1_0"]
    are not purely numeric, with or without one hyphen between two numbers,
    and [parse_page_query] gives a range for each; and [parse_page_input]
    passes over the token ["x"] in silence and hands over the ranges of the
    two other tokens. *)
Lemma parse_page_query_accepts_signs :
  parse_page_query "+5" = Ok [(5, 5)]
  /\ parse_page_query "5--7" = Ok [(5, -7)]
  /\ parse_page_query "1_0" = Ok [(10, 10)]
  /\ numeric "+5" = false
  /\ numeric "1_0" = false
  /\ split1 "-" "5--7" = ("5", "-7") /\ numeric "-7" = false
  /\ ExtractToc.parse_page_input "2,x,4" = Ok [(2, 2); (4, 4)]
  /\ numeric "x" = false.
Proof. repeat split; reflexivity. Qed.

End PageRangeFacts.

(** ** The locator of the table of contents *)

Module TocLocatorFacts.
Import ExtractToc.

(** A page the scan can start on: a line of it is the heading, or the page
    is TOC-like. *)
Definition start_page (txt : string) : bool :=
  existsb (Re.matches contents_pat) (map PyStr.lower (stripped_lines txt))
  || is_toc_like_page txt 3 5.

Definition toc_like (txt : string) : bool := is_toc_like_page txt 3 5.

(** The text of page [p], pages being numbered from 1. *)
Definition page_text (pages : list string) (p : Z) : string :=
  nth (Z.to_nat (p - 1)) pages EmptyString.

(** No page of the first [n] can start a table of contents. *)
Definition no_start (pages : list string) (n : Z) : Prop :=
  forall p, 1 <= p <= n -> start_page (page_text pages p) = false.

(** [s..e] is the span the scan of the first [n] pages detects: [s] is the
    first page that can start one, the pages after it up to [e] are
    TOC-like, and the span stops at the end of the window or before a page
    that is not TOC-like. *)
Definition toc_span (pages : list string) (n s e : Z) : Prop :=
  1 <= s <= e /\ e <= n
  /\ start_page (page_text pages s) = true
  /\ (forall p, 1 <= p < s -> start_page (page_text pages p) = false)
  /\ (forall p, s < p <= e -> toc_like (page_text pages p) = true)
  /\ (e = n \/ toc_like (page_text pages (e + 1)) = false).

(** The number of pages the scan looks at. *)
Definition window (pages : list string) (max_scan_pages : Z) : Z :=
  Z.max 0 (Z.min (Z.of_nat (List.length pages)) max_scan_pages).

Lemma scan_page_search i txt :
  scan_page i txt (None, None)
  = Some (if start_page txt
          then (Some (Z.of_nat i + 1), Some (Z.of_nat i + 1))
          else (None, None)).
Proof.
  unfold scan_page, start_page. simpl.
  destruct (existsb _ _); simpl; auto.
  destruct (is_toc_like_page txt 3 5); auto.
Qed.

Lemma scan_page_extend i txt s e :
  scan_page i txt (Some s, e)
  = if toc_like txt then Some (Some s, Some (Z.of_nat i + 1)) else None.
Proof. reflexivity. Qed.

(** Once started, the scan runs over the TOC-like pages that follow. *)
Lemma scan_extend pages k :
  forall a s e,
  exists m,
    (m <= k)%nat
    /\ (forall j, (j < m)%nat -> toc_like (nth (a + j) pages EmptyString) = true)
    /\ (m = k \/ toc_like (nth (a + m) pages EmptyString) = false)
    /\ scan_pages pages (seq a k) (Some s, Some e)
       = (Some s, Some (if (m =? 0)%nat then e else Z.of_nat (a + m)%nat)).
Proof.
  induction k as [|k IH]; intros a s e.
  - exists 0%nat. simpl. repeat split; auto. intros j Hj. lia.
  - simpl. rewrite scan_page_extend.
    destruct (toc_like (nth a pages EmptyString)) eqn:Et.
    + destruct (IH (S a) s (Z.of_nat a + 1)) as (m & Hm & Hrun & Hstop & Hres).
      exists (S m). split; [lia|]. split.
      { intros j Hj. destruct j as [|j].
        - now rewrite Nat.add_0_r.
        - replace (a + S j)%nat with (S a + j)%nat by lia. apply Hrun. lia. }
      split.
      { destruct Hstop as [->|Hstop]; [now left|right].
        now replace (a + S m)%nat with (S a + m)%nat by lia. }
      rewrite Hres. simpl. f_equal. f_equal.
      destruct (m =? 0)%nat eqn:E.
      * apply Nat.eqb_eq in E. subst m. lia.
      * f_equal. lia.
    + exists 0%nat. simpl. repeat split; auto; try lia.
      right. now rewrite Nat.add_0_r.
Qed.

(** Before it has started, the scan looks for the first start page. *)
Lemma scan_search pages k :
  forall a,
    (scan_pages pages (seq a k) (None, None) = (None, None)
     /\ forall j, (j < k)%nat ->
          start_page (nth (a + j) pages EmptyString) = false)
    \/ exists j,
         (j < k)%nat
         /\ start_page (nth (a + j) pages EmptyString) = true
         /\ (forall j', (j' < j)%nat ->
               start_page (nth (a + j') pages EmptyString) = false)
         /\ scan_pages pages (seq a k) (None, None)
            = scan_pages pages (seq (S (a + j)) (k - S j))
                (Some (Z.of_nat (a + j) + 1), Some (Z.of_nat (a + j) + 1)).
Proof.
  induction k as [|k IH]; intros a.
  - left. split; auto. intros j Hj. lia.
  - simpl. rewrite scan_page_search.
    destruct (start_page (nth a pages EmptyString)) eqn:Es.
    + right. exists 0%nat. rewrite Nat.add_0_r, Nat.sub_0_r.
      repeat split; auto; try lia.
    + destruct (IH (S a)) as [[Hres Hno]|(j & Hj & Hst & Hfirst & Hres)].
      * left. split; auto. intros j Hj. destruct j as [|j].
        -- now rewrite Nat.add_0_r.
        -- replace (a + S j)%nat with (S a + j)%nat by lia. apply Hno. lia.
      * right. exists (S j).
        replace (a + S j)%nat with (S a + j)%nat by lia.
        repeat split; auto; try lia.
        intros j' Hj'. destruct j' as [|j'].
        -- now rewrite Nat.add_0_r.
        -- replace (a + S j')%nat with (S a + j')%nat by lia.
           apply Hfirst. lia.
Qed.

Lemma page_text_nth pages (i : nat) :
  page_text pages (Z.of_nat i + 1) = nth i pages EmptyString.
Proof. unfold page_text. f_equal. lia. Qed.

(** What the scan of the first [k] pages ends with. *)
Lemma scan_pages_cases pages (k : nat) :
  (scan_pages pages (seq 0 k) (None, None) = (None, None)
   /\ no_start pages (Z.of_nat k))
  \/ exists s e,
       scan_pages pages (seq 0 k) (None, None) = (Some s, Some e)
       /\ toc_span pages (Z.of_nat k) s e.
Proof.
  destruct (scan_search pages k 0%nat) as [[Hres Hno]|(j & Hj & Hst & Hfirst & Hres)].
  - left. split; auto. intros p Hp. unfold page_text.
    apply (Hno (Z.to_nat (p - 1))). lia.
  - right. simpl in Hst, Hfirst, Hres.
    destruct (scan_extend pages (k - S j) (S j) (Z.of_nat j + 1) (Z.of_nat j + 1))
      as (m & Hm & Hrun & Hstop & Hext).
    rewrite Hext in Hres.
    exists (Z.of_nat j + 1),
      (if (m =? 0)%nat then Z.of_nat j + 1 else Z.of_nat (S j + m)).
    split; [exact Hres|].
    assert (He : (if (m =? 0)%nat then Z.of_nat j + 1 else Z.of_nat (S j + m))
                 = Z.of_nat (j + m) + 1).
    { destruct (m =? 0)%nat eqn:E; [apply Nat.eqb_eq in E|]; lia. }
    rewrite He. unfold toc_span.
    split; [lia|]. split; [lia|]. split.
    { now rewrite page_text_nth. }
    split.
    { intros p Hp. unfold page_text. apply Hfirst. lia. }
    split.
    { intros p Hp. unfold page_text.
      replace (Z.to_nat (p - 1)) with (S j + (Z.to_nat (p - 1) - S j))%nat by lia.
      apply Hrun. lia. }
    destruct Hstop as [->|Hstop]; [left; lia|right].
    replace (Z.of_nat (j + m) + 1 + 1) with (Z.of_nat (S j + m) + 1) by lia.
    now rewrite page_text_nth.
Qed.

(** The span of a window is unique, and excludes that there is no start. *)
Lemma toc_span_unique pages n s e s' e' :
  toc_span pages n s e -> toc_span pages n s' e' -> s = s' /\ e = e'.
Proof.
  intros (Hse & Hen & Hst & Hfirst & Hrun & Hstop)
         (Hse' & Hen' & Hst' & Hfirst' & Hrun' & Hstop').
  assert (s = s').
  { destruct (Z.lt_trichotomy s s') as [Hlt|[Heq|Hgt]]; auto.
    - rewrite Hfirst' in Hst by lia. discriminate.
    - rewrite Hfirst in Hst' by lia. discriminate. }
  subst s'. split; auto.
  destruct (Z.lt_trichotomy e e') as [Hlt|[Heq|Hgt]]; auto.
  - destruct Hstop as [->|Hstop]; [lia|].
    rewrite Hrun' in Hstop by lia. discriminate.
  - destruct Hstop' as [->|Hstop']; [lia|].
    rewrite Hrun in Hstop' by lia. discriminate.
Qed.

Lemma toc_span_start pages n s e :
  toc_span pages n s e -> no_start pages n -> False.
Proof.
  intros (Hse & Hen & Hst & _) Hno.
  rewrite Hno in Hst by lia. discriminate.
Qed.

(** The scan reads the pages at the indices it is given and no other. *)
Lemma scan_pages_ext pages pages' indices :
  forall st,
    (forall i, In i indices -> nth i pages EmptyString = nth i pages' EmptyString) ->
    scan_pages pages indices st = scan_pages pages' indices st.
Proof.
  induction indices as [|i rest IH]; intros st Hext; simpl; auto.
  rewrite <- (Hext i) by (simpl; auto).
  destruct (scan_page i (nth i pages EmptyString) st); auto.
  apply IH. intros j Hj. apply Hext. simpl; auto.
Qed.

Lemma window_to_nat pages max_scan_pages :
  Z.to_nat (Z.min (Z.of_nat (List.length pages)) max_scan_pages)
  = Z.to_nat (window pages max_scan_pages).
Proof. unfold window. lia. Qed.

Lemma window_of_firstn pages max_scan_pages :
  window (firstn (Z.to_nat (window pages max_scan_pages)) pages) max_scan_pages
  = window pages max_scan_pages.
Proof. unfold window. rewrite length_firstn. lia. Qed.

(** What the locator returns, read off the scan. *)
Lemma find_toc_page_range_eq pages max_scan_pages min_toc_len :
  find_toc_page_range pages max_scan_pages min_toc_len
  = match scan_pages pages
            (seq 0 (Z.to_nat (window pages max_scan_pages))) (None, None) with
    | (Some s, Some e) =>
        if truthy (Some s) && truthy (Some e) && (e - s + 1 >=? min_toc_len)
        then (Some s, Some e) else (None, None)
    | _ => (None, None)
    end.
Proof.
  unfold find_toc_page_range. rewrite window_to_nat.
  destruct (scan_pages _ _ _) as [[s|] [e|]]; reflexivity.
Qed.

(** C9: the locator reads only the first [min(N, max_scan_pages)] pages;
    it returns the span [s..e] exactly when that is the span the scan of
    those pages detects and it has at least [min_toc_len] pages; and it
    returns [(None, None)], the not-found result, exactly when no page of
    the window can start a table of contents or the detected span is
    shorter than [min_toc_len]. *)
Theorem find_toc_page_range_span pages max_scan_pages min_toc_len :
  let n := window pages max_scan_pages in
  n <= Z.max 0 (Z.of_nat (List.length pages)) /\ n <= Z.max 0 max_scan_pages
  /\ find_toc_page_range pages max_scan_pages min_toc_len
     = find_toc_page_range (firstn (Z.to_nat n) pages) max_scan_pages min_toc_len
  /\ (forall s e,
        find_toc_page_range pages max_scan_pages min_toc_len = (Some s, Some e)
        <-> toc_span pages n s e /\ e - s + 1 >= min_toc_len)
  /\ (find_toc_page_range pages max_scan_pages min_toc_len = (None, None)
      <-> no_start pages n
          \/ exists s e, toc_span pages n s e /\ e - s + 1 < min_toc_len).
Proof.
  intros n. split; [unfold n, window; lia|]. split; [unfold n, window; lia|].
  split.
  { unfold n. rewrite !find_toc_page_range_eq, window_of_firstn.
    set (w := Z.to_nat (window pages max_scan_pages)).
    rewrite (scan_pages_ext pages (firstn w pages)); auto.
    intros i Hi. apply in_seq in Hi. rewrite nth_firstn.
    destruct (Nat.ltb_spec i w); auto. lia. }
  rewrite find_toc_page_range_eq. fold n.
  assert (Hn : Z.of_nat (Z.to_nat n) = n) by (unfold n, window; lia).
  destruct (scan_pages_cases pages (Z.to_nat n))
    as [[Hres Hno]|(s0 & e0 & Hres & Hspan)];
    rewrite Hn in *; rewrite Hres.
  - split.
    + intros s e. split; [discriminate|].
      intros [Hspan _]. destruct (toc_span_start _ _ _ _ Hspan Hno).
    + split; auto.
  - assert (Htruthy : truthy (Some s0) && truthy (Some e0) = true).
    { destruct Hspan as (Hse & _). simpl.
      destruct (Z.eqb_spec s0 0); [lia|]. destruct (Z.eqb_spec e0 0); [lia|].
      reflexivity. }
    rewrite Htruthy. simpl.
    destruct (Z.geb_spec (e0 - s0 + 1) min_toc_len) as [Hlen|Hlen].
    + split.
      * intros s e. split.
        -- intros H. injection H as <- <-. split; auto. lia.
        -- intros [Hspan' _].
           destruct (toc_span_unique _ _ _ _ _ _ Hspan Hspan') as [-> ->]. auto.
      * split; [discriminate|].
        intros [Hno|(s & e & Hspan' & Hshort)].
        -- destruct (toc_span_start _ _ _ _ Hspan Hno).
        -- destruct (toc_span_unique _ _ _ _ _ _ Hspan Hspan') as [-> ->]. lia.
    + split.
      * intros s e. split; [discriminate|].
        intros [Hspan' Hlong].
        destruct (toc_span_unique _ _ _ _ _ _ Hspan Hspan') as [-> ->]. lia.
      * split; auto. intros _. right. exists s0, e0. split; auto.
Qed.

Lemma find_toc_page_range_span_witness :
  find_toc_page_range Samples.book default_max_scan_pages default_min_toc_len
  = (Some 2, Some 3)
  /\ find_toc_page_range Samples.book 2 default_min_toc_len = (None, None)
  /\ toc_span Samples.book 4 2 3.
Proof.
  split; [vm_compute; reflexivity|]. split; [vm_compute; reflexivity|].
  destruct (find_toc_page_range_span Samples.book default_max_scan_pages
              default_min_toc_len) as (_ & _ & _ & Hspan & _).
  apply (Hspan 2 3). vm_compute. reflexivity.
Defined.

End TocLocatorFacts.

(** ** Order on rationals, as the boolean tests decide it *)

Lemma Qlt_bool_iff (a b : Q) : Qlt_bool a b = true <-> (a < b)%Q.
Proof.
  unfold Qlt_bool. rewrite negb_true_iff. split.
  - intros H. apply Qnot_le_lt. intro Hle.
    apply Qle_bool_iff in Hle. congruence.
  - intros H. destruct (Qle_bool b a) eqn:E; auto.
    apply Qle_bool_iff in E. exfalso. exact (Qlt_not_le _ _ H E).
Qed.

Lemma Qlt_bool_false_iff (a b : Q) : Qlt_bool a b = false <-> (b <= a)%Q.
Proof.
  unfold Qlt_bool. rewrite negb_false_iff. apply Qle_bool_iff.
Qed.

(** ** Band clustering *)

Module BandFacts.
Import SpreadsheetAnalysis.

Section Bands.
Context `{Shapely} `{FloatArith}.

(** The vertical extents of two tables meet, touching included. *)
Definition tables_overlap (t u : table_info) : bool :=
  negb (Qlt_bool (ymax t) (ymin u) || Qlt_bool (ymax u) (ymin t)).

(** The extent of [b] covers the extent of [t]. *)
Definition covers (b : band) (t : table_info) : Prop :=
  (band_ymin b <= ymin t)%Q /\ (ymax t <= band_ymax b)%Q.

Lemma min2_le_l a b : (min2 a b <= a)%Q.
Proof.
  unfold min2. destruct (Qlt_bool b a) eqn:E.
  - apply Qlt_bool_iff in E. now apply Qlt_le_weak.
  - apply Qle_refl.
Qed.

Lemma min2_le_r a b : (min2 a b <= b)%Q.
Proof.
  unfold min2. destruct (Qlt_bool b a) eqn:E.
  - apply Qle_refl.
  - now apply Qlt_bool_false_iff in E.
Qed.

Lemma max2_ge_l a b : (a <= max2 a b)%Q.
Proof.
  unfold max2. destruct (Qlt_bool a b) eqn:E.
  - apply Qlt_bool_iff in E. now apply Qlt_le_weak.
  - apply Qle_refl.
Qed.

Lemma max2_ge_r a b : (b <= max2 a b)%Q.
Proof.
  unfold max2. destruct (Qlt_bool a b) eqn:E.
  - apply Qle_refl.
  - now apply Qlt_bool_false_iff in E.
Qed.

Lemma place_none tbl bands :
  (forall b, In b bands -> overlaps tbl b = false) -> place tbl bands = None.
Proof.
  induction bands as [|b bs IH]; simpl; auto.
  intros Hno. rewrite (Hno b) by auto. rewrite IH; auto.
Qed.

Lemma place_first tbl pre b post :
  (forall b', In b' pre -> overlaps tbl b' = false) ->
  overlaps tbl b = true ->
  place tbl (pre ++ b :: post) = Some (pre ++ join tbl b :: post).
Proof.
  induction pre as [|p pre IH]; simpl; intros Hno Hb.
  - now rewrite Hb.
  - rewrite (Hno p) by auto. rewrite IH; auto.
Qed.

Lemma cluster_snoc tbls t :
  cluster (tbls ++ [t]) = cluster_step (cluster tbls) t.
Proof. unfold cluster. now rewrite fold_left_app. Qed.

(** A table that overlaps a table of a band overlaps the band. *)
Lemma overlaps_covered u t b :
  tables_overlap u t = true -> covers b t -> overlaps u b = true.
Proof.
  unfold tables_overlap, overlaps, covers.
  rewrite !negb_true_iff, !orb_false_iff.
  intros [H1 H2] [Hlo Hhi].
  apply Qlt_bool_false_iff in H1. apply Qlt_bool_false_iff in H2.
  split; apply Qlt_bool_false_iff.
  - eapply Qle_trans; eauto.
  - eapply Qle_trans; eauto.
Qed.

Lemma covers_join u t b : covers b t -> covers (join u b) t.
Proof.
  unfold covers, join. simpl. intros [Hlo Hhi]. split.
  - eapply Qle_trans; [apply min2_le_l | exact Hlo].
  - eapply Qle_trans; [exact Hhi | apply max2_ge_l].
Qed.

(** Tables that all overlap one table keep joining the band it is in. *)
Lemma fold_one_band t ts :
  forall b,
    covers b t ->
    (forall u, In u ts -> tables_overlap u t = true) ->
    exists b', fold_left cluster_step ts [b] = [b'] /\ covers b' t
      /\ band_tables b' = band_tables b ++ ts.
Proof.
  induction ts as [|u ts IH]; intros b Hcov Hall; simpl.
  - exists b. rewrite app_nil_r. auto.
  - unfold cluster_step at 2. simpl.
    rewrite (overlaps_covered u t b (Hall u (or_introl eq_refl)) Hcov).
    destruct (IH (join u b) (covers_join u t b Hcov)) as (b' & Hb' & Hcov' & Htabs).
    { intros v Hv. apply Hall. simpl; auto. }
    exists b'. repeat split; auto; try apply Hcov'.
    rewrite Htabs. simpl. now rewrite <- app_assoc.
Qed.

(** Given alone, tables that all overlap the first of them end in one
    band. *)
Lemma cluster_one_band t ts :
  (forall u, In u ts -> tables_overlap u t = true) ->
  exists b, cluster (t :: ts) = [b] /\ band_tables b = t :: ts.
Proof.
  intros Hall. unfold cluster. simpl. unfold cluster_step at 2. simpl.
  destruct (fold_one_band t ts (new_band t)) as (b & Hb & _ & Htabs); auto.
  - unfold covers, new_band. simpl. split; apply Qle_refl.
  - exists b. split; auto.
Qed.

End Bands.

End BandFacts.

Module BandClaims.
Import SpreadsheetAnalysis BandFacts Samples.

Lemma tables_overlap_sym `{Shapely} (t u : table_info) :
  tables_overlap t u = tables_overlap u t.
Proof. unfold tables_overlap. now rewrite orb_comm. Qed.

(** The four sample tables as [collect_tables] records them. *)
Definition info_of (tbl : DocumentTable) (x0 y0 x1 y1 : Z)
  : table_info (H := Rings) :=
  {| table := tbl; poly := rect x0 y0 x1 y1;
     ymin := inject_Z y0; ymax := inject_Z y1; xmin := inject_Z x0 |}.

Definition info_x : table_info (H := Rings) := info_of lone_top 6 0 7 2.
Definition info_p : table_info (H := Rings) := info_of mutual_p 0 8 1 12.
Definition info_q : table_info (H := Rings) := info_of mutual_q 2 2 3 10.
Definition info_r : table_info (H := Rings) := info_of mutual_r 4 9 5 11.

(** C6: clustering is one pass over the tables in input order; a table
    joins the first band whose interval it overlaps, touching included, and
    the band's interval becomes the union of the two, else it opens a new
    band at the end.  The result depends on the order and is not closed
    under chains of overlaps: of three tables in a chain, where the third
    overlaps the two others and these do not meet, one order gives two
    bands and another gives one; and three tables every two of which
    overlap end in two bands when a fourth table comes first and draws two
    of them into its band, and in one band in another order. *)
Theorem cluster_single_pass :
  (forall (S : Shapely) tbls t,
      cluster (tbls ++ [t]) = cluster_step (cluster tbls) t)
  /\ (forall (S : Shapely) bands t,
        (forall b, In b bands -> overlaps t b = false) ->
        cluster_step bands t = bands ++ [new_band t])
  /\ (forall (S : Shapely) pre b post t,
        (forall b', In b' pre -> overlaps t b' = false) ->
        overlaps t b = true ->
        cluster_step (pre ++ b :: post) t = pre ++ join t b :: post)
  /\ (forall (S : Shapely) t b,
        band_ymin (join t b) = min2 (band_ymin b) (ymin t)
        /\ band_ymax (join t b) = max2 (band_ymax b) (ymax t)
        /\ band_tables (join t b) = band_tables b ++ [t])
  /\ (band_sizes [chain_a; chain_b; chain_c] = Ok [2; 1]%nat
      /\ band_sizes [chain_a; chain_c; chain_b] = Ok [3]%nat)
  /\ (collect_tables 1 [lone_top; mutual_p; mutual_q; mutual_r] []
      = Ok [info_x; info_p; info_q; info_r]
      /\ tables_overlap info_p info_q = true
      /\ tables_overlap info_p info_r = true
      /\ tables_overlap info_q info_r = true
      /\ map band_tables (cluster [info_x; info_p; info_q; info_r])
         = [[info_x; info_q; info_r]; [info_p]]
      /\ map band_tables (cluster [info_p; info_q; info_r; info_x])
         = [[info_p; info_q; info_r; info_x]]).
Proof.
  split; [intros; apply cluster_snoc|].
  split.
  { intros S bands t Hno. unfold cluster_step. now rewrite place_none. }
  split.
  { intros S pre b post t Hno Hb. unfold cluster_step.
    now rewrite (place_first t pre b post Hno Hb). }
  split; [intros; repeat split; reflexivity|].
  split; [split; vm_compute; reflexivity|].
  split; [reflexivity|].
  split; [reflexivity|].
  split; [reflexivity|].
  split; [reflexivity|].
  split; reflexivity.
Qed.

Lemma cluster_single_pass_witness :
  exists b : band (H := Rings),
    cluster_step [new_band
                    {| table := chain_a; poly := rect 0 0 1 1;
                       ymin := 0; ymax := 1; xmin := 0 |}]
      {| table := chain_c; poly := rect 2 1 3 2;
         ymin := 1; ymax := 2; xmin := 2 |} = [b]
    /\ List.length (band_tables b) = 2%nat.
Proof.
  destruct cluster_single_pass as (_ & _ & Hjoin & _).
  eexists. split.
  - apply (Hjoin Rings [] _ [] _).
    + intros b' [].
    + reflexivity.
  - reflexivity.
Defined.

End BandClaims.

(** ** Sorting *)

Section SortFacts.
Context {X : Type} (lt : X -> X -> bool).

Lemma insert_sorted_perm x l : Permutation (insert_sorted lt x l) (x :: l).
Proof.
  induction l as [|y l IH]; simpl; auto.
  destruct (lt y x); auto.
  rewrite IH. apply perm_swap.
Qed.

Lemma stable_sort_perm l : Permutation (stable_sort lt l) l.
Proof.
  induction l as [|x l IH]; simpl; auto.
  rewrite insert_sorted_perm. now constructor.
Qed.

Lemma stable_sort_length l : List.length (stable_sort lt l) = List.length l.
Proof. apply Permutation_length, stable_sort_perm. Qed.

End SortFacts.

(** ** Row emission *)

Module EmitFacts.
Import SpreadsheetAnalysis.

(** The [n] numbers that follow one another from [start]. *)
Fixpoint consecutive (start : Z) (n : nat) : list Z :=
  match n with
  | O => []
  | S n' => start :: consecutive (start + 1) n'
  end.

Definition numbers (rws : list SheetRow) : list Z := map row_number rws.

(** The rows so far carry increasing numbers, all below the counter. *)
Definition increasing (st : emit_state) : Prop :=
  StronglySorted Z.lt (numbers (fst st))
  /\ Forall (fun n => 1 <= n < snd st) (numbers (fst st)).

Lemma consecutive_bounds start n :
  Forall (fun k => start <= k < start + Z.of_nat n) (consecutive start n).
Proof.
  revert start. induction n as [|n IH]; intros start; simpl; constructor.
  - lia.
  - eapply Forall_impl; [|apply IH]. simpl. intros k Hk. lia.
Qed.

Lemma consecutive_sorted start n : StronglySorted Z.lt (consecutive start n).
Proof.
  revert start. induction n as [|n IH]; intros start; simpl; constructor; auto.
  eapply Forall_impl; [|apply consecutive_bounds]. simpl. intros k Hk. lia.
Qed.

Lemma sorted_app (l1 l2 : list Z) (c : Z) :
  StronglySorted Z.lt l1 -> Forall (fun n => n < c) l1 ->
  StronglySorted Z.lt l2 -> Forall (fun n => c <= n) l2 ->
  StronglySorted Z.lt (l1 ++ l2).
Proof.
  intros H1 Hb1 H2 Hb2. induction l1 as [|x l1 IH]; simpl; auto.
  inversion H1 as [|? ? Hs Hx]; subst. inversion Hb1 as [|? ? Hxc Hb1']; subst.
  constructor; auto. apply Forall_app. split; auto.
  eapply Forall_impl; [|exact Hb2]. simpl. intros k Hk. lia.
Qed.

(** Appending rows numbered from the counter on keeps the numbers
    increasing, wherever the counter goes from there. *)
Lemma increasing_append st new n c' :
  increasing st -> 1 <= snd st ->
  numbers new = consecutive (snd st) n ->
  snd st + Z.of_nat n <= c' ->
  increasing (fst st ++ new, c').
Proof.
  intros [Hs Hb] Hpos Hnew Hc'. unfold increasing, numbers in *. simpl.
  rewrite map_app, Hnew. split.
  - apply (sorted_app _ _ (snd st)); auto.
    + eapply Forall_impl; [|exact Hb]. simpl. intros k Hk. lia.
    + apply consecutive_sorted.
    + eapply Forall_impl; [|apply consecutive_bounds]. simpl. intros k Hk. lia.
  - apply Forall_app. split.
    + eapply Forall_impl; [|exact Hb]. simpl. intros k Hk. lia.
    + eapply Forall_impl; [|apply consecutive_bounds]. simpl. intros k Hk. lia.
Qed.

(** The rows of a band: one for each entry, numbered from the counter. *)
Lemma emit_band_rows rws :
  forall st, exists new,
    fold_left emit_band_row rws st
    = (fst st ++ new, snd st + Z.of_nat (List.length rws))
    /\ numbers new = consecutive (snd st) (List.length rws).
Proof.
  induction rws as [|r rws IH]; intros st.
  - exists []. simpl. rewrite app_nil_r, Z.add_0_r. now destruct st.
  - destruct (IH (emit_band_row st r)) as (new & Hfold & Hnum).
    simpl fold_left. rewrite Hfold. unfold emit_band_row at 1 2. simpl fst. simpl snd.
    eexists (_ :: new). split.
    + rewrite <- app_assoc. simpl. f_equal. simpl List.length. lia.
    + simpl. f_equal. exact Hnum.
Qed.

(** What one layout element adds to the sheet. *)
Lemma emit_element_rows st el :
  exists new n,
    emit_element st el
    = (fst st ++ new,
       match el with
       | BandEl _ _ => snd st + Z.of_nat n + 1
       | LineEl _ _ => snd st + 1
       end)
    /\ numbers new = consecutive (snd st) n
    /\ match el with
       | BandEl _ d => n = List.length d
       | LineEl _ t =>
           new = [{| cells := [{| value := t; enable := true; index := 1 |}];
                     row_number := snd st |}]
       end.
Proof.
  destruct el as [y d|y t]; simpl.
  - destruct (emit_band_rows (sorted_rows d) st) as (new & Hfold & Hnum).
    unfold sorted_rows in *. rewrite stable_sort_length in *.
    exists new, (List.length d). rewrite Hfold. auto.
  - eexists _, 1%nat. split; [|split]; reflexivity.
Qed.

Lemma emit_element_increasing st el :
  increasing st -> 1 <= snd st ->
  increasing (emit_element st el) /\ 1 <= snd (emit_element st el).
Proof.
  intros Hinc Hpos.
  destruct (emit_element_rows st el) as (new & n & -> & Hnum & Hel).
  split.
  - apply (increasing_append st new n); auto.
    destruct el; [lia|]. subst new. destruct n as [|[|n]]; try discriminate.
    lia.
  - destruct el; simpl; lia.
Qed.

Lemma emit_elements_increasing els :
  forall st, increasing st -> 1 <= snd st ->
    increasing (fold_left emit_element els st)
    /\ 1 <= snd (fold_left emit_element els st).
Proof.
  induction els as [|el els IH]; intros st Hinc Hpos; simpl; auto.
  destruct (emit_element_increasing st el Hinc Hpos). now apply IH.
Qed.

Section Pages.
Context `{Shapely} `{FloatArith}.

Lemma emit_pages_increasing result ps :
  forall st st', increasing st -> 1 <= snd st ->
    emit_pages result ps st = Ok st' -> increasing st'.
Proof.
  induction ps as [|page ps IH]; intros st st' Hinc Hpos; simpl.
  - intros Heq. now injection Heq as <-.
  - destruct (page_elements result page) as [els|e]; simpl; [|discriminate].
    destruct (emit_elements_increasing els st Hinc Hpos).
    now apply IH.
Qed.

(** The state one page leaves is the state the next page starts from. *)
Lemma emit_pages_app result ps1 ps2 :
  forall st,
    emit_pages result (ps1 ++ ps2) st
    = (st1 <- emit_pages result ps1 st ;; emit_pages result ps2 st1).
Proof.
  induction ps1 as [|page ps1 IH]; intros st; simpl; auto.
  destruct (page_elements result page) as [els|e]; simpl; auto.
Qed.

End Pages.

(** C3: the rows of a processed document carry strictly increasing
    numbers, from 1 on, over all its pages taken together; the counter is
    handed from each page to the next and never starts again. *)
Theorem row_numbers_increase (S : Shapely) (F : FloatArith)
    (result : AnalyzeResult)
    (model : SheetModel) :
  analyze_spreadsheet_auto_merge result = Ok model ->
  (exists rws,
      sheets model = [{| name := "Sheet1"; rows := rws |}]
      /\ StronglySorted Z.lt (numbers rws)
      /\ Forall (fun n => 1 <= n) (numbers rws))
  /\ (forall ps1 ps2 st,
        emit_pages result (ps1 ++ ps2) st
        = (st1 <- emit_pages result ps1 st ;; emit_pages result ps2 st1)).
Proof.
  intros Hok. split; [|intros; apply emit_pages_app].
  unfold analyze_spreadsheet_auto_merge in Hok.
  destruct (emit_pages result (pages result) ([], 1)) as [st|e] eqn:Eemit;
    simpl in Hok; [|discriminate].
  injection Hok as <-. exists (fst st). simpl. split; auto.
  assert (Hinc : increasing st).
  { apply (emit_pages_increasing result (pages result) ([], 1)); auto.
    - split; simpl; constructor.
    - simpl. lia. }
  destruct Hinc as [Hs Hb]. split; auto.
  eapply Forall_impl; [|exact Hb]. simpl. intros k Hk. lia.
Qed.

Lemma row_numbers_increase_witness :
  exists rws,
    analyze_spreadsheet_auto_merge Samples.two_pages
    = Ok {| activeSheet := "Sheet1";
            sheets := [{| name := "Sheet1"; rows := rws |}] |}
    /\ numbers rws = [1; 2; 3; 5; 6]
    /\ StronglySorted Z.lt (numbers rws).
Proof.
  eexists. split; [vm_compute; reflexivity|]. split; [reflexivity|].
  match goal with
  | |- StronglySorted _ (numbers ?r) =>
      assert (Hok : analyze_spreadsheet_auto_merge Samples.two_pages
                    = Ok {| activeSheet := "Sheet1";
                            sheets := [{| name := "Sheet1"; rows := r |}] |})
        by (vm_compute; reflexivity)
  end.
  destruct (row_numbers_increase Rings Binary64 Samples.two_pages _ Hok)
    as [(rws & Hsheets & Hsorted & _) _].
  injection Hsheets as <-. exact Hsorted.
Defined.

(** C4, as the code has it: a band adds one row for each of its row
    indices, numbered from the counter on, and then moves the counter one
    further without adding a row; the row sequence gets no blank row, the
    number after the band's last row is left unused, and the next row
    emitted carries the number after that one. *)
Theorem band_leaves_gap (st : emit_state) (y : Q) (d : band_rows_t) :
  exists new,
    emit_element st (BandEl y d)
    = (fst st ++ new, snd st + Z.of_nat (List.length d) + 1)
    /\ List.length new = List.length d
    /\ numbers new = consecutive (snd st) (List.length d)
    /\ forall y' t,
         emit_element (emit_element st (BandEl y d)) (LineEl y' t)
         = ((fst st ++ new)
              ++ [{| cells := [{| value := t; enable := true; index := 1 |}];
                     row_number := snd st + Z.of_nat (List.length d) + 1 |}],
            snd st + Z.of_nat (List.length d) + 1 + 1).
Proof.
  destruct (emit_element_rows st (BandEl y d)) as (new & n & Heq & Hnum & ->).
  exists new. rewrite Heq. split; auto. split; [|split; auto].
  assert (Hlen : forall k m, List.length (consecutive k m) = m).
  { intros k m. revert k. induction m; simpl; auto. }
  unfold numbers in Hnum. rewrite <- (length_map row_number), Hnum. apply Hlen.
Qed.

(** C4 as the specification words it fails: a table with one row and a line
    below it give two rows, numbered 1 and 3, and no blank row between. *)
Lemma band_adds_no_blank_row :
  analyze_spreadsheet_auto_merge Samples.table_then_line
  = Ok {| activeSheet := "Sheet1";
          sheets :=
            [{| name := "Sheet1";
                rows :=
                  [{| cells := [{| value := "c"; enable := true; index := 1 |}];
                      row_number := 1 |};
                   {| cells := [{| value := "below"; enable := true; index := 1 |}];
                      row_number := 3 |}] |}] |}.
Proof. vm_compute. reflexivity. Qed.

End EmitFacts.

(** ** Free text and degenerate polygons *)

Lemma raises_bind {A B : Type} (m : res A) (k : A -> res B) :
  raises m -> raises (bind m k).
Proof. intros [e ->]. now exists e. Qed.

Lemma raises_bind_ok {A B : Type} (m : res A) (k : A -> res B) :
  (forall a, m = Ok a -> raises (k a)) -> raises (bind m k).
Proof.
  intros Hk. destruct m as [a|e]; simpl.
  - now apply Hk.
  - now exists e.
Qed.

Lemma Permutation_filter {X : Type} (f : X -> bool) (l l' : list X) :
  Permutation l l' -> Permutation (filter f l) (filter f l').
Proof.
  induction 1 as [|x l l' Hp IH|x y l|l l' l'' H1 IH1 H2 IH2]; simpl; auto.
  - destruct (f x); auto.
  - destruct (f x), (f y); auto. apply perm_swap.
  - now transitivity (filter f l').
Qed.

Module LineFacts.
Import SpreadsheetAnalysis.

Definition is_line (el : element) : bool :=
  match el with
  | LineEl _ _ => true
  | BandEl _ _ => false
  end.

(** The row a line of text becomes: one cell, with the text. *)
Definition text_row (t : string) : list SheetCell :=
  [{| value := t; enable := true; index := 1 |}].

(** The cells of the rows a layout element becomes: for a band, one row
    for each of its row indices, and for a line of text its one row. *)
Definition element_cells (el : element) : list (list SheetCell) :=
  match el with
  | BandEl _ d =>
      map (fun rc =>
             row_cells 0 (stable_sort (fun a b => col a <? col b) (snd rc)))
          (sorted_rows d)
  | LineEl _ t => [text_row t]
  end.

Lemma emit_band_rows_cells rws :
  forall st,
    map cells (fst (fold_left emit_band_row rws st))
    = map cells (fst st)
      ++ map (fun rc =>
                row_cells 0 (stable_sort (fun a b => col a <? col b) (snd rc)))
             rws.
Proof.
  induction rws as [|rc rws IH]; intros st; simpl.
  - now rewrite app_nil_r.
  - rewrite IH. unfold emit_band_row. simpl. rewrite map_app. simpl.
    now rewrite <- app_assoc.
Qed.

Lemma emit_element_cells st el :
  map cells (fst (emit_element st el)) = map cells (fst st) ++ element_cells el.
Proof.
  destruct el as [y d|y t]; simpl.
  - apply emit_band_rows_cells.
  - now rewrite map_app.
Qed.

Lemma emit_elements_cells els :
  forall st,
    map cells (fst (fold_left emit_element els st))
    = map cells (fst st) ++ flat_map element_cells els.
Proof.
  induction els as [|el els IH]; intros st; simpl.
  - now rewrite app_nil_r.
  - rewrite IH, emit_element_cells. now rewrite <- app_assoc.
Qed.

Lemma Forall2_in_right {A B : Type} (P Q : A -> B -> Prop) l1 l2 :
  Forall2 P l1 l2 ->
  (forall a b, In b l2 -> P a b -> Q a b) ->
  Forall2 Q l1 l2.
Proof.
  induction 1 as [|a b l1 l2 Hab HF IH]; intros Himp; constructor.
  - apply Himp; [now left | exact Hab].
  - apply IH. intros a' b' Hin. apply Himp. now right.
Qed.

Section Lines.
Context `{Shapely} `{FloatArith}.

(** What a line leaves in the layout of its page: nothing when its point
    is inside a table, else one text element at the height of its centroid. *)
Definition line_outcome (table_polys : list polygon_t) (line : DocumentLine)
  : list element :=
  match line_point line with
  | Ok pt =>
      if inside_a_table table_polys pt then []
      else [LineEl (snd pt) (PyStr.strip (line_content line))]
  | Raise _ => []
  end.

(** The lines of [page] in its layout [els] and in the rows [rws] of the
    sheet: every line has its point, the means of the x and of the y of its
    vertices; the text elements of the layout are, up to their order, what
    the lines leave; a line whose point is inside the polygon of a table
    of the page leaves nothing, and every other line leaves one element at
    the height of its centroid, which is a row of one cell in the sheet. *)
Definition page_lines (result : AnalyzeResult) (rws : list SheetRow)
    (page : DocumentPage) (els : list element) : Prop :=
  page_elements result page = Ok els
  /\ exists tbls,
       collect_tables (page_page_number page) (tables result) [] = Ok tbls
       /\ Permutation (filter is_line els)
            (flat_map (line_outcome (map poly tbls)) (lines page))
       /\ forall l, In l (lines page) ->
            exists pt,
              line_point l = Ok pt
              /\ mean (map fst (line_polygon l)) = Ok (fst pt)
              /\ mean (map snd (line_polygon l)) = Ok (snd pt)
              /\ (inside_a_table (map poly tbls) pt = true ->
                  line_outcome (map poly tbls) l = [])
              /\ (inside_a_table (map poly tbls) pt = false ->
                  line_outcome (map poly tbls) l
                  = [LineEl (snd pt) (PyStr.strip (line_content l))]
                  /\ In (LineEl (snd pt) (PyStr.strip (line_content l))) els
                  /\ In (text_row (PyStr.strip (line_content l)))
                       (map cells rws)).

Lemma line_elements_outcome table_polys ls :
  forall els,
    line_elements table_polys ls = Ok els ->
    els = flat_map (line_outcome table_polys) ls
    /\ Forall (fun l => exists pt, line_point l = Ok pt) ls.
Proof.
  induction ls as [|l ls IH]; intros els; simpl.
  - intros Heq. injection Heq as <-. auto.
  - unfold line_outcome at 1.
    destruct (line_point l) as [pt|e] eqn:Ept; simpl; [|discriminate].
    destruct (line_elements table_polys ls) as [els'|e]; simpl; [|discriminate].
    destruct (IH els' eq_refl) as [-> Hall].
    destruct (inside_a_table table_polys pt); simpl;
      intros Heq; injection Heq as <-;
      (split; [reflexivity | constructor; eauto]).
Qed.

Lemma line_outcome_lines table_polys ls :
  filter is_line (flat_map (line_outcome table_polys) ls)
  = flat_map (line_outcome table_polys) ls.
Proof.
  induction ls as [|l ls IH]; simpl; auto.
  rewrite filter_app, IH. f_equal. unfold line_outcome.
  destruct (line_point l) as [pt|e]; auto.
  destruct (inside_a_table table_polys pt); auto.
Qed.

Lemma band_elements_no_line bands :
  forall els, band_elements bands = Ok els -> filter is_line els = [].
Proof.
  induction bands as [|b bands IH]; intros els; simpl.
  - intros Heq. now injection Heq as <-.
  - unfold band_element.
    destruct (column_offsets _ 0) as [offs|e]; simpl; [|discriminate].
    destruct (band_elements bands) as [els'|e]; simpl; [|discriminate].
    intros Heq. injection Heq as <-. simpl. now apply IH.
Qed.

(** The point of a line is the mean of the x and the mean of the y of its
    vertices. *)
Lemma line_point_means line pt :
  line_point line = Ok pt <->
  mean (map fst (line_polygon line)) = Ok (fst pt)
  /\ mean (map snd (line_polygon line)) = Ok (snd pt).
Proof.
  unfold line_point.
  destruct (mean (map snd (line_polygon line))) as [cy|e]; simpl.
  - destruct (mean (map fst (line_polygon line))) as [cx|e]; simpl.
    + destruct pt as [px py]. simpl. split.
      * intros Heq. injection Heq as <- <-. auto.
      * intros [Hx Hy]. injection Hx as ->. injection Hy as ->. reflexivity.
    + split; [discriminate|]. intros [Hx _]. discriminate.
  - split; [discriminate|]. intros [_ Hy]. discriminate.
Qed.

(** The lines of a page in its layout. *)
Lemma page_elements_lines result page els :
  page_elements result page = Ok els ->
  exists tbls,
    collect_tables (page_page_number page) (tables result) [] = Ok tbls
    /\ Permutation (filter is_line els)
         (flat_map (line_outcome (map poly tbls)) (lines page))
    /\ (forall l, In l (lines page) ->
          exists pt,
            line_point l = Ok pt
            /\ mean (map fst (line_polygon l)) = Ok (fst pt)
            /\ mean (map snd (line_polygon l)) = Ok (snd pt)
            /\ (inside_a_table (map poly tbls) pt = true ->
                line_outcome (map poly tbls) l = [])
            /\ (inside_a_table (map poly tbls) pt = false ->
                line_outcome (map poly tbls) l
                = [LineEl (snd pt) (PyStr.strip (line_content l))]
                /\ In (LineEl (snd pt) (PyStr.strip (line_content l))) els)).
Proof.
  unfold page_elements. intros Hok.
  destruct (collect_tables _ _ _) as [tbls|e]; simpl in Hok; [|discriminate].
  destruct (band_elements (cluster tbls)) as [bands|e] eqn:Eb; simpl in Hok;
    [|discriminate].
  destruct (line_elements (map poly tbls) (lines page)) as [texts|e] eqn:El;
    simpl in Hok; [|discriminate].
  injection Hok as <-.
  destruct (line_elements_outcome _ _ _ El) as [-> Hpts].
  exists tbls. split; auto.
  assert (Hperm : Permutation
            (filter is_line
               (stable_sort (fun a b => Qlt_bool (element_y a) (element_y b))
                  (bands ++ flat_map (line_outcome (map poly tbls)) (lines page))))
            (flat_map (line_outcome (map poly tbls)) (lines page))).
  { rewrite (Permutation_filter is_line _ _ (stable_sort_perm _ _)).
    rewrite filter_app, (band_elements_no_line _ _ Eb), line_outcome_lines.
    reflexivity. }
  split; [exact Hperm|].
  intros l Hl. rewrite Forall_forall in Hpts.
  destruct (Hpts l Hl) as [pt Hpt]. exists pt.
  destruct (proj1 (line_point_means l pt) Hpt) as [Hx Hy].
  split; [exact Hpt|]. split; [exact Hx|]. split; [exact Hy|]. split.
  - intros Hin. unfold line_outcome. now rewrite Hpt, Hin.
  - intros Hout.
    assert (Hline : line_outcome (map poly tbls) l
                    = [LineEl (snd pt) (PyStr.strip (line_content l))]).
    { unfold line_outcome. now rewrite Hpt, Hout. }
    split; [exact Hline|].
    apply (Permutation_in _ (Permutation_sym (stable_sort_perm _ _))).
    apply in_or_app. right. apply in_flat_map. exists l. split; auto.
    rewrite Hline. now left.
Qed.

(** The rows the pages add to the sheet are the rows of their layout
    elements, page after page. *)
Lemma emit_pages_cells result ps :
  forall st st',
    emit_pages result ps st = Ok st' ->
    exists layouts,
      Forall2 (fun page els => page_elements result page = Ok els) ps layouts
      /\ map cells (fst st')
         = map cells (fst st) ++ flat_map element_cells (concat layouts).
Proof.
  induction ps as [|page ps IH]; intros st st'; simpl.
  - intros Heq. injection Heq as <-. exists []. simpl.
    rewrite app_nil_r. split; [constructor | reflexivity].
  - destruct (page_elements result page) as [els|e] eqn:Ep; simpl;
      [|discriminate].
    intros Hok. destruct (IH _ _ Hok) as (layouts & HF & Hcells).
    exists (els :: layouts). split; [constructor; auto|].
    rewrite Hcells, emit_elements_cells. simpl.
    now rewrite flat_map_app, <- app_assoc.
Qed.

End Lines.

(** C7: in a document that is reconstructed, the rows of the sheet are the
    rows of the layout elements of its pages, page after page, and on
    every page every line has its point (the means of the x and of the y
    of its vertices, as float arithmetic gives them); the text elements of
    the page are, up to their order, what its lines leave: nothing for a
    line whose point is inside the polygon of a table of the page, and for
    every other line one element at the height of its centroid, which is
    a row of its own in the sheet, with the trimmed text of the line in
    its one cell. *)
Theorem lines_outside_tables_kept (S : Shapely) (F : FloatArith)
    (result : AnalyzeResult) (model : SheetModel) :
  analyze_spreadsheet_auto_merge result = Ok model ->
  exists rws layouts,
    sheets model = [{| name := "Sheet1"; rows := rws |}]
    /\ map cells rws = flat_map element_cells (concat layouts)
    /\ Forall2 (page_lines result rws) (pages result) layouts.
Proof.
  unfold analyze_spreadsheet_auto_merge. intros Hok.
  destruct (emit_pages result (pages result) ([], 1)) as [st|e] eqn:Eemit;
    simpl in Hok; [|discriminate].
  injection Hok as <-.
  destruct (emit_pages_cells result (pages result) _ _ Eemit)
    as (layouts & HF & Hcells).
  simpl in Hcells. exists (fst st), layouts.
  split; [reflexivity|]. split; [exact Hcells|].
  apply (Forall2_in_right _ _ _ _ HF). intros page els Hin Hels.
  split; [exact Hels|].
  destruct (page_elements_lines result page els Hels)
    as (tbls & Htbls & Hperm & Hlines).
  exists tbls. split; [exact Htbls|]. split; [exact Hperm|].
  intros l Hl. destruct (Hlines l Hl) as (pt & Hpt & Hx & Hy & Hinside & Hout).
  exists pt. split; [exact Hpt|]. split; [exact Hx|]. split; [exact Hy|].
  split; [exact Hinside|].
  intros Hno. destruct (Hout Hno) as [Hline Hel].
  split; [exact Hline|]. split; [exact Hel|].
  rewrite Hcells. apply in_flat_map.
  exists (LineEl (snd pt) (PyStr.strip (line_content l))). split.
  - apply in_concat. exists els. split; assumption.
  - simpl. now left.
Qed.

Lemma lines_outside_tables_kept_witness :
  exists rws layouts,
    [Samples.two_pages_sheet] = [{| name := "Sheet1"; rows := rws |}]
    /\ map cells rws = flat_map element_cells (concat layouts)
    /\ Forall2 (page_lines Samples.two_pages rws) (pages Samples.two_pages)
         layouts.
Proof.
  apply (lines_outside_tables_kept Rings Binary64 Samples.two_pages
           {| activeSheet := "Sheet1"; sheets := [Samples.two_pages_sheet] |}).
  vm_compute. reflexivity.
Defined.

(** The rounding of the two means decides: the exact mean of the three
    vertices of [edge_line] is above the upper edge of [edge_table], and
    the mean of binary64 arithmetic is below it, inside the table; the
    line is dropped, and the sheet has the row of the table alone. *)
Lemma rounded_mean_decides :
  (Qlt_bool ((Samples.tenth + Samples.fifth + Samples.three_tenths) / 3)
     Samples.fifth = true)%Q
  /\ line_point Samples.edge_line
     = Ok (5 # 1, 7205759403792795 # 36028797018963968)%Q
  /\ page_elements Samples.edge_document Samples.edge_page
     = Ok [BandEl Samples.fifth [(0, [{| col := 0; text := "t" |}])]]
  /\ analyze_spreadsheet_auto_merge Samples.edge_document
     = Ok {| activeSheet := "Sheet1";
             sheets :=
               [{| name := "Sheet1";
                   rows := [{| cells := text_row "t"; row_number := 1 |}] |}] |}.
Proof. repeat split; vm_compute; reflexivity. Qed.

End LineFacts.

Module DegenerateFacts.
Import SpreadsheetAnalysis.

Section Degenerate.
Context `{Shapely} `{FloatArith}.

(** The polygon library refuses a ring of one or two vertices. *)
Definition refuses_short_rings : Prop :=
  forall coords : list point,
    (0 < List.length coords < 3)%nat -> raises (Polygon coords).

(** [tbl] lies on page [page_no] and its polygon has fewer than three
    vertices. *)
Definition degenerate_table (page_no : Z) (tbl : DocumentTable) : Prop :=
  exists region rest,
    bounding_regions tbl = region :: rest
    /\ page_number region = page_no
    /\ (List.length (polygon region) < 3)%nat.

Lemma collect_tables_raises page_no tbl tbls :
  refuses_short_rings ->
  In tbl tbls -> degenerate_table page_no tbl ->
  forall acc, raises (collect_tables page_no tbls acc).
Proof.
  intros Hshort Hin (region & rest & Hreg & Hpage & Hlen).
  induction tbls as [|t tbls IH]; [destruct Hin|]. intros acc. simpl.
  destruct Hin as [->|Hin].
  - rewrite Hreg, Hpage, Z.eqb_refl. simpl.
    destruct (polygon region) as [|v vs] eqn:Ecoords.
    + apply raises_bind_ok. intros p _. simpl. now exists ValueError.
    + apply raises_bind. apply Hshort. simpl in *. lia.
  - destruct (bounding_regions t) as [|r rs]; [now exists IndexError|].
    destruct (negb (page_number r =? page_no)); [now apply IH|].
    repeat (apply raises_bind_ok; intros ? _). now apply IH.
Qed.

Lemma line_elements_raises table_polys l ls :
  In l ls -> line_polygon l = [] -> raises (line_elements table_polys ls).
Proof.
  intros Hin Hempty. induction ls as [|l' ls IH]; [destruct Hin|]. simpl.
  destruct Hin as [->|Hin].
  - apply raises_bind. unfold line_point. rewrite Hempty. simpl.
    now exists ZeroDivisionError.
  - apply raises_bind_ok. intros pt _. now apply raises_bind, IH.
Qed.

Lemma emit_pages_raises result page ps :
  In page ps -> raises (page_elements result page) ->
  forall st, raises (emit_pages result ps st).
Proof.
  intros Hin Hraise. induction ps as [|p ps IH]; [destruct Hin|].
  intros st. simpl. destruct Hin as [->|Hin].
  - now apply raises_bind.
  - apply raises_bind_ok. intros els _. now apply IH.
Qed.

End Degenerate.

(** C8, as the code has it: there is no skipping.  A table of some page
    whose polygon has fewer than three vertices, given that the polygon
    library refuses rings of one or two vertices, and a line whose polygon
    is empty, each make the reconstruction raise, so that the document
    gives no sheet at all. *)
Theorem degenerate_polygon_raises (S : Shapely) (F : FloatArith)
    (result : AnalyzeResult)
    (page : DocumentPage) :
  refuses_short_rings ->
  In page (pages result) ->
  (exists tbl, In tbl (tables result)
               /\ degenerate_table (page_page_number page) tbl)
  \/ (exists l, In l (lines page) /\ line_polygon l = []) ->
  raises (analyze_spreadsheet_auto_merge result).
Proof.
  intros Hshort Hpage Hbad. unfold analyze_spreadsheet_auto_merge.
  apply raises_bind. apply (emit_pages_raises result page); auto.
  unfold page_elements. destruct Hbad as [(tbl & Hin & Hdeg)|(l & Hin & Hempty)].
  - apply raises_bind. now apply (collect_tables_raises _ tbl).
  - apply raises_bind_ok. intros tbls _.
    apply raises_bind_ok. intros bands _.
    apply raises_bind. now apply (line_elements_raises _ l).
Qed.

Lemma rings_refuse_short_rings : refuses_short_rings (H := Rings).
Proof.
  intros coords Hlen. destruct coords as [|a [|b [|c coords]]]; simpl in Hlen;
    try lia; now exists ValueError.
Qed.

Lemma degenerate_polygon_raises_witness :
  raises (analyze_spreadsheet_auto_merge Samples.with_flat_table)
  /\ raises (analyze_spreadsheet_auto_merge Samples.with_empty_line).
Proof.
  split.
  - apply (degenerate_polygon_raises Rings Binary64 Samples.with_flat_table
             Samples.first_page rings_refuse_short_rings).
    + simpl. auto.
    + left. exists Samples.flat_table. split; [simpl; auto|].
      eexists _, _. split; [reflexivity|]. split; [reflexivity|]. simpl. lia.
  - apply (degenerate_polygon_raises Rings Binary64 Samples.with_empty_line
             {| page_page_number := 1;
                lines := [Samples.below_line; Samples.empty_line] |}
             rings_refuse_short_rings).
    + simpl. auto.
    + right. exists Samples.empty_line. split; [simpl; auto | reflexivity].
Defined.

(** C8 as the specification words it fails: a document with a table of two
    vertices, and one with a line of no vertex, give no sheet; their other
    tables, lines and pages are lost with them.  A line of two vertices is
    not skipped either: it is the first row of its document. *)
Lemma degenerate_polygon_aborts :
  analyze_spreadsheet_auto_merge Samples.with_flat_table = Raise ValueError
  /\ analyze_spreadsheet_auto_merge Samples.with_empty_line
     = Raise ZeroDivisionError
  /\ List.length (line_polygon Samples.above_line) = 2%nat
  /\ (match analyze_spreadsheet_auto_merge Samples.two_pages with
      | Ok model => map (fun sh => map cells (firstn 1 (rows sh))) (sheets model)
      | Raise _ => []
      end)
     = [[[{| value := "above"; enable := true; index := 1 |}]]].
Proof. repeat split; vm_compute; reflexivity. Qed.

End DegenerateFacts.

(** ** The topic resolver *)

Module ResolverFacts.
Import Actions Difflib.

(** The last of [keys] whose cleaned form is [nk]. *)
Fixpoint last_clean (nk : string) (keys : list string) : option string :=
  match keys with
  | [] => None
  | k :: ks =>
      match last_clean nk ks with
      | Some k' => Some k'
      | None => if String.eqb (clean_topic_key k) nk then Some k else None
      end
  end.

Lemma cleaned_fold_get nk keys :
  forall d0,
    dict_get nk (fold_left (fun d k => dict_set (clean_topic_key k) k d) keys d0)
    = match last_clean nk keys with
      | Some k => Some k
      | None => dict_get nk d0
      end.
Proof.
  induction keys as [|k ks IH]; intros d0; simpl; auto.
  rewrite IH. destruct (last_clean nk ks); auto.
  destruct (String.eqb_spec (clean_topic_key k) nk) as [<-|Hne].
  - apply dict_get_set_same.
  - apply dict_get_set_other. congruence.
Qed.

Lemma cleaned_get nk keys : dict_get nk (cleaned_of keys) = last_clean nk keys.
Proof.
  unfold cleaned_of. rewrite cleaned_fold_get.
  now destruct (last_clean nk keys).
Qed.

Lemma last_clean_some nk keys k :
  last_clean nk keys = Some k ->
  clean_topic_key k = nk
  /\ exists pre post,
       keys = pre ++ k :: post
       /\ forall k', In k' post -> clean_topic_key k' <> nk.
Proof.
  revert k. induction keys as [|k0 ks IH]; intros k; simpl; [discriminate|].
  destruct (last_clean nk ks) as [k'|] eqn:El.
  - intros Heq. injection Heq as <-.
    destruct (IH k' eq_refl) as (Hc & pre & post & -> & Hpost).
    split; auto. exists (k0 :: pre), post. auto.
  - destruct (String.eqb_spec (clean_topic_key k0) nk) as [Hc|Hne]; [|discriminate].
    intros Heq. injection Heq as <-. split; auto.
    exists [], ks. split; auto.
    clear IH. induction ks as [|k1 ks IH']; [intros ? []|].
    simpl in El. destruct (last_clean nk ks); [discriminate|].
    destruct (String.eqb_spec (clean_topic_key k1) nk); [discriminate|].
    intros k' [<-|Hin]; auto.
Qed.

Lemma last_clean_none nk keys :
  last_clean nk keys = None <->
  forall k, In k keys -> clean_topic_key k <> nk.
Proof.
  induction keys as [|k0 ks IH]; simpl.
  - split; [intros _ k [] | reflexivity].
  - destruct (last_clean nk ks) as [k'|].
    + split; [discriminate|]. intros Hall.
      apply IH. intros k Hk. apply Hall. auto.
    + destruct (String.eqb_spec (clean_topic_key k0) nk) as [Hc|Hne].
      * split; [discriminate|]. intros Hall. destruct (Hall k0); auto.
      * split; auto. intros _ k [<-|Hin]; auto. now apply IH.
Qed.

Lemma last_clean_split nk pre k post :
  clean_topic_key k = nk ->
  (forall k', In k' post -> clean_topic_key k' <> nk) ->
  last_clean nk (pre ++ k :: post) = Some k.
Proof.
  intros Hc Hpost. induction pre as [|p pre IH]; simpl.
  - rewrite (proj2 (last_clean_none nk post) Hpost).
    subst nk. now rewrite String.eqb_refl.
  - now rewrite IH.
Qed.

Lemma in_cleaned_keys nk keys :
  In nk (dict_keys (cleaned_of keys)) <->
  exists k, In k keys /\ clean_topic_key k = nk.
Proof.
  split.
  - intros Hin. destruct (dict_get_in_keys nk _ Hin) as [k Hk].
    rewrite cleaned_get in Hk. destruct (last_clean_some _ _ _ Hk)
      as (Hc & pre & post & -> & _).
    exists k. split; auto. apply in_or_app. simpl. auto.
  - intros (k & Hin & Hc).
    destruct (last_clean nk keys) as [k'|] eqn:El.
    + rewrite <- cleaned_get in El. eapply dict_get_some_in_keys; eauto.
    + destruct (proj1 (last_clean_none nk keys) El k Hin Hc).
Qed.

Section Matches.
Context `{SequenceMatcher}.

Lemma scored_in word possibilities c t :
  In t (scored word possibilities c) <->
  In (snd t) possibilities /\ fst t = ratio (snd t) word
  /\ Qle_bool c (ratio (snd t) word) = true.
Proof.
  unfold scored. rewrite in_flat_map. split.
  - intros (x & Hx & Hin).
    destruct (Qle_bool c (ratio x word)) eqn:E; [|destruct Hin].
    destruct Hin as [<-|[]]. simpl. auto.
  - intros (Hin & Hfst & Hle). exists (snd t). split; auto.
    rewrite Hle. left. destruct t; simpl in *. now subst.
Qed.

Lemma tuple_gt_le t best :
  (fst (if tuple_gt t best then t else best) >= fst best)%Q
  /\ (fst (if tuple_gt t best then t else best) >= fst t)%Q.
Proof.
  unfold tuple_gt, Qge.
  destruct (Qle_bool (fst t) (fst best)) eqn:Ele; simpl.
  - apply Qle_bool_iff in Ele.
    destruct (Qeq_bool (fst t) (fst best) && String.ltb (snd best) (snd t)) eqn:E.
    + apply andb_true_iff in E as [Eeq _]. apply Qeq_bool_iff in Eeq.
      split; [|apply Qle_refl]. apply Qle_lteq. right. now symmetry.
    + split; [apply Qle_refl | exact Ele].
  - split; [|apply Qle_refl].
    apply Qlt_le_weak, Qnot_le_lt. intro Hle.
    apply Qle_bool_iff in Hle. congruence.
Qed.

(** [max] gives an element of the sequence, no score above its own. *)
Lemma max_tuple_spec ts :
  forall t,
    In (max_tuple t ts) (t :: ts)
    /\ forall u, In u (t :: ts) -> (fst u <= fst (max_tuple t ts))%Q.
Proof.
  unfold max_tuple. induction ts as [|t' ts IH]; intros t; simpl.
  - split; auto. intros u [<-|[]]. apply Qle_refl.
  - destruct (IH (if tuple_gt t' t then t' else t)) as [Hin Hmax].
    destruct (tuple_gt_le t' t) as [Hbest Ht'].
    split.
    + destruct Hin as [Heq|Hin]; auto.
      rewrite <- Heq. destruct (tuple_gt t' t); auto.
    + intros u [<-|[<-|Hu]].
      * eapply Qle_trans; [exact Hbest|]. apply Hmax. simpl. auto.
      * eapply Qle_trans; [exact Ht'|]. apply Hmax. simpl. auto.
      * apply Hmax. simpl. auto.
Qed.

Lemma get_close_matches_nil word possibilities c :
  get_close_matches word possibilities c = [] <->
  forall x, In x possibilities -> (ratio x word < c)%Q.
Proof.
  unfold get_close_matches.
  destruct (scored word possibilities c) as [|t ts] eqn:Es.
  - split; auto. intros _ x Hx. apply Qnot_le_lt. intro Hle.
    apply Qle_bool_iff in Hle.
    assert (Hin : In (ratio x word, x) (scored word possibilities c)).
    { apply scored_in. simpl. auto. }
    rewrite Es in Hin. destruct Hin.
  - split; [discriminate|]. intros Hall.
    assert (Hin : In t (scored word possibilities c)) by (rewrite Es; simpl; auto).
    apply scored_in in Hin as (Hin & _ & Hle). apply Qle_bool_iff in Hle.
    destruct (Qlt_not_le _ _ (Hall _ Hin) Hle).
Qed.

Lemma get_close_matches_best word possibilities c m rest :
  get_close_matches word possibilities c = m :: rest ->
  rest = [] /\ In m possibilities /\ (c <= ratio m word)%Q
  /\ forall x, In x possibilities -> (ratio x word <= ratio m word)%Q.
Proof.
  unfold get_close_matches.
  destruct (scored word possibilities c) as [|t ts] eqn:Es; [discriminate|].
  intros Heq. injection Heq as <- <-.
  destruct (max_tuple_spec ts t) as [Hin Hmax]. rewrite <- Es in Hin.
  apply scored_in in Hin as (Hin & Hfst & Hle). apply Qle_bool_iff in Hle.
  repeat split; auto.
  intros x Hx. destruct (Qle_bool c (ratio x word)) eqn:E.
  - assert (Hs : In (ratio x word, x) (scored word possibilities c)).
    { apply scored_in. simpl. auto. }
    rewrite Es in Hs. specialize (Hmax _ Hs). simpl in Hmax.
    now rewrite Hfst in Hmax.
  - eapply Qle_trans; [|exact Hle].
    apply Qlt_le_weak, Qnot_le_lt. intro Hc.
    apply Qle_bool_iff in Hc. congruence.
Qed.

End Matches.

End ResolverFacts.

Module ResolverClaims.
Import Actions Difflib ResolverFacts.

Section Resolution.
Context `{SequenceMatcher}.

(** How the query is normalized: case folded and trimmed, no more. *)
Definition query_key (topic : string) : string :=
  PyStr.strip (PyStr.lower topic).

(** A raw title found through its cleaned form is a key of the index. *)
Lemma last_clean_lookup nk (topic_map : dict ExtractToc.page_span) real :
  last_clean nk (dict_keys topic_map) = Some real ->
  In real (dict_keys topic_map)
  /\ clean_topic_key real = nk
  /\ exists span, subscript topic_map real = Ok span
                  /\ dict_get real topic_map = Some span.
Proof.
  intros Hl. destruct (last_clean_some _ _ _ Hl) as (Hc & pre & post & Hkeys & _).
  assert (Hin : In real (dict_keys topic_map)).
  { rewrite Hkeys. apply in_or_app. simpl. auto. }
  repeat split; auto.
  destruct (dict_get_in_keys real topic_map Hin) as [span Hspan].
  exists span. unfold subscript. now rewrite Hspan.
Qed.

(** An exact match on the cleaned form decides the answer. *)
Lemma by_topic_exact topic topic_map real :
  last_clean (query_key topic) (dict_keys topic_map) = Some real ->
  exists span,
    by_topic topic topic_map = Ok (Resolved real span)
    /\ dict_get real topic_map = Some span.
Proof.
  intros Hl. destruct (last_clean_lookup _ _ _ Hl) as (_ & _ & span & Hsub & Hget).
  exists span. split; auto. unfold by_topic. fold (query_key topic).
  unfold dict_mem, subscript at 1. rewrite cleaned_get, Hl. simpl.
  now rewrite Hsub.
Qed.

(** Without an exact match the closest cleaned form decides it. *)
Lemma by_topic_fuzzy topic topic_map :
  last_clean (query_key topic) (dict_keys topic_map) = None ->
  (by_topic topic topic_map = Ok TopicNotFound
   /\ forall k, In k (dict_keys topic_map) ->
        (ratio (clean_topic_key k) (query_key topic) < cutoff)%Q)
  \/ exists real span,
       by_topic topic topic_map = Ok (Resolved real span)
       /\ In real (dict_keys topic_map)
       /\ dict_get real topic_map = Some span
       /\ last_clean (clean_topic_key real) (dict_keys topic_map) = Some real
       /\ (cutoff <= ratio (clean_topic_key real) (query_key topic))%Q
       /\ forall k, In k (dict_keys topic_map) ->
            (ratio (clean_topic_key k) (query_key topic)
             <= ratio (clean_topic_key real) (query_key topic))%Q.
Proof.
  intros Hl. unfold by_topic. fold (query_key topic).
  unfold dict_mem. rewrite cleaned_get, Hl.
  destruct (get_close_matches (query_key topic)
              (dict_keys (cleaned_of (dict_keys topic_map))) cutoff)
    as [|m rest] eqn:Em.
  - left. split; auto. intros k Hk.
    apply (proj1 (get_close_matches_nil _ _ _) Em).
    apply in_cleaned_keys. eauto.
  - right.
    destruct (get_close_matches_best _ _ _ _ _ Em) as (_ & Hin & Hcut & Hbest).
    destruct (dict_get_in_keys m _ Hin) as [real Hreal].
    pose proof Hreal as Hlast. rewrite cleaned_get in Hlast.
    destruct (last_clean_lookup _ _ _ Hlast) as (Hkey & Hc & span & Hsub & Hget).
    exists real, span. unfold subscript at 1. rewrite Hreal. simpl. rewrite Hsub.
    subst m. repeat split; auto.
    intros k Hk. apply Hbest. apply in_cleaned_keys. eauto.
Qed.

(** Whatever [by_topic] resolves to is the last key of its cleaned form. *)
Lemma by_topic_resolved_last topic topic_map real span :
  by_topic topic topic_map = Ok (Resolved real span) ->
  last_clean (clean_topic_key real) (dict_keys topic_map) = Some real.
Proof.
  intros Hres.
  destruct (last_clean (query_key topic) (dict_keys topic_map)) as [r|] eqn:El.
  - destruct (by_topic_exact _ _ _ El) as (span' & Heq & _).
    rewrite Heq in Hres. injection Hres as <- <-.
    destruct (last_clean_some _ _ _ El) as [Hc _]. now rewrite Hc.
  - destruct (by_topic_fuzzy _ _ El)
      as [[Heq _]|(r & span' & Heq & _ & _ & Hlast & _)];
      rewrite Heq in Hres; [discriminate|].
    now injection Hres as <- <-.
Qed.

End Resolution.

(** C5, as the code has it: every raw key is normalized by taking off a
    leading heading prefix, trimming and case folding; the query is only
    case folded and trimmed, its heading prefix stays.  If the normalized
    query equals the normalized form of some key, a key of that form is
    returned with its range; otherwise the key whose normalized form has
    the highest similarity to the query is returned if that ratio is at
    least 0.6, and the topic is reported not found if no ratio reaches
    0.6. *)
Theorem by_topic_resolution (M : SequenceMatcher) (topic : string)
    (topic_map : dict ExtractToc.page_span) :
  let tl := PyStr.strip (PyStr.lower topic) in
  let keys := dict_keys topic_map in
  ((exists k, In k keys /\ clean_topic_key k = tl) ->
   exists real span,
     by_topic topic topic_map = Ok (Resolved real span)
     /\ In real keys /\ clean_topic_key real = tl
     /\ dict_get real topic_map = Some span)
  /\ ((forall k, In k keys -> clean_topic_key k <> tl) ->
      (by_topic topic topic_map = Ok TopicNotFound
       /\ forall k, In k keys -> (ratio (clean_topic_key k) tl < cutoff)%Q)
      \/ exists real span,
           by_topic topic topic_map = Ok (Resolved real span)
           /\ In real keys
           /\ dict_get real topic_map = Some span
           /\ (cutoff <= ratio (clean_topic_key real) tl)%Q
           /\ forall k, In k keys ->
                (ratio (clean_topic_key k) tl
                 <= ratio (clean_topic_key real) tl)%Q).
Proof.
  intros tl keys. split.
  - intros (k & Hk & Hc).
    destruct (last_clean tl keys) as [real|] eqn:El.
    + destruct (by_topic_exact topic topic_map real El) as (span & Heq & Hget).
      destruct (last_clean_lookup _ _ _ El) as (Hin & Hcr & _).
      exists real, span. auto.
    + destruct (proj1 (last_clean_none tl keys) El k Hk Hc).
  - intros Hnone. apply last_clean_none in Hnone.
    destruct (by_topic_fuzzy topic topic_map Hnone)
      as [Hnf|(real & span & Heq & Hin & Hget & _ & Hcut & Hbest)].
    + now left.
    + right. exists real, span. auto.
Qed.

Definition one_topic : dict ExtractToc.page_span :=
  [("2.3 Data Collection", (5, Some 7))].

Lemma by_topic_resolution_witness :
  clean_topic_key "2.3 Data Collection" = "data collection"
  /\ by_topic "Data Collection " one_topic
     = Ok (Resolved "2.3 Data Collection" (5, Some 7))
  /\ by_topic "dat colection" one_topic
     = Ok (Resolved "2.3 Data Collection" (5, Some 7))
  /\ by_topic "quantum entanglement" one_topic = Ok TopicNotFound
  /\ exists real span,
       by_topic "data collection" one_topic = Ok (Resolved real span)
       /\ clean_topic_key real = "data collection".
Proof.
  repeat (split; [vm_compute; reflexivity|]).
  destruct (proj1 (by_topic_resolution RatcliffObershelp "data collection"
                     one_topic))
    as (real & span & Heq & _ & Hc & _).
  - exists "2.3 Data Collection". split; [simpl; auto | vm_compute; reflexivity].
  - exists real, span. split; [exact Heq | exact Hc].
Defined.

(** Two titles of an index, and a query written like the first of them. *)
Definition numbered_topics : dict ExtractToc.page_span :=
  [("1 a", (1, Some 2)); ("1 1 a", (3, Some 4))].

(** C5 as the specification words it fails: the query ["1 a"] and the key
    ["1 a"] are not normalized alike; the key becomes ["a"], the query
    stays ["1 a"], which is the normalized form of the other key, and it is
    that other key the resolver returns.  With the first key alone in the
    index, the same query finds nothing. *)
Lemma query_keeps_heading_prefix :
  clean_topic_key "1 a" = "a"
  /\ PyStr.strip (PyStr.lower "1 a") = "1 a"
  /\ clean_topic_key "1 1 a" = "1 a"
  /\ by_topic "1 a" numbered_topics = Ok (Resolved "1 1 a" (3, Some 4))
  /\ by_topic "1 a" [("1 a", (1, Some 2))] = Ok TopicNotFound.
Proof. repeat split; vm_compute; reflexivity. Qed.

(** C10: when several raw titles of the index have the same normalized
    form, a query whose normalized form is that one is resolved to the
    last of them in the order of the index; and no query at all is
    resolved to a title that a later title shares its normalized form
    with. *)
Theorem later_title_wins (M : SequenceMatcher) (topic : string)
    (topic_map : dict ExtractToc.page_span) (pre post : list string)
    (k2 : string) :
  NoDup (dict_keys topic_map) ->
  dict_keys topic_map = pre ++ k2 :: post ->
  clean_topic_key k2 = PyStr.strip (PyStr.lower topic) ->
  (forall k, In k post -> clean_topic_key k <> clean_topic_key k2) ->
  (exists span,
      by_topic topic topic_map = Ok (Resolved k2 span)
      /\ dict_get k2 topic_map = Some span)
  /\ forall k1 topic' span',
       In k1 pre -> clean_topic_key k1 = clean_topic_key k2 ->
       by_topic topic' topic_map <> Ok (Resolved k1 span').
Proof.
  intros Hnodup Hkeys Hc Hpost.
  assert (Hlast : last_clean (clean_topic_key k2) (dict_keys topic_map) = Some k2).
  { rewrite Hkeys. now apply last_clean_split. }
  split.
  - apply by_topic_exact. unfold query_key. now rewrite <- Hc.
  - intros k1 topic' span' Hk1 Hc1 Hres.
    apply by_topic_resolved_last in Hres.
    rewrite Hc1, Hlast in Hres. injection Hres as ->.
    rewrite Hkeys in Hnodup. apply NoDup_remove_2 in Hnodup.
    apply Hnodup. apply in_or_app. auto.
Qed.

Definition shared_form : dict ExtractToc.page_span :=
  [("1 Intro", (1, Some 3)); ("Methods", (4, Some 6)); ("2 intro", (7, None))].

Lemma later_title_wins_witness :
  (exists span,
      by_topic " INTRO" shared_form = Ok (Resolved "2 intro" span)
      /\ dict_get "2 intro" shared_form = Some span)
  /\ by_topic "1 intro" shared_form <> Ok (Resolved "1 Intro" (1, Some 3)).
Proof.
  destruct (later_title_wins RatcliffObershelp " INTRO" shared_form
              ["1 Intro"; "Methods"] [] "2 intro") as [Hwin Hlost].
  - simpl. repeat constructor; simpl; intuition discriminate.
  - reflexivity.
  - vm_compute. reflexivity.
  - intros k [].
  - split; [exact Hwin|].
    apply Hlost; [simpl; auto | vm_compute; reflexivity].
Defined.

End ResolverClaims.

(** * Further properties of the code *)

(** ** The topic index as a dictionary *)

Module TopicIndexInvariants.
Import ExtractToc.

Section DictKeys.
Context {V : Type}.

Lemma dict_set_keys (k : string) (v : V) (d : dict V) :
  dict_keys (dict_set k v d)
  = if existsb (String.eqb k) (dict_keys d) then dict_keys d
    else dict_keys d ++ [k].
Proof.
  induction d as [|[k' v'] d IH]; simpl; auto.
  rewrite (String.eqb_sym k k').
  destruct (String.eqb k' k) eqn:E; simpl; auto.
  rewrite IH. now destruct (existsb (String.eqb k) (dict_keys d)).
Qed.

Lemma existsb_eqb_in (k : string) (l : list string) :
  existsb (String.eqb k) l = true <-> In k l.
Proof.
  rewrite existsb_exists. split.
  - intros (x & Hx & E). apply String.eqb_eq in E. now subst.
  - intros Hin. exists k. split; auto. apply String.eqb_refl.
Qed.

Lemma dict_set_in_keys (k k0 : string) (v : V) (d : dict V) :
  In k0 (dict_keys (dict_set k v d)) <-> k0 = k \/ In k0 (dict_keys d).
Proof.
  rewrite dict_set_keys.
  destruct (existsb (String.eqb k) (dict_keys d)) eqn:E.
  - apply existsb_eqb_in in E. split; auto. intros [->|]; auto.
  - rewrite in_app_iff. simpl. intuition congruence.
Qed.

Lemma dict_set_nodup (k : string) (v : V) (d : dict V) :
  NoDup (dict_keys d) -> NoDup (dict_keys (dict_set k v d)).
Proof.
  intros Hnd. rewrite dict_set_keys.
  destruct (existsb (String.eqb k) (dict_keys d)) eqn:E; auto.
  apply NoDup_app; auto.
  - repeat constructor. simpl. tauto.
  - intros x Hx [<-|[]].
    apply existsb_eqb_in in Hx. congruence.
Qed.

(** What [dict_set] leaves under a key: the new value or the old one. *)
Lemma dict_get_set (k k0 : string) (v v0 : V) (d : dict V) :
  dict_get k0 (dict_set k v d) = Some v0 ->
  v0 = v \/ dict_get k0 d = Some v0.
Proof.
  destruct (String.eqb_spec k0 k) as [->|Hne].
  - rewrite dict_get_set_same. intros Heq. injection Heq as <-. now left.
  - rewrite dict_get_set_other by assumption. now right.
Qed.

End DictKeys.

Lemma build_topic_loop_keys entries todo :
  forall idx topic_map,
    (NoDup (dict_keys topic_map) ->
     NoDup (dict_keys (build_topic_loop entries idx todo topic_map)))
    /\ forall t,
         In t (dict_keys (build_topic_loop entries idx todo topic_map))
         <-> In t (dict_keys topic_map) \/ In t (map fst todo).
Proof.
  induction todo as [|[title start] todo IH]; intros idx topic_map; simpl.
  - split; auto. intros t. tauto.
  - destruct (IH (idx + 1)%nat
                (dict_set title
                   (start,
                    entry_end
                      (if (idx + 1 <? List.length entries)%nat
                       then option_map snd (nth_error entries (idx + 1))
                       else None) start) topic_map)) as [Hnd Hin].
    split.
    + intros H0. apply Hnd. now apply dict_set_nodup.
    + intros t. rewrite Hin, dict_set_in_keys. intuition congruence.
Qed.

(** X1: the index has one key for each title of the entries, however often
    a title occurs, and no other key. *)
Theorem build_topic_map_keys (entries : list (string * Z)) :
  NoDup (dict_keys (build_topic_map entries))
  /\ (forall t, In t (dict_keys (build_topic_map entries))
                <-> In t (map fst entries))
  /\ (List.length (build_topic_map entries) <= List.length entries)%nat.
Proof.
  destruct (build_topic_loop_keys entries entries 0%nat []) as [Hnd Hin].
  unfold build_topic_map.
  assert (Hnodup : NoDup (dict_keys (build_topic_loop entries 0 entries [])))
    by (apply Hnd; constructor).
  split; [exact Hnodup|]. split.
  - intros t. rewrite Hin. simpl. tauto.
  - rewrite <- (length_map fst (build_topic_loop entries 0 entries [])).
    rewrite <- (length_map fst entries).
    apply NoDup_incl_length; auto.
    intros t Ht. apply Hin in Ht. simpl in Ht. tauto.
Qed.

(** The ranges a loop run leaves in the map are the ones it found there
    and ranges [good] holds of. *)
Lemma build_topic_loop_values entries (good : page_span -> Prop) todo :
  (forall start nxt, good (start, entry_end nxt start)) ->
  forall idx topic_map,
    (forall t v, dict_get t topic_map = Some v -> good v) ->
    forall t v,
      dict_get t (build_topic_loop entries idx todo topic_map) = Some v ->
      good v.
Proof.
  intros Hgood. induction todo as [|[title start] todo IH];
    intros idx topic_map Hmap t v; simpl.
  - apply Hmap.
  - apply IH. intros t' v' Hget.
    destruct (dict_get_set _ _ _ _ _ Hget) as [->|Hold]; eauto.
Qed.

(** X2: a range of the index that has an end has it at or after its start,
    and never at page 0. *)
Theorem build_topic_map_range_ordered (entries : list (string * Z))
    (title : string) (s e : Z) :
  dict_get title (build_topic_map entries) = Some (s, Some e) ->
  s <= e /\ e <> 0.
Proof.
  intros Hget.
  assert (Hgood : forall start nxt,
             match snd (start, entry_end nxt start) with
             | Some e' => fst (start, entry_end nxt start) <= e' /\ e' <> 0
             | None => True
             end).
  { intros start [n|]; simpl; [|exact I].
    destruct (Z.eqb_spec n 0); simpl; [exact I|].
    destruct (Z.geb_spec n start); simpl; [|exact I]. split; [lia|assumption]. }
  apply (build_topic_loop_values entries
           (fun v => match snd v with
                     | Some e' => fst v <= e' /\ e' <> 0
                     | None => True
                     end) entries Hgood 0%nat [] ) in Hget.
  - exact Hget.
  - intros t v Hnone. discriminate Hnone.
Qed.

Lemma build_topic_map_range_ordered_witness :
  dict_get "Methods" (build_topic_map TopicIndexFacts.example_entries)
  = Some (5, Some 9)
  /\ 5 <= 9 /\ 9 <> 0.
Proof.
  split; [reflexivity|].
  apply (build_topic_map_range_ordered TopicIndexFacts.example_entries
           "Methods" 5 9).
  reflexivity.
Defined.

End TopicIndexInvariants.

(** ** Trimming and case folding *)

Module PyStrCanonical.
Import PyStr.

Lemma lower_char_space c : isspace (lower_char c) = isspace c.
Proof.
  destruct c as [[] [] [] [] [] [] [] []]; reflexivity.
Qed.

Lemma lower_char_idem c : lower_char (lower_char c) = lower_char c.
Proof.
  destruct c as [[] [] [] [] [] [] [] []]; reflexivity.
Qed.

Lemma lower_idem s : lower (lower s) = lower s.
Proof.
  induction s as [|c r IH]; simpl; auto.
  now rewrite lower_char_idem, IH.
Qed.

Lemma lstrip_lower s : lstrip (lower s) = lower (lstrip s).
Proof.
  induction s as [|c r IH]; simpl; auto.
  rewrite lower_char_space. now destruct (isspace c).
Qed.

Lemma rstrip_lower s : rstrip (lower s) = lower (rstrip s).
Proof.
  induction s as [|c r IH]; simpl; auto.
  rewrite IH. destruct (rstrip r); simpl; auto.
  rewrite lower_char_space. now destruct (isspace c).
Qed.

Lemma strip_lower s : strip (lower s) = lower (strip s).
Proof. unfold strip. now rewrite lstrip_lower, rstrip_lower. Qed.

(** The first character of a string, if it has one, is no whitespace. *)
Definition starts_solid (s : string) : Prop :=
  match s with
  | EmptyString => True
  | String c _ => isspace c = false
  end.

Lemma lstrip_solid s : starts_solid (lstrip s).
Proof.
  induction s as [|c r IH]; simpl; auto.
  destruct (isspace c) eqn:E; simpl; auto.
Qed.

Lemma lstrip_of_solid s : starts_solid s -> lstrip s = s.
Proof.
  destruct s as [|c r]; simpl; auto. intros ->. reflexivity.
Qed.

Lemma rstrip_solid s : starts_solid s -> starts_solid (rstrip s).
Proof.
  destruct s as [|c r]; simpl; auto. intros Hc.
  destruct (rstrip r); simpl; auto. now rewrite Hc.
Qed.

Lemma rstrip_idem s : rstrip (rstrip s) = rstrip s.
Proof.
  induction s as [|c r IH]; simpl; auto.
  destruct (rstrip r) as [|d r'] eqn:E.
  - destruct (isspace c) eqn:Ec; simpl; auto. now rewrite Ec.
  - simpl in IH. simpl.
    destruct (match rstrip r' with
              | EmptyString =>
                  if isspace d then EmptyString else String d EmptyString
              | String a s0 => String d (String a s0)
              end) eqn:E'; [discriminate IH|].
    now rewrite IH.
Qed.

Lemma strip_idem s : strip (strip s) = strip s.
Proof.
  unfold strip.
  rewrite (lstrip_of_solid (rstrip (lstrip s)))
    by apply rstrip_solid, lstrip_solid.
  apply rstrip_idem.
Qed.

End PyStrCanonical.

(** ** Resolving a topic: what cannot go wrong *)

Module ResolverExtras.
Import Actions Difflib ResolverFacts ResolverClaims PyStrCanonical.

(** X3: [by_topic] never raises: neither of its dictionary lookups can
    miss.  It reports the topic not found, as it always does on an empty
    index, or resolves it to a key of the index with the range stored
    under that key. *)
Theorem by_topic_never_raises (M : SequenceMatcher) (topic : string)
    (topic_map : dict ExtractToc.page_span) :
  (by_topic topic topic_map = Ok TopicNotFound
   \/ exists real span,
        by_topic topic topic_map = Ok (Resolved real span)
        /\ dict_get real topic_map = Some span)
  /\ by_topic topic [] = Ok TopicNotFound.
Proof.
  split; [|reflexivity].
  destruct (last_clean (query_key topic) (dict_keys topic_map))
    as [real|] eqn:El.
  - right. destruct (by_topic_exact topic topic_map real El) as (span & Heq & Hget).
    eauto.
  - destruct (by_topic_fuzzy topic topic_map El)
      as [[Heq _]|(real & span & Heq & _ & Hget & _)]; [now left|right; eauto].
Qed.

(** The cleaned form of a key is trimmed and in lower case already. *)
Lemma clean_topic_key_canonical key :
  PyStr.strip (PyStr.lower (clean_topic_key key)) = clean_topic_key key.
Proof.
  unfold clean_topic_key. now rewrite lower_idem, strip_lower, strip_idem.
Qed.

(** X4: asking for a title of the index by its cleaned form, the title
    without heading number, trimmed and in lower case, resolves to a title
    with that cleaned form and to the range stored for it; it is the title
    itself when no other title of the index has that cleaned form. *)
Theorem cleaned_title_resolves (M : SequenceMatcher)
    (topic_map : dict ExtractToc.page_span) (k : string) :
  In k (dict_keys topic_map) ->
  exists real span,
    by_topic (clean_topic_key k) topic_map = Ok (Resolved real span)
    /\ clean_topic_key real = clean_topic_key k
    /\ dict_get real topic_map = Some span
    /\ ((forall k', In k' (dict_keys topic_map) ->
           clean_topic_key k' = clean_topic_key k -> k' = k) ->
        real = k).
Proof.
  intros Hin.
  destruct (last_clean (clean_topic_key k) (dict_keys topic_map))
    as [real|] eqn:El.
  - destruct (last_clean_lookup _ _ _ El) as (Hreal & Hc & _).
    destruct (by_topic_exact (clean_topic_key k) topic_map real) as (span & Heq & Hget).
    { unfold query_key. now rewrite clean_topic_key_canonical. }
    exists real, span. repeat split; auto.
  - destruct (proj1 (last_clean_none _ _) El k Hin eq_refl).
Qed.

Lemma cleaned_title_resolves_witness :
  exists real span,
    by_topic "intro" shared_form = Ok (Resolved real span)
    /\ clean_topic_key real = "intro"
    /\ dict_get real shared_form = Some span.
Proof.
  destruct (cleaned_title_resolves RatcliffObershelp shared_form "1 Intro")
    as (real & span & Heq & Hc & Hget & _).
  - simpl. auto.
  - exists real, span. repeat split; assumption.
Defined.

End ResolverExtras.

(** ** The page-range parser: counts and blanks *)

Module PageRangeExtras.
Import PyStr PyStrFacts Actions PageRangeFacts.

(** The number of occurrences of a character. *)
Fixpoint count_char (sep : ascii) (s : string) : nat :=
  match s with
  | EmptyString => O
  | String c r => (if Ascii.eqb c sep then 1 else 0) + count_char sep r
  end.

Lemma split_length sep s :
  List.length (split sep s) = S (count_char sep s).
Proof.
  induction s as [|c r IH]; simpl; auto.
  destruct (Ascii.eqb c sep); simpl.
  - now rewrite IH.
  - destruct (split sep r); simpl in *; [discriminate IH | exact IH].
Qed.

(** X5: a page query that parses gives exactly one range more than it has
    commas; in particular never an empty list. *)
Theorem parse_page_query_count (q : string) (rs : list (Z * Z)) :
  parse_page_query q = Ok rs ->
  List.length rs = S (count_char "," q).
Proof.
  unfold parse_page_query. intros Hok.
  apply parse_parts_ok in Hok as (rs' & -> & HF). simpl.
  rewrite <- (Forall2_length HF). apply split_length.
Qed.

Lemma parse_page_query_count_witness :
  List.length [(2, 2); (4, 4); (6, 8)] = S (count_char "," "2,4,6-8").
Proof.
  apply (parse_page_query_count "2,4,6-8" [(2, 2); (4, 4); (6, 8)]).
  reflexivity.
Defined.

Lemma parse_part_blank tok :
  strip tok = EmptyString -> parse_part tok = Raise ValueError.
Proof. intros Hb. unfold parse_part. rewrite Hb. reflexivity. Qed.

(** X6: a page query with a blank token, one that is empty or made of
    whitespace, raises [ValueError]: so do the empty query, a query that
    ends in a comma and one with two commas in a row. *)
Theorem parse_page_query_blank_token (q tok : string) :
  In tok (split "," q) -> strip tok = EmptyString ->
  parse_page_query q = Raise ValueError.
Proof.
  intros Hin Hb. unfold parse_page_query. apply parse_parts_raise.
  exists tok. split; auto. now rewrite parse_part_blank.
Qed.

Lemma parse_page_query_blank_token_witness :
  parse_page_query "" = Raise ValueError
  /\ parse_page_query "5," = Raise ValueError
  /\ parse_page_query "2,, 4" = Raise ValueError.
Proof.
  split; [|split].
  - apply (parse_page_query_blank_token "" ""); [simpl; auto | reflexivity].
  - apply (parse_page_query_blank_token "5," ""); [simpl; auto | reflexivity].
  - apply (parse_page_query_blank_token "2,, 4" ""); [simpl; auto | reflexivity].
Defined.

End PageRangeExtras.

(** ** Tables and bands: what clustering keeps *)

Module LayoutInvariants.
Import SpreadsheetAnalysis BandFacts.

(** [min] and [max] of a sequence of rationals bound its elements and are
    among them. *)
Lemma fold_min_spec (l : list Q) :
  forall x,
    let m := fold_left (fun m y => if Qlt_bool y m then y else m) l x in
    In m (x :: l) /\ forall v, In v (x :: l) -> (m <= v)%Q.
Proof.
  induction l as [|y l IH]; intros x; simpl.
  - split; auto. intros v [Hv|[]]. subst v. apply Qle_refl.
  - destruct (IH (if Qlt_bool y x then y else x)) as [Hin Hle].
    split.
    + destruct Hin as [Heq|Hin]; auto.
      rewrite <- Heq. destruct (Qlt_bool y x); auto.
    + intros v [Hv|[Hv|Hv]]; [subst v | subst v | apply Hle; simpl; auto].
      * eapply Qle_trans; [apply Hle; simpl; auto|].
        destruct (Qlt_bool y x) eqn:E; [|apply Qle_refl].
        apply Qlt_bool_iff in E. now apply Qlt_le_weak.
      * eapply Qle_trans; [apply Hle; simpl; auto|].
        destruct (Qlt_bool y x) eqn:E; [apply Qle_refl|].
        now apply Qlt_bool_false_iff in E.
Qed.

Lemma fold_max_spec (l : list Q) :
  forall x,
    let m := fold_left (fun m y => if Qlt_bool m y then y else m) l x in
    In m (x :: l) /\ forall v, In v (x :: l) -> (v <= m)%Q.
Proof.
  induction l as [|y l IH]; intros x; simpl.
  - split; auto. intros v [Hv|[]]. subst v. apply Qle_refl.
  - destruct (IH (if Qlt_bool x y then y else x)) as [Hin Hle].
    split.
    + destruct Hin as [Heq|Hin]; auto.
      rewrite <- Heq. destruct (Qlt_bool x y); auto.
    + intros v [Hv|[Hv|Hv]]; [subst v | subst v | apply Hle; simpl; auto].
      * eapply Qle_trans; [|apply Hle; simpl; auto].
        destruct (Qlt_bool x y) eqn:E; [|apply Qle_refl].
        apply Qlt_bool_iff in E. now apply Qlt_le_weak.
      * eapply Qle_trans; [|apply Hle; simpl; auto].
        destruct (Qlt_bool x y) eqn:E; [apply Qle_refl|].
        now apply Qlt_bool_false_iff in E.
Qed.

Lemma py_min_spec (l : list Q) (m : Q) :
  py_min Qlt_bool l = Ok m -> In m l /\ forall v, In v l -> (m <= v)%Q.
Proof.
  destruct l as [|x l]; simpl; [discriminate|].
  intros Heq. injection Heq as <-. apply fold_min_spec.
Qed.

Lemma py_max_spec (l : list Q) (m : Q) :
  py_max Qlt_bool l = Ok m -> In m l /\ forall v, In v l -> (v <= m)%Q.
Proof.
  destruct l as [|x l]; simpl; [discriminate|].
  intros Heq. injection Heq as <-. apply fold_max_spec.
Qed.

(** [tbl] lies on page [page_no]. *)
Definition on_page (page_no : Z) (tbl : DocumentTable) : bool :=
  match bounding_regions tbl with
  | region :: _ => page_number region =? page_no
  | [] => false
  end.

Section Tables.
Context `{Shapely} `{FloatArith}.

(** The extent recorded for a table bounds the vertices of its polygon. *)
Definition bounds_polygon (t : table_info) : Prop :=
  (ymin t <= ymax t)%Q
  /\ forall region rest x y,
       bounding_regions (table t) = region :: rest ->
       In (x, y) (polygon region) ->
       (xmin t <= x)%Q /\ (ymin t <= y)%Q /\ (y <= ymax t)%Q.

Lemma collect_tables_spec page_no tbls :
  forall acc infos,
    collect_tables page_no tbls acc = Ok infos ->
    exists new,
      infos = acc ++ new
      /\ map table new = filter (on_page page_no) tbls
      /\ Forall bounds_polygon new.
Proof.
  induction tbls as [|tbl tbls IH]; intros acc infos; simpl.
  - intros Heq. injection Heq as <-. exists []. rewrite app_nil_r. auto.
  - unfold on_page at 1.
    destruct (bounding_regions tbl) as [|region rest] eqn:Ereg; [discriminate|].
    destruct (page_number region =? page_no); simpl.
    + destruct (Polygon (polygon region)) as [p|e]; simpl; [|discriminate].
      destruct (py_min Qlt_bool (map snd (polygon region))) as [lo|e] eqn:Elo;
        simpl; [|discriminate].
      destruct (py_max Qlt_bool (map snd (polygon region))) as [hi|e] eqn:Ehi;
        simpl; [|discriminate].
      destruct (py_min Qlt_bool (map fst (polygon region))) as [left|e] eqn:Ex;
        simpl; [|discriminate].
      intros Hok. destruct (IH _ _ Hok) as (new & -> & Hmap & Hall).
      eexists (_ :: new). rewrite <- app_assoc. split; [reflexivity|].
      split; [simpl; now rewrite Hmap|].
      constructor; auto.
      destruct (py_min_spec _ _ Elo) as [Hlo_in Hlo].
      destruct (py_max_spec _ _ Ehi) as [_ Hhi].
      destruct (py_min_spec _ _ Ex) as [_ Hx].
      split; simpl.
      * now apply Hhi.
      * intros region' rest' x y Hreg Hin. rewrite Ereg in Hreg.
        injection Hreg as <- <-.
        split; [|split].
        -- apply Hx. now apply (in_map fst) in Hin.
        -- apply Hlo. now apply (in_map snd) in Hin.
        -- apply Hhi. now apply (in_map snd) in Hin.
    + apply IH.
Qed.

(** X7: when the tables of a page are collected, they are the tables of
    the document that lie on that page, in the order of the document, and
    the extent recorded for each bounds every vertex of its polygon, with
    [ymin] not above [ymax]. *)
Theorem collect_tables_of_page (page_no : Z) (tbls : list DocumentTable)
    (infos : list table_info) :
  collect_tables page_no tbls [] = Ok infos ->
  map table infos = filter (on_page page_no) tbls
  /\ Forall bounds_polygon infos.
Proof.
  intros Hok. destruct (collect_tables_spec _ _ _ _ Hok) as (new & -> & Hmap & Hall).
  auto.
Qed.

(** *** Bands *)

(** A band is made of at least one table, its interval covers each of its
    tables, and both of its ends are ends of tables of it. *)
Definition band_hull (b : band) : Prop :=
  band_tables b <> []
  /\ (forall t, In t (band_tables b) -> covers b t)
  /\ (exists t, In t (band_tables b) /\ band_ymin b = ymin t)
  /\ (exists t, In t (band_tables b) /\ band_ymax b = ymax t).

(** The tables of all bands, band after band. *)
Definition all_tables (bands : list band) : list table_info :=
  concat (map band_tables bands).

Lemma new_band_hull t : (ymin t <= ymax t)%Q -> band_hull (new_band t).
Proof.
  intros Hle. unfold band_hull, new_band, covers. simpl.
  split; [discriminate|]. split.
  - intros u [<-|[]]. split; apply Qle_refl.
  - split; exists t; auto.
Qed.

Lemma join_hull t b : band_hull b -> band_hull (join t b).
Proof.
  intros (Hne & Hcov & (tlo & Hlo_in & Hlo) & (thi & Hhi_in & Hhi)).
  unfold band_hull, join, covers. simpl. split.
  { intro Heq. apply app_eq_nil in Heq as [_ Heq]. discriminate. }
  split.
  { intros u Hu. apply in_app_or in Hu as [Hu|[<-|[]]].
    - destruct (Hcov u Hu) as [H1 H2]. split.
      + eapply Qle_trans; [apply min2_le_l | exact H1].
      + eapply Qle_trans; [exact H2 | apply max2_ge_l].
    - split; [apply min2_le_r | apply max2_ge_r]. }
  split.
  - unfold min2. destruct (Qlt_bool (ymin t) (band_ymin b)).
    + exists t. split; auto. apply in_or_app. simpl. auto.
    + exists tlo. split; auto. apply in_or_app. auto.
  - unfold max2. destruct (Qlt_bool (band_ymax b) (ymax t)).
    + exists t. split; auto. apply in_or_app. simpl. auto.
    + exists thi. split; auto. apply in_or_app. auto.
Qed.

Lemma place_spec t bands bands' :
  place t bands = Some bands' ->
  Permutation (all_tables bands') (t :: all_tables bands)
  /\ (Forall band_hull bands -> Forall band_hull bands')
  /\ List.length bands' = List.length bands.
Proof.
  revert bands'. induction bands as [|b bs IH]; intros bands'; simpl;
    [discriminate|].
  destruct (overlaps t b).
  - intros Heq. injection Heq as <-. unfold all_tables. simpl.
    split; [|split; auto].
    + rewrite <- app_assoc. simpl.
      apply Permutation_sym, Permutation_middle.
    + intros Hall. inversion Hall; subst. constructor; auto.
      now apply join_hull.
  - destruct (place t bs) as [bs'|]; simpl; [|discriminate].
    intros Heq. injection Heq as <-.
    destruct (IH bs' eq_refl) as (Hperm & Hhull & Hlen).
    unfold all_tables in *. simpl. split; [|split].
    + rewrite Hperm. apply Permutation_sym, Permutation_middle.
    + intros Hall. inversion Hall; subst. constructor; auto.
    + now rewrite Hlen.
Qed.

Lemma cluster_step_spec bands t :
  (ymin t <= ymax t)%Q ->
  Permutation (all_tables (cluster_step bands t)) (t :: all_tables bands)
  /\ (Forall band_hull bands -> Forall band_hull (cluster_step bands t)).
Proof.
  intros Hle. unfold cluster_step.
  destruct (place t bands) as [bands'|] eqn:Ep.
  - destruct (place_spec _ _ _ Ep) as (Hperm & Hhull & _). auto.
  - split.
    + unfold all_tables. rewrite map_app, concat_app. simpl.
      apply Permutation_sym, Permutation_cons_append.
    + intros Hall. apply Forall_app. split; auto.
      constructor; auto. now apply new_band_hull.
Qed.

Lemma fold_cluster_spec tbls :
  Forall (fun t => (ymin t <= ymax t)%Q) tbls ->
  forall bands,
    Permutation (all_tables (fold_left cluster_step tbls bands))
      (all_tables bands ++ tbls)
    /\ (Forall band_hull bands ->
        Forall band_hull (fold_left cluster_step tbls bands)).
Proof.
  induction 1 as [|t tbls Ht Hall IH]; intros bands; simpl.
  - rewrite app_nil_r. auto.
  - destruct (IH (cluster_step bands t)) as [Hperm Hhull].
    destruct (cluster_step_spec bands t Ht) as [Hperm1 Hhull1].
    split; auto.
    rewrite Hperm, Hperm1. simpl. apply Permutation_middle.
Qed.

(** X8: clustering loses no table and repeats none: the tables of the
    bands, taken together, are the tables it was given. *)
Theorem cluster_keeps_tables (tbls : list table_info) :
  Forall (fun t => (ymin t <= ymax t)%Q) tbls ->
  Permutation (all_tables (cluster tbls)) tbls
  /\ (List.length (cluster tbls) <= List.length tbls)%nat.
Proof.
  intros Hall. destruct (fold_cluster_spec tbls Hall []) as [Hperm0 Hhull].
  assert (Hperm : Permutation (all_tables (cluster tbls)) tbls) by exact Hperm0.
  split; [exact Hperm|].
  assert (Hne : Forall band_hull (cluster tbls)) by (apply Hhull; constructor).
  rewrite <- (Permutation_length Hperm).
  clear Hperm Hperm0 Hhull. unfold all_tables.
  induction (cluster tbls) as [|b bs IH]; simpl; [lia|].
  inversion Hne as [|? ? (Hb & _) Hbs]; subst.
  rewrite length_app. specialize (IH Hbs).
  destruct (band_tables b); [congruence|simpl; lia].
Qed.

(** X9: every band holds at least one table, its interval covers the
    extent of each of its tables, and each end of the interval is the end
    of one of them: the interval is the hull of the band's tables. *)
Theorem cluster_band_hull (tbls : list table_info) :
  Forall (fun t => (ymin t <= ymax t)%Q) tbls ->
  Forall band_hull (cluster tbls).
Proof.
  intros Hall. destruct (fold_cluster_spec tbls Hall []) as [_ Hhull].
  apply Hhull. constructor.
Qed.

End Tables.

End LayoutInvariants.

Module LayoutEdgeCases.
Import SpreadsheetAnalysis BandFacts LayoutInvariants DegenerateFacts.

(** The two tables of the first sample page with their geometry. *)
Definition right_info : table_info (H := Rings) :=
  {| table := Samples.right_table; poly := Samples.rect 20 5 30 15;
     ymin := inject_Z 5; ymax := inject_Z 15; xmin := inject_Z 20 |}.

Definition left_info : table_info (H := Rings) :=
  {| table := Samples.left_table; poly := Samples.rect 0 0 10 10;
     ymin := inject_Z 0; ymax := inject_Z 10; xmin := inject_Z 0 |}.

Lemma collect_tables_of_page_witness :
  map table [right_info; left_info]
  = filter (on_page 1) (tables Samples.two_pages)
  /\ Forall bounds_polygon [right_info; left_info].
Proof.
  apply (collect_tables_of_page 1 (tables Samples.two_pages)
           [right_info; left_info]).
  reflexivity.
Defined.

Lemma sample_extents :
  Forall (fun t : table_info (H := Rings) => (ymin t <= ymax t)%Q)
    [right_info; left_info].
Proof. repeat constructor; unfold Qle; simpl; lia. Qed.

Lemma cluster_keeps_tables_witness :
  Permutation (all_tables (cluster [right_info; left_info]))
    [right_info; left_info]
  /\ (List.length (cluster [right_info; left_info]) <= 2)%nat.
Proof.
  apply (cluster_keeps_tables [right_info; left_info] sample_extents).
Defined.

Lemma cluster_band_hull_witness :
  Forall band_hull (cluster [right_info; left_info]).
Proof.
  apply (cluster_band_hull [right_info; left_info] sample_extents).
Defined.

Section Malformed.
Context `{Shapely} `{FloatArith}.

Lemma column_offsets_raises t tbls :
  In t tbls -> table_cells (table t) = [] ->
  forall cum, raises (column_offsets tbls cum).
Proof.
  intros Hin Hempty. induction tbls as [|u tbls IH]; [destruct Hin|].
  intros cum. simpl. destruct Hin as [->|Hin].
  - apply raises_bind. rewrite Hempty. simpl. now exists ValueError.
  - apply raises_bind_ok. intros m _. apply raises_bind. now apply IH.
Qed.

Lemma band_element_raises t b :
  In t (band_tables b) -> table_cells (table t) = [] ->
  raises (band_element b).
Proof.
  intros Hin Hempty. unfold band_element. apply raises_bind.
  apply (column_offsets_raises t); auto.
  apply (Permutation_in _ (Permutation_sym (stable_sort_perm _ _))). exact Hin.
Qed.

Lemma band_elements_raises b bands :
  In b bands -> raises (band_element b) -> raises (band_elements bands).
Proof.
  intros Hin Hraise. induction bands as [|b' bands IH]; [destruct Hin|].
  simpl. destruct Hin as [->|Hin].
  - now apply raises_bind.
  - apply raises_bind_ok. intros el _. now apply raises_bind, IH.
Qed.

Lemma in_all_tables t bands :
  In t (all_tables bands) -> exists b, In b bands /\ In t (band_tables b).
Proof.
  unfold all_tables. rewrite in_concat. intros (l & Hl & Ht).
  apply in_map_iff in Hl as (b & <- & Hb). eauto.
Qed.

Lemma collect_tables_no_region page_no tbl tbls :
  In tbl tbls -> bounding_regions tbl = [] ->
  forall acc, raises (collect_tables page_no tbls acc).
Proof.
  intros Hin Hnone. induction tbls as [|t tbls IH]; [destruct Hin|].
  intros acc. simpl. destruct Hin as [->|Hin].
  - rewrite Hnone. now exists IndexError.
  - destruct (bounding_regions t) as [|r rs]; [now exists IndexError|].
    destruct (negb (page_number r =? page_no)); [now apply IH|].
    repeat (apply raises_bind_ok; intros ? _). now apply IH.
Qed.

Lemma page_elements_no_cells result page tbl :
  In tbl (tables result) ->
  on_page (page_page_number page) tbl = true ->
  table_cells tbl = [] ->
  raises (page_elements result page).
Proof.
  intros Hin Hpage Hempty. unfold page_elements.
  apply raises_bind_ok. intros infos Hinfos.
  destruct (collect_tables_spec _ _ _ _ Hinfos) as (new & -> & Hmap & Hbounds).
  simpl.
  assert (Hfilter : In tbl (map table new)).
  { rewrite Hmap. apply filter_In. auto. }
  apply in_map_iff in Hfilter as (t & Ht & Htin).
  assert (Hext : Forall (fun t => (ymin t <= ymax t)%Q) new).
  { eapply Forall_impl; [|exact Hbounds]. intros u Hu. apply Hu. }
  destruct (fold_cluster_spec new Hext []) as [Hperm _].
  destruct (in_all_tables t (cluster new)) as (b & Hb & Htb).
  { apply (Permutation_in _ (Permutation_sym Hperm)). exact Htin. }
  apply raises_bind. apply (band_elements_raises b); auto.
  apply (band_element_raises t); auto. now rewrite Ht.
Qed.

End Malformed.

(** X10: a table that has no cell and lies on a page of the document, and
    a table that has no bounding region in a document with at least one
    page, each make the reconstruction raise: the document gives no sheet,
    whatever else it holds. *)
Theorem malformed_table_raises (S : Shapely) (F : FloatArith)
    (result : AnalyzeResult)
    (page : DocumentPage) (tbl : DocumentTable) :
  In page (pages result) ->
  In tbl (tables result) ->
  (on_page (page_page_number page) tbl = true /\ table_cells tbl = [])
  \/ bounding_regions tbl = [] ->
  raises (analyze_spreadsheet_auto_merge result).
Proof.
  intros Hpage Htbl Hbad. unfold analyze_spreadsheet_auto_merge.
  apply raises_bind. apply (emit_pages_raises result page); auto.
  destruct Hbad as [[Hon Hempty]|Hnone].
  - now apply (page_elements_no_cells result page tbl).
  - unfold page_elements. apply raises_bind.
    now apply (collect_tables_no_region _ tbl).
Qed.

(** A table with an outline and no cell, and one with no outline. *)
Definition hollow_table : DocumentTable :=
  Samples.table_on 1 (Samples.rect 0 50 10 60) [].
Definition stray_table : DocumentTable :=
  {| bounding_regions := []; table_cells := [Samples.cell 0 0 "s"] |}.

Lemma malformed_table_raises_witness :
  raises (analyze_spreadsheet_auto_merge
            {| pages := [Samples.first_page];
               tables := [Samples.left_table; hollow_table] |})
  /\ raises (analyze_spreadsheet_auto_merge
               {| pages := [Samples.second_page];
                  tables := [Samples.left_table; stray_table] |}).
Proof.
  split.
  - apply (malformed_table_raises Rings Binary64 _ Samples.first_page hollow_table).
    + simpl. auto.
    + simpl. auto.
    + left. split; reflexivity.
  - apply (malformed_table_raises Rings Binary64 _ Samples.second_page stray_table).
    + simpl. auto.
    + simpl. auto.
    + right. reflexivity.
Defined.

End LayoutEdgeCases.

(** ** Reading order and the cells of a row *)

Section SortedFacts.
Context {X : Type} (lt : X -> X -> bool) (le : X -> X -> Prop).
Hypothesis lt_true : forall a b, lt a b = true -> le a b.
Hypothesis lt_false : forall a b, lt a b = false -> le b a.

Lemma insert_sorted_hd x y l :
  le y x -> HdRel le y l -> HdRel le y (insert_sorted lt x l).
Proof.
  intros Hyx Hhd. destruct l as [|z l]; simpl.
  - now constructor.
  - destruct (lt z x); constructor; auto. now inversion Hhd.
Qed.

Lemma insert_sorted_sorted x l :
  Sorted le l -> Sorted le (insert_sorted lt x l).
Proof.
  induction l as [|y l IH]; simpl; intros Hs.
  - repeat constructor.
  - inversion Hs as [|? ? Hl Hhd]; subst.
    destruct (lt y x) eqn:E.
    + constructor; auto. apply insert_sorted_hd; auto.
    + constructor; auto.
Qed.

Lemma stable_sort_sorted l : Sorted le (stable_sort lt l).
Proof.
  induction l as [|x l IH]; simpl; [constructor|].
  now apply insert_sorted_sorted.
Qed.

End SortedFacts.

Module ReadingOrder.
Import SpreadsheetAnalysis EmitFacts.

(** [a] is not below [b] on the page. *)
Definition not_below (a b : element) : Prop :=
  (element_y a <= element_y b)%Q.

(** X11: the layout elements of a page come from top to bottom: none is
    followed, however far behind, by one with a smaller [y]. *)
Theorem page_elements_top_to_bottom (S : Shapely) (F : FloatArith)
    (result : AnalyzeResult)
    (page : DocumentPage) (els : list element) :
  page_elements result page = Ok els -> StronglySorted not_below els.
Proof.
  unfold page_elements. intros Hok.
  destruct (collect_tables _ _ _) as [tbls|e]; simpl in Hok; [|discriminate].
  destruct (band_elements (cluster tbls)) as [bands|e]; simpl in Hok;
    [|discriminate].
  destruct (line_elements (map poly tbls) (lines page)) as [texts|e];
    simpl in Hok; [|discriminate].
  injection Hok as <-.
  apply Sorted_StronglySorted.
  - intros a b c Hab Hbc. unfold not_below in *. eapply Qle_trans; eauto.
  - apply stable_sort_sorted.
    + intros a b Hlt. apply Qlt_bool_iff in Hlt. now apply Qlt_le_weak.
    + intros a b Hlt. now apply Qlt_bool_false_iff in Hlt.
Qed.

Lemma page_elements_top_to_bottom_witness :
  StronglySorted not_below Samples.first_page_elements.
Proof.
  apply (page_elements_top_to_bottom Rings Binary64 Samples.two_pages
           Samples.first_page Samples.first_page_elements).
  vm_compute. reflexivity.
Defined.

(** *** Rows of a band *)

(** The rows of a band element have distinct row indices and at least one
    cell each. *)
Definition rows_ok (d : band_rows_t) : Prop :=
  NoDup (map fst d) /\ Forall (fun rc => snd rc <> []) d.

Definition element_ok (el : element) : Prop :=
  match el with
  | BandEl _ d => rows_ok d
  | LineEl _ _ => True
  end.

Lemma setdefault_append_keys r c d :
  (forall k, In k (map fst (setdefault_append r c d))
             <-> k = r \/ In k (map fst d))
  /\ (NoDup (map fst d) -> NoDup (map fst (setdefault_append r c d)))
  /\ (Forall (fun rc => snd rc <> []) d ->
      Forall (fun rc => snd rc <> []) (setdefault_append r c d)).
Proof.
  induction d as [|[r' cs] d IH]; simpl.
  - split; [intros k; intuition congruence|]. split.
    + intros _. repeat constructor. simpl. tauto.
    + intros _. repeat constructor. simpl. discriminate.
  - destruct IH as (Hin & Hnd & Hne).
    destruct (Z.eqb_spec r' r) as [->|Hneq]; simpl.
    + split; [intros k; intuition congruence|]. split; auto.
      intros Hall. inversion Hall; subst. constructor; auto.
      simpl. intro Heq. apply app_eq_nil in Heq as [_ Heq]. discriminate.
    + split; [intros k; rewrite Hin; intuition congruence|]. split.
      * intros Hd. inversion Hd as [|? ? Hnotin Hd']; subst.
        constructor; auto. rewrite Hin. intuition congruence.
      * intros Hall. inversion Hall; subst. constructor; auto.
Qed.

Lemma setdefault_append_ok r c d : rows_ok d -> rows_ok (setdefault_append r c d).
Proof.
  intros [Hnd Hne]. destruct (setdefault_append_keys r c d) as (_ & H1 & H2).
  split; auto.
Qed.

Lemma add_cell_ok off cell d : rows_ok d -> rows_ok (add_cell off d cell).
Proof.
  unfold add_cell. generalize (range (span_of cell)). intros l. revert d.
  induction l as [|i l IH]; simpl; auto.
  intros d Hd. apply IH. now apply setdefault_append_ok.
Qed.

Section Bands.
Context `{Shapely} `{FloatArith}.

Lemma add_table_ok d t_off : rows_ok d -> rows_ok (add_table d t_off).
Proof.
  unfold add_table. generalize (table_cells (table (fst t_off))). intros l.
  revert d. induction l as [|c l IH]; simpl; auto.
  intros d Hd. apply IH. now apply add_cell_ok.
Qed.

Lemma band_elements_ok bands :
  forall els, band_elements bands = Ok els -> Forall element_ok els.
Proof.
  induction bands as [|b bands IH]; intros els; simpl.
  - intros Heq. injection Heq as <-. constructor.
  - unfold band_element.
    destruct (column_offsets _ 0) as [offs|e]; simpl; [|discriminate].
    destruct (band_elements bands) as [els'|e]; simpl; [|discriminate].
    intros Heq. injection Heq as <-. constructor; auto. simpl.
    generalize (combine
                  (stable_sort (fun t u => Qlt_bool (xmin t) (xmin u))
                     (band_tables b)) offs).
    intros l. assert (Hnil : rows_ok []) by (split; constructor).
    revert Hnil. generalize (@nil (Z * list col_cell)).
    induction l as [|p l IHl]; simpl; auto.
    intros d Hd. apply IHl. now apply add_table_ok.
Qed.

Lemma line_elements_ok table_polys ls :
  forall els, line_elements table_polys ls = Ok els -> Forall element_ok els.
Proof.
  induction ls as [|l ls IH]; intros els; simpl.
  - intros Heq. injection Heq as <-. constructor.
  - destruct (line_point l) as [pt|e]; simpl; [|discriminate].
    destruct (line_elements table_polys ls) as [els'|e]; simpl; [|discriminate].
    destruct (negb (inside_a_table table_polys pt)); intros Heq;
      injection Heq as <-; auto. constructor; simpl; auto.
Qed.

Lemma page_elements_ok result page els :
  page_elements result page = Ok els -> Forall element_ok els.
Proof.
  unfold page_elements. intros Hok.
  destruct (collect_tables _ _ _) as [tbls|e]; simpl in Hok; [|discriminate].
  destruct (band_elements (cluster tbls)) as [bands|e] eqn:Eb; simpl in Hok;
    [|discriminate].
  destruct (line_elements (map poly tbls) (lines page)) as [texts|e] eqn:El;
    simpl in Hok; [|discriminate].
  injection Hok as <-.
  apply (Permutation_Forall (Permutation_sym (stable_sort_perm _ _))).
  apply Forall_app. split.
  - now apply (band_elements_ok _ _ Eb).
  - now apply (line_elements_ok _ _ _ El).
Qed.

End Bands.

(** A row has at least one cell, its cells are numbered 1, 2, ... in the
    order they stand in, and all are enabled. *)
Definition row_ok (r : SheetRow) : Prop :=
  cells r <> []
  /\ map index (cells r) = consecutive 1 (List.length (cells r))
  /\ Forall (fun c => enable c = true) (cells r).

Lemma row_cells_ok cs :
  forall start,
    List.length (row_cells start cs) = List.length cs
    /\ map index (row_cells start cs) = consecutive (start + 1) (List.length cs)
    /\ Forall (fun c => enable c = true) (row_cells start cs).
Proof.
  induction cs as [|c cs IH]; intros start; simpl.
  - repeat split; constructor.
  - destruct (IH (start + 1)) as (Hlen & Hidx & Hen).
    split; [now rewrite Hlen|]. split; [now rewrite Hidx|].
    constructor; auto.
Qed.

Lemma emit_band_rows_ok d :
  Forall (fun rc => snd rc <> []) d ->
  forall st, Forall row_ok (fst st) ->
    Forall row_ok (fst (fold_left emit_band_row d st)).
Proof.
  induction 1 as [|rc d Hrc Hd IH]; intros st Hst; simpl; auto.
  apply IH. unfold emit_band_row. simpl. apply Forall_app. split; auto.
  constructor; [|constructor].
  set (cs := stable_sort (fun a b => col a <? col b) (snd rc)).
  destruct (row_cells_ok cs 0) as (Hlen & Hidx & Hen).
  unfold row_ok. simpl. rewrite Hlen. split; [|split; auto].
  intro Heq. apply (f_equal (@List.length SheetCell)) in Heq.
  rewrite Hlen in Heq. unfold cs in Heq. rewrite stable_sort_length in Heq.
  destruct (snd rc); [congruence|discriminate].
Qed.

Lemma emit_element_ok st el :
  element_ok el -> Forall row_ok (fst st) ->
  Forall row_ok (fst (emit_element st el)).
Proof.
  destruct el as [y d|y t]; simpl; intros Hel Hst.
  - apply emit_band_rows_ok; auto.
    destruct Hel as [_ Hne]. unfold sorted_rows.
    apply (Permutation_Forall (Permutation_sym (stable_sort_perm _ _))). exact Hne.
  - apply Forall_app. split; auto. repeat constructor. simpl. discriminate.
Qed.

Lemma emit_elements_ok els :
  Forall element_ok els ->
  forall st, Forall row_ok (fst st) ->
    Forall row_ok (fst (fold_left emit_element els st)).
Proof.
  induction 1 as [|el els Hel Hels IH]; intros st Hst; simpl; auto.
  apply IH. now apply emit_element_ok.
Qed.

Lemma emit_pages_ok `{Shapely} `{FloatArith} result ps :
  forall st st', Forall row_ok (fst st) ->
    emit_pages result ps st = Ok st' -> Forall row_ok (fst st').
Proof.
  induction ps as [|page ps IH]; intros st st' Hst; simpl.
  - intros Heq. now injection Heq as <-.
  - destruct (page_elements result page) as [els|e] eqn:Ep; simpl; [|discriminate].
    apply IH. apply emit_elements_ok; auto.
    now apply (page_elements_ok result page).
Qed.

(** X12: every row of a reconstructed sheet has at least one cell, and its
    cells carry the indices 1, 2, ... in the order they stand in and are
    all enabled. *)
Theorem rows_are_numbered (S : Shapely) (F : FloatArith)
    (result : AnalyzeResult)
    (model : SheetModel) :
  analyze_spreadsheet_auto_merge result = Ok model ->
  forall sh, In sh (sheets model) -> Forall row_ok (rows sh).
Proof.
  unfold analyze_spreadsheet_auto_merge. intros Hok.
  destruct (emit_pages result (pages result) ([], 1)) as [st|e] eqn:Eemit;
    simpl in Hok; [|discriminate].
  injection Hok as <-. simpl. intros sh [<-|[]]. simpl.
  apply (emit_pages_ok result (pages result) ([], 1) st);
    [constructor | exact Eemit].
Qed.

Lemma rows_are_numbered_witness : Forall row_ok (rows Samples.two_pages_sheet).
Proof.
  apply (rows_are_numbered Rings Binary64 Samples.two_pages
           {| activeSheet := "Sheet1"; sheets := [Samples.two_pages_sheet] |}).
  - vm_compute. reflexivity.
  - simpl. auto.
Defined.

End ReadingOrder.

(** ** [server/app.py]: writing the sheet to a workbook *)

Module AppExport.
Import SpreadsheetAnalysis EmitFacts ReadingOrder.











End AppExport.

(** ** The matcher: where a match can end *)

Module ReFacts.
Import Re.

(** [s'] is what is left of [s] after some text at its start. *)
Definition suffix (s' s : string) : Prop :=
  exists pre, s = String.append pre s'.

Lemma suffix_refl s : suffix s s.
Proof. now exists EmptyString. Qed.

Lemma append_assoc a b c :
  String.append (String.append a b) c = String.append a (String.append b c).
Proof. induction a as [|x a IH]; simpl; auto. now rewrite IH. Qed.

Lemma suffix_trans a b c : suffix a b -> suffix b c -> suffix a c.
Proof.
  intros [p ->] [q ->]. exists (String.append q p). now rewrite append_assoc.
Qed.

Lemma suffix_cons c s : suffix s (String c s).
Proof. now exists (String c EmptyString). Qed.

Lemma strip_prefix_append l s s' :
  strip_prefix l s = Some s' -> s = String.append l s'.
Proof.
  revert s. induction l as [|a l IH]; intros s; simpl.
  - intros Heq. now injection Heq as ->.
  - destruct s as [|b s]; [discriminate|].
    destruct (Ascii.eqb_spec a b) as [->|]; [|discriminate].
    intros Heq. now rewrite (IH _ Heq).
Qed.

(** Every character of [s] is in the class [p]. *)
Fixpoint all_in (p : ascii -> bool) (s : string) : bool :=
  match s with
  | EmptyString => true
  | String c r => p c && all_in p r
  end.

Section Repetition.
Context {A : Type}.
Variable step : nat -> string -> (nat -> string -> option A) -> option A.
Variable k : nat -> string -> option A.

(** The loop [run] makes for a repetition, [step] matching its body. *)
Fixpoint rep_run (fuel lo : nat) (hi : option nat) (pos : nat) (s : string)
    {struct fuel} : option A :=
  let stop := if (lo =? 0)%nat then k pos s else None in
  match fuel with
  | O => stop
  | S fuel' =>
      match hi with
      | Some O => stop
      | _ =>
          match step pos s (fun pos' s' =>
                  if (pos' =? pos)%nat then None
                  else rep_run fuel' (Nat.pred lo) (option_map Nat.pred hi)
                         pos' s') with
          | Some a => Some a
          | None => stop
          end
      end
  end.

Hypothesis step_continues :
  forall pos s k' a,
    step pos s k' = Some a ->
    exists pos' s', suffix s' s /\ k' pos' s' = Some a.

Lemma rep_run_continues fuel :
  forall lo hi pos s a,
    rep_run fuel lo hi pos s = Some a ->
    exists pos' s', suffix s' s /\ k pos' s' = Some a.
Proof.
  induction fuel as [|fuel IH]; intros lo hi pos s a; simpl.
  - destruct (lo =? 0)%nat; [|discriminate].
    intros Hk. exists pos, s. split; [apply suffix_refl | exact Hk].
  - assert (Hstop : (if (lo =? 0)%nat then k pos s else None) = Some a ->
                    exists pos' s', suffix s' s /\ k pos' s' = Some a).
    { destruct (lo =? 0)%nat; [|discriminate].
      intros Hk. exists pos, s. split; [apply suffix_refl | exact Hk]. }
    assert (Hiter :
              forall hi',
                match step pos s (fun pos' s' =>
                        if (pos' =? pos)%nat then None
                        else rep_run fuel (Nat.pred lo) hi' pos' s') with
                | Some a0 => Some a0
                | None => if (lo =? 0)%nat then k pos s else None
                end = Some a ->
                exists pos' s', suffix s' s /\ k pos' s' = Some a).
    { intros hi'.
      destruct (step pos s _) as [a0|] eqn:Es; [|exact Hstop].
      intros Heq. injection Heq as ->.
      apply step_continues in Es as (pos1 & s1 & Hsuf & Hk1).
      destruct (pos1 =? pos)%nat; [discriminate|].
      apply IH in Hk1 as (pos2 & s2 & Hsuf2 & Hk2).
      exists pos2, s2. split; [eapply suffix_trans; eauto | exact Hk2]. }
    destruct hi as [[|h]|]; [exact Hstop | apply Hiter | apply Hiter].
Qed.

End Repetition.

Lemma run_rep {A : Type} r lo hi pos s (k : nat -> string -> option A) :
  run (Rep r lo hi) pos s k
  = rep_run (fun pos s k' => run r pos s k') k (S (String.length s)) lo hi pos s.
Proof. reflexivity. Qed.

(** A match hands to its continuation what is left of the text. *)
Lemma run_continues {A : Type} (r : regex) :
  forall pos s (k : nat -> string -> option A) a,
    run r pos s k = Some a ->
    exists pos' s', suffix s' s /\ k pos' s' = Some a.
Proof.
  induction r as [| |p|l|r1 IH1 r2 IH2|r1 IH1 r2 IH2|r1 IH1 lo hi];
    intros pos s k a.
  - simpl. destruct (pos =? 0)%nat; [|discriminate].
    intros Hk. exists pos, s. split; [apply suffix_refl | exact Hk].
  - simpl. destruct s as [|c [|d s]]; try discriminate.
    + intros Hk. exists pos, EmptyString. split; [apply suffix_refl | exact Hk].
    + destruct (PyStr.code c =? 10); [|discriminate].
      intros Hk. exists pos, (String c EmptyString).
      split; [apply suffix_refl | exact Hk].
  - simpl. destruct s as [|c s]; [discriminate|].
    destruct (p c); [|discriminate].
    intros Hk. exists (S pos), s. split; [apply suffix_cons | exact Hk].
  - simpl. destruct (strip_prefix l s) as [s'|] eqn:El; [|discriminate].
    intros Hk. exists (pos + String.length l)%nat, s'. split; auto.
    exists l. now apply strip_prefix_append.
  - simpl. intros Hrun.
    apply IH1 in Hrun as (pos1 & s1 & Hsuf1 & Hrun).
    apply IH2 in Hrun as (pos2 & s2 & Hsuf2 & Hk).
    exists pos2, s2. split; [eapply suffix_trans; eauto | exact Hk].
  - simpl. destruct (run r1 pos s k) as [a0|] eqn:E1.
    + intros Heq. injection Heq as ->. exact (IH1 _ _ _ _ E1).
    + apply IH2.
  - rewrite run_rep. apply rep_run_continues.
    intros pos0 s0 k' a0. apply IH1.
Qed.

(** A repetition of a character class takes a run of characters of the
    class, as many as its bounds allow. *)
Lemma rep_class_run {A : Type} (p : ascii -> bool)
    (k : nat -> string -> option A) fuel :
  forall lo hi pos s a,
    rep_run (fun pos s k' => run (Class p) pos s k') k fuel lo hi pos s = Some a ->
    exists d s',
      s = String.append d s'
      /\ all_in p d = true
      /\ (lo <= String.length d)%nat
      /\ (forall h, hi = Some h -> (String.length d <= h)%nat)
      /\ k (pos + String.length d)%nat s' = Some a.
Proof.
  induction fuel as [|fuel IH]; intros lo hi pos s a.
  - simpl. destruct (Nat.eqb_spec lo 0); [|discriminate].
    intros Hk. exists EmptyString, s. simpl. rewrite Nat.add_0_r.
    repeat split; auto; intros; lia.
  - assert (Hstop : (if (lo =? 0)%nat then k pos s else None) = Some a ->
                    exists d s',
                      s = String.append d s' /\ all_in p d = true
                      /\ (lo <= String.length d)%nat
                      /\ (forall h, hi = Some h -> (String.length d <= h)%nat)
                      /\ k (pos + String.length d)%nat s' = Some a).
    { destruct (Nat.eqb_spec lo 0); [|discriminate].
      intros Hk. exists EmptyString, s. simpl. rewrite Nat.add_0_r.
      repeat split; auto; intros; lia. }
    assert (Hiter :
              forall hi',
                match run (Class p) pos s (fun pos' s' =>
                        if (pos' =? pos)%nat then None
                        else rep_run (fun pos s k' => run (Class p) pos s k') k
                               fuel (Nat.pred lo) (option_map Nat.pred hi')
                               pos' s') with
                | Some a0 => Some a0
                | None => if (lo =? 0)%nat then k pos s else None
                end = Some a ->
                hi = hi' -> hi' <> Some 0%nat ->
                exists d s',
                  s = String.append d s' /\ all_in p d = true
                  /\ (lo <= String.length d)%nat
                  /\ (forall h, hi = Some h -> (String.length d <= h)%nat)
                  /\ k (pos + String.length d)%nat s' = Some a).
    { intros hi' Hrun Hhi Hnz. subst hi'.
      destruct s as [|c s]; [exact (Hstop Hrun)|].
      cbn [run] in Hrun. destruct (p c) eqn:Ec; [|exact (Hstop Hrun)].
      rewrite (proj2 (Nat.eqb_neq (S pos) pos)) in Hrun by lia.
      destruct (rep_run _ k fuel (Nat.pred lo) (option_map Nat.pred hi) (S pos) s)
        as [a0|] eqn:Er; [|exact (Hstop Hrun)].
      injection Hrun as ->.
      apply IH in Er as (d & s' & -> & Hd & Hlo & Hhi & Hk).
      exists (String c d), s'. simpl. rewrite Ec, Hd.
      replace (pos + S (String.length d))%nat
        with (S pos + String.length d)%nat by lia.
      repeat split; auto; try lia.
      intros h' Hh'. subst hi. destruct h' as [|h']; [congruence|].
      specialize (Hhi h' eq_refl). lia. }
    intros Hrun. destruct hi as [[|h]|].
    + exact (Hstop Hrun).
    + apply (Hiter (Some (S h))); [exact Hrun | reflexivity | discriminate].
    + apply (Hiter None); [exact Hrun | reflexivity | discriminate].
Qed.

Lemma run_rep_class {A : Type} (p : ascii -> bool) lo hi pos s
    (k : nat -> string -> option A) a :
  run (Rep (Class p) lo hi) pos s k = Some a ->
  exists d s',
    s = String.append d s'
    /\ all_in p d = true
    /\ (lo <= String.length d)%nat
    /\ (forall h, hi = Some h -> (String.length d <= h)%nat)
    /\ k (pos + String.length d)%nat s' = Some a.
Proof. rewrite run_rep. apply rep_class_run. Qed.

End ReFacts.

(** ** [server/extract_toc.py]: the entries of a table of contents *)

Module TocEntries.
Import ExtractToc.

(** The lazy [.*?]: as few characters as the rest of the pattern allows,
    none of them a line feed. *)
Fixpoint lazy_any {A : Type} (pos : nat) (s : string)
    (k : nat -> string -> option A) : option A :=
  match k pos s with
  | Some a => Some a
  | None =>
      match s with
      | String c s' =>
          if (PyStr.code c =? 10) then None else lazy_any (S pos) s' k
      | EmptyString => None
      end
  end.

(** The dots-leader or the gap of the entry pattern:
    [(?:\.{2,}\s*|\s{2,})]. *)
Definition leader : Re.regex :=
  Re.Alt (Re.Cat (Re.Rep Re.dot_char 2 None) (Re.star Re.space))
    (Re.Rep Re.space 2 None).

(** [pat.match(ln)] for the pattern of [extract_toc_entries],
    [^\s*(.*?)(?:\.{2,}\s*|\s{2,})(\d{1,4})\s*$]: the texts of its two
    groups, each read off between the offsets where it starts and ends. *)
Definition entry_match (ln : string) : option (string * string) :=
  Re.run (Re.Cat Re.Bol (Re.star Re.space)) 0 ln (fun p1 s1 =>
  lazy_any p1 s1 (fun p2 s2 =>
  Re.run leader p2 s2 (fun p3 s3 =>
  Re.run (Re.Rep Re.digit 1 (Some 4%nat)) p3 s3 (fun p4 s4 =>
  Re.run (Re.Cat (Re.star Re.space) Re.Eol) p4 s4 (fun _ _ =>
    Some (String.substring 0 (p2 - p1) s1,
          String.substring 0 (p4 - p3) s3)))))).

(** [l[i]] on a Python list: a negative index counts from the end. *)
Definition getitem {X : Type} (l : list X) (i : Z) : res X :=
  let n := Z.of_nat (List.length l) in
  let j := if i <? 0 then i + n else i in
  if (j <? 0) || (n <=? j) then Raise IndexError
  else match nth_error l (Z.to_nat j) with
       | Some x => Ok x
       | None => Raise IndexError
       end.

(** [range(a, b)]. *)
Definition range2 (a b : Z) : list Z :=
  map (fun k => a + Z.of_nat k) (seq 0 (Z.to_nat (b - a))).

(** The loop [for ln in txt.splitlines()]. *)
Fixpoint line_entries (lns : list string) (entries : list (string * Z))
  : res (list (string * Z)) :=
  match lns with
  | [] => Ok entries
  | ln :: rest =>
      match entry_match (PyStr.strip ln) with
      | Some (g1, g2) =>
          page <- PyStr.int g2 ;;
          line_entries rest (entries ++ [(PyStr.strip g1, page)])
      | None => line_entries rest entries
      end
  end.

(** The loop [for p in range(start_page - 1, end_page)]. *)
Fixpoint page_entries (pages : list string) (ps : list Z)
    (entries : list (string * Z)) : res (list (string * Z)) :=
  match ps with
  | [] => Ok entries
  | p :: rest =>
      txt <- getitem pages p ;;
      entries' <- line_entries (PyStr.splitlines txt) entries ;;
      page_entries pages rest entries'
  end.

Definition extract_toc_entries (pages : list string) (start_page end_page : Z)
  : res (list (string * Z)) :=
  page_entries pages (range2 (start_page - 1) end_page) [].

End TocEntries.

Module TocEntriesFacts.
Import ExtractToc TocEntries ReFacts PyStrFacts PyStrCanonical.

Lemma lazy_any_continues {A : Type} s :
  forall pos (k : nat -> string -> option A) a,
    lazy_any pos s k = Some a ->
    exists pos' s', suffix s' s /\ k pos' s' = Some a.
Proof.
  induction s as [|c s IH]; intros pos k a; simpl.
  - destruct (k pos EmptyString) as [a0|] eqn:Ek; [|discriminate].
    intros Heq. injection Heq as ->. exists pos, EmptyString.
    split; [apply suffix_refl | exact Ek].
  - destruct (k pos (String c s)) as [a0|] eqn:Ek.
    + intros Heq. injection Heq as ->. exists pos, (String c s).
      split; [apply suffix_refl | exact Ek].
    + destruct (PyStr.code c =? 10); [discriminate|].
      intros Hl. apply IH in Hl as (pos' & s' & Hsuf & Hk).
      exists pos', s'. split; [|exact Hk].
      eapply suffix_trans; [exact Hsuf | apply suffix_cons].
Qed.

Lemma substring_append d s :
  String.substring 0 (String.length d) (String.append d s) = d.
Proof.
  induction d as [|c d IH]; simpl.
  - now destruct s.
  - now rewrite IH.
Qed.

Lemma all_in_decimal d : all_in PyStr.isdecimal d = PyStr.all_decimal d.
Proof. induction d as [|c d IH]; simpl; auto. now rewrite IH. Qed.

(** The second group of a match is one to four decimal digits. *)
Lemma entry_match_page ln g1 g2 :
  entry_match ln = Some (g1, g2) ->
  PyStr.all_decimal g2 = true
  /\ (1 <= String.length g2 <= 4)%nat.
Proof.
  unfold entry_match. intros Hm.
  apply run_continues in Hm as (p1 & s1 & _ & Hm).
  apply lazy_any_continues in Hm as (p2 & s2 & _ & Hm).
  apply run_continues in Hm as (p3 & s3 & _ & Hm).
  apply run_rep_class in Hm as (d & s4 & -> & Hd & Hlo & Hhi & Hm).
  apply run_continues in Hm as (p5 & s5 & _ & Hm).
  injection Hm as _ <-.
  replace (p3 + String.length d - p3)%nat with (String.length d) by lia.
  rewrite substring_append. rewrite <- all_in_decimal.
  specialize (Hhi 4%nat eq_refl). auto.
Qed.

Lemma digit_value_bounds c :
  PyStr.isdecimal c = true -> 0 <= PyStr.digit_value c <= 9.
Proof.
  unfold PyStr.isdecimal, PyStr.digit_value. intros H.
  apply andb_true_iff in H as [H1 H2].
  apply Z.leb_le in H1. apply Z.leb_le in H2. lia.
Qed.

Lemma decimal_value_bounds d :
  forall acc,
    PyStr.all_decimal d = true -> 0 <= acc ->
    acc * 10 ^ Z.of_nat (String.length d) <= PyStr.decimal_value acc d
    /\ PyStr.decimal_value acc d
       < (acc + 1) * 10 ^ Z.of_nat (String.length d).
Proof.
  induction d as [|c d IH]; intros acc Hd Hacc.
  - simpl. lia.
  - simpl in Hd. apply andb_true_iff in Hd as [Hc Hd].
    pose proof (digit_value_bounds c Hc) as Hdv.
    destruct (IH (10 * acc + PyStr.digit_value c) Hd) as [Hlo Hhi]; [lia|].
    change (PyStr.decimal_value acc (String c d))
      with (PyStr.decimal_value (10 * acc + PyStr.digit_value c) d).
    change (String.length (String c d)) with (S (String.length d)).
    rewrite Nat2Z.inj_succ, Z.pow_succ_r by lia.
    assert (Hpow : 0 < 10 ^ Z.of_nat (String.length d))
      by (apply Z.pow_pos_nonneg; lia).
    set (P := 10 ^ Z.of_nat (String.length d)) in *.
    assert (H0 : 0 <= PyStr.digit_value c * P) by (apply Z.mul_nonneg_nonneg; lia).
    assert (H9 : PyStr.digit_value c * P <= 9 * P)
      by (apply Z.mul_le_mono_nonneg_r; lia).
    split; lia.
Qed.

(** [int] of one to four digits is a number from 0 to 9999. *)
Lemma int_page g :
  PyStr.all_decimal g = true -> (1 <= String.length g <= 4)%nat ->
  exists page, PyStr.int g = Ok page /\ 0 <= page <= 9999.
Proof.
  intros Hd Hlen. exists (PyStr.decimal_value 0 g). split.
  - apply int_numeric.
    + destruct g; [simpl in Hlen; lia | exact Hd].
    + unfold PyStr.int_max_str_digits. lia.
  - destruct (decimal_value_bounds g 0 Hd) as [Hlo Hhi]; [lia|].
    assert (Hpow : 10 ^ Z.of_nat (String.length g) <= 10 ^ 4)
      by (apply Z.pow_le_mono_r; lia).
    lia.
Qed.

(** An entry as the parser makes it: a trimmed title and a page number of
    at most four digits. *)
Definition entry_ok (e : string * Z) : Prop :=
  PyStr.strip (fst e) = fst e /\ 0 <= snd e <= 9999.

Lemma line_entries_ok lns :
  forall entries,
    Forall entry_ok entries ->
    exists entries',
      line_entries lns entries = Ok entries' /\ Forall entry_ok entries'.
Proof.
  induction lns as [|ln lns IH]; intros entries Hall; simpl.
  - eauto.
  - destruct (entry_match (PyStr.strip ln)) as [[g1 g2]|] eqn:Em; [|now apply IH].
    destruct (entry_match_page _ _ _ Em) as [Hd Hlen].
    destruct (int_page g2 Hd Hlen) as (page & -> & Hpage). simpl.
    apply IH. apply Forall_app. split; auto.
    constructor; [|constructor]. split; simpl; [apply strip_idem | exact Hpage].
Qed.

Lemma page_entries_ok pages ps :
  forall entries,
    Forall entry_ok entries ->
    match page_entries pages ps entries with
    | Ok entries' => Forall entry_ok entries'
    | Raise ex => ex = IndexError
    end.
Proof.
  induction ps as [|p ps IH]; intros entries Hall; simpl; auto.
  unfold getitem.
  destruct ((_ <? 0) || (_ <=? _)); simpl; auto.
  destruct (nth_error pages _) as [txt|]; simpl; auto.
  destruct (line_entries_ok (PyStr.splitlines txt) entries Hall)
    as (entries' & -> & Hall'). simpl.
  now apply IH.
Qed.

(** X14: every entry read from a table of contents has a title without
    surrounding whitespace and a page number from 0 to 9999; reading can
    fail only with [IndexError], on a page the document does not have, and
    never on the text of a line. *)
Theorem extract_toc_entries_well_formed (pages : list string)
    (start_page end_page : Z) :
  match extract_toc_entries pages start_page end_page with
  | Ok entries => Forall entry_ok entries
  | Raise ex => ex = IndexError
  end.
Proof. apply page_entries_ok. constructor. Qed.

Lemma getitem_in_range {X : Type} (l : list X) (i : Z) :
  0 <= i < Z.of_nat (List.length l) -> exists x, getitem l i = Ok x.
Proof.
  intros Hi. unfold getitem.
  destruct (Z.ltb_spec i 0); [lia|].
  destruct (Z.ltb_spec i 0); [lia|].
  destruct (Z.leb_spec (Z.of_nat (List.length l)) i); [lia|]. simpl.
  destruct (nth_error l (Z.to_nat i)) as [x|] eqn:En; [eauto|].
  apply nth_error_None in En. lia.
Qed.

Lemma page_entries_in_range pages ps :
  Forall (fun p => 0 <= p < Z.of_nat (List.length pages)) ps ->
  forall entries,
    Forall entry_ok entries ->
    exists entries', page_entries pages ps entries = Ok entries'.
Proof.
  induction 1 as [|p ps Hp Hps IH]; intros entries Hall; simpl; [eauto|].
  destruct (getitem_in_range pages p Hp) as [txt ->]. simpl.
  destruct (line_entries_ok (PyStr.splitlines txt) entries Hall)
    as (entries' & -> & Hall'). simpl.
  now apply IH.
Qed.

Lemma range2_bounds a b :
  Forall (fun p => a <= p < b) (range2 a b).
Proof.
  unfold range2. apply Forall_forall. intros p Hp.
  apply in_map_iff in Hp as (k & <- & Hk). apply in_seq in Hk. lia.
Qed.

(** X15: on a span of pages that the document has, from page 1 on, the
    entries are always read: no line, whatever its text, makes the parser
    raise. *)
Theorem extract_toc_entries_in_bounds (pages : list string)
    (start_page end_page : Z) :
  1 <= start_page -> end_page <= Z.of_nat (List.length pages) ->
  exists entries,
    extract_toc_entries pages start_page end_page = Ok entries.
Proof.
  intros Hs He. unfold extract_toc_entries.
  apply page_entries_in_range; [|constructor].
  eapply Forall_impl; [|apply range2_bounds]. simpl. intros p Hp. lia.
Qed.

Lemma extract_toc_entries_in_bounds_witness :
  exists entries, extract_toc_entries Samples.book 2 3 = Ok entries.
Proof.
  apply (extract_toc_entries_in_bounds Samples.book 2 3); simpl; lia.
Defined.

End TocEntriesFacts.

(** ** TOC-like pages: what their lines must look like *)

Module TocLikeFacts.
Import ExtractToc ReFacts PyStrCanonical.

Fixpoint last_char (s : string) : option ascii :=
  match s with
  | EmptyString => None
  | String c EmptyString => Some c
  | String _ r => last_char r
  end.

(** The last character of [s] is a decimal digit. *)
Definition ends_in_digit (s : string) : bool :=
  match last_char s with
  | Some c => PyStr.isdecimal c
  | None => false
  end.

Lemma last_char_append pre d :
  d <> EmptyString -> last_char (String.append pre d) = last_char d.
Proof.
  intros Hd. induction pre as [|c pre IH]; simpl; auto.
  destruct (String.append pre d) eqn:E; auto.
  destruct pre; simpl in E; congruence.
Qed.

Lemma last_char_class p d :
  all_in p d = true -> d <> EmptyString ->
  exists c, last_char d = Some c /\ p c = true.
Proof.
  induction d as [|c d IH]; [congruence|]. simpl. intros H _.
  apply andb_true_iff in H as [Hc Hd].
  destruct d as [|c' d]; [eauto|]. apply IH; auto. discriminate.
Qed.

Lemma rstrip_last s c :
  PyStr.rstrip s = s -> last_char s = Some c -> PyStr.isspace c = false.
Proof.
  revert c. induction s as [|a s IH]; intros c; simpl; [discriminate|].
  destruct (PyStr.rstrip s) as [|b r] eqn:Er.
  - destruct (PyStr.isspace a) eqn:Ea; [discriminate|].
    intros Heq. injection Heq as <-. intros Hl. now injection Hl as <-.
  - intros Heq. injection Heq as <-. intros Hl. apply IH; auto.
Qed.

Lemma search_from_run r s :
  forall pos,
    Re.search_from r pos s = true ->
    exists pos' s',
      suffix s' s /\ Re.run r pos' s' (fun _ _ => Some tt) = Some tt.
Proof.
  induction s as [|c s IH]; intros pos; simpl.
  - destruct (Re.run r pos EmptyString _) as [[]|] eqn:Er; [|discriminate].
    intros _. exists pos, EmptyString. split; [apply suffix_refl | exact Er].
  - destruct (Re.run r pos (String c s) _) as [[]|] eqn:Er.
    + intros _. exists pos, (String c s). split; [apply suffix_refl | exact Er].
    + intros Hs. apply IH in Hs as (pos' & s' & Hsuf & Hrun).
      exists pos', s'. split; [|exact Hrun].
      eapply suffix_trans; [exact Hsuf | apply suffix_cons].
Qed.

(** Digits up to the end of the text, or up to a line feed that ends it. *)
Lemma digits_to_end {A : Type} pos s (k : nat -> string -> option A) a :
  Re.run (Re.Cat (Re.plus Re.digit) Re.Eol) pos s k = Some a ->
  exists d tail,
    s = String.append d tail
    /\ all_in PyStr.isdecimal d = true /\ d <> EmptyString
    /\ (tail = EmptyString \/ tail = String "010" EmptyString).
Proof.
  cbn [Re.run]. unfold Re.plus, Re.digit. intros Hrun.
  apply run_rep_class in Hrun as (d & tail & -> & Hd & Hlo & _ & Hk).
  exists d, tail. repeat split; auto.
  - intro Heq. subst d. simpl in Hlo. lia.
  - cbn [Re.run] in Hk. destruct tail as [|c [|c' tail]]; auto; [|discriminate].
    destruct (Z.eqb_spec (PyStr.code c) 10) as [Hc|]; [|discriminate].
    right. f_equal.
    unfold PyStr.code in Hc.
    assert (Hn : nat_of_ascii c = 10%nat) by lia.
    rewrite <- (ascii_nat_embedding c), Hn. reflexivity.
Qed.

Lemma run_cat {A : Type} r1 r2 pos s (k : nat -> string -> option A) :
  Re.run (Re.Cat r1 r2) pos s k
  = Re.run r1 pos s (fun pos' s' => Re.run r2 pos' s' k).
Proof. reflexivity. Qed.

Lemma run_alt {A : Type} r1 r2 pos s (k : nat -> string -> option A) :
  Re.run (Re.Alt r1 r2) pos s k
  = match Re.run r1 pos s k with
    | Some a => Some a
    | None => Re.run r2 pos s k
    end.
Proof. reflexivity. Qed.

Lemma toc_pat_digits pos s :
  Re.run toc_pat pos s (fun _ _ => Some tt) = Some tt ->
  exists pre d tail,
    s = String.append pre (String.append d tail)
    /\ all_in PyStr.isdecimal d = true /\ d <> EmptyString
    /\ (tail = EmptyString \/ tail = String "010" EmptyString).
Proof.
  unfold toc_pat. rewrite run_alt.
  destruct (Re.run (A := unit) (Re.Cat (Re.Rep Re.dot_char 2 None) _) pos s _)
    as [[]|] eqn:E1.
  - intros _. rewrite run_cat in E1.
    apply run_continues in E1 as (p1 & s1 & [pre1 ->] & E1).
    rewrite run_cat in E1.
    apply run_continues in E1 as (p2 & s2 & [pre2 ->] & E1).
    apply (digits_to_end p2 s2 (fun _ _ => Some tt) tt) in E1
      as (d & tail & -> & Hd & Hne & Htail).
    exists (String.append pre1 pre2), d, tail.
    rewrite append_assoc. auto.
  - intros E2. rewrite run_cat in E2.
    apply run_continues in E2 as (p1 & s1 & [pre1 ->] & E2).
    apply (digits_to_end p1 s1 (fun _ _ => Some tt) tt) in E2
      as (d & tail & -> & Hd & Hne & Htail).
    exists pre1, d, tail. auto.
Qed.

(** A trimmed line in which [toc_pat] is found ends in a digit. *)
Lemma toc_pat_ends_in_digit ln :
  PyStr.rstrip ln = ln -> Re.search toc_pat ln = true ->
  ends_in_digit ln = true.
Proof.
  intros Hstrip Hs. unfold Re.search in Hs.
  apply search_from_run in Hs as (pos & s & [pre0 ->] & Hrun).
  apply toc_pat_digits in Hrun as (pre & d & tail & -> & Hd & Hne & Htail).
  unfold ends_in_digit.
  destruct Htail as [-> | ->].
  - assert (Happ : String.append d EmptyString = d).
    { clear. induction d as [|c d IH]; simpl; auto. now rewrite IH. }
    rewrite Happ, <- append_assoc, (last_char_append _ d Hne).
    destruct (last_char_class _ d Hd Hne) as (c & -> & Hc). exact Hc.
  - exfalso.
    assert (Hlast : last_char
                      (String.append pre0
                         (String.append pre
                            (String.append d (String "010" EmptyString))))
                    = Some "010"%char).
    { rewrite <- !append_assoc. now rewrite last_char_append by discriminate. }
    pose proof (rstrip_last _ _ Hstrip Hlast) as Hsp. discriminate Hsp.
Qed.

Lemma stripped_lines_trimmed text ln :
  In ln (stripped_lines text) -> PyStr.rstrip ln = ln.
Proof.
  unfold stripped_lines. intros Hin.
  apply in_map_iff in Hin as (x & <- & _).
  unfold PyStr.strip. apply rstrip_idem.
Qed.

Lemma filter_length_le {X : Type} (p q : X -> bool) (l : list X) :
  (forall x, In x l -> p x = true -> q x = true) ->
  (List.length (filter p l) <= List.length (filter q l))%nat.
Proof.
  induction l as [|x l IH]; simpl; auto. intros Hpq.
  assert (IH' : (List.length (filter p l) <= List.length (filter q l))%nat)
    by (apply IH; intros; apply Hpq; auto).
  destruct (p x) eqn:Ep.
  - rewrite (Hpq x (or_introl eq_refl) Ep). simpl. lia.
  - destruct (q x); simpl; lia.
Qed.

(** X16: a page is TOC-like only if it has at least [min_total_lines]
    lines that are not blank and at least [min_entry_lines] of them end in
    a decimal digit; a page of prose with no such line is never TOC-like
    for a positive [min_entry_lines]. *)
Theorem toc_like_needs_numbered_lines (text : string)
    (min_entry_lines min_total_lines : Z) :
  is_toc_like_page text min_entry_lines min_total_lines = true ->
  min_total_lines <= Z.of_nat (List.length (stripped_lines text))
  /\ min_entry_lines <= count_true ends_in_digit (stripped_lines text).
Proof.
  unfold is_toc_like_page. destruct (negb (nonempty text)); [discriminate|].
  destruct (Z.ltb_spec (Z.of_nat (List.length (stripped_lines text)))
              min_total_lines); [discriminate|].
  intros Hcount. apply Z.geb_le in Hcount. split; auto.
  eapply Z.le_trans; [exact Hcount|]. unfold count_true.
  apply Nat2Z.inj_le. apply filter_length_le.
  intros ln Hin. apply toc_pat_ends_in_digit.
  now apply (stripped_lines_trimmed text).
Qed.

Lemma toc_like_needs_numbered_lines_witness :
  5 <= Z.of_nat (List.length (stripped_lines (nth 2 Samples.book EmptyString)))
  /\ 3 <= count_true ends_in_digit
            (stripped_lines (nth 2 Samples.book EmptyString)).
Proof.
  apply (toc_like_needs_numbered_lines (nth 2 Samples.book EmptyString) 3 5).
  vm_compute. reflexivity.
Defined.

End TocLikeFacts.

(** ** [server/app.py]: from the located span to the index *)

Module UploadIndex.
Import ExtractToc TocEntries TocEntriesFacts TocLocatorFacts
  TopicIndexInvariants.

(** The span the locator returns lies inside the document, from page 1. *)
Lemma located_span_in_document pages max_scan_pages min_toc_len s e :
  find_toc_page_range pages max_scan_pages min_toc_len = (Some s, Some e) ->
  1 <= s /\ s <= e /\ e <= Z.of_nat (List.length pages).
Proof.
  rewrite find_toc_page_range_eq.
  destruct (scan_pages_cases pages (Z.to_nat (window pages max_scan_pages)))
    as [[-> _]|(s0 & e0 & -> & Hspan)]; [discriminate|].
  destruct (truthy (Some s0) && truthy (Some e0) && (e0 - s0 + 1 >=? min_toc_len));
    [|discriminate].
  intros Heq. injection Heq as <- <-.
  destruct Hspan as (Hse & Hen & _). unfold window in Hen. lia.
Qed.

(** Where the pages of a range of the index come from. *)
Lemma build_topic_loop_pages entries todo :
  forall idx topic_map t s e,
    dict_get t (build_topic_loop entries idx todo topic_map) = Some (s, e) ->
    dict_get t topic_map = Some (s, e)
    \/ (In s (map snd todo)
        /\ forall e', e = Some e' -> In e' (map snd entries) /\ s <= e').
Proof.
  induction todo as [|[title start] todo IH]; intros idx topic_map t s e; simpl.
  - auto.
  - intros Hget. apply IH in Hget as [Hget|[Hs He]]; [|auto].
    apply dict_get_set in Hget as [Heq|Hold]; [|auto].
    right. injection Heq as -> ->. split; auto.
    intros e' He'. unfold entry_end in He'.
    destruct (if (idx + 1 <? List.length entries)%nat
              then option_map snd (nth_error entries (idx + 1))
              else None) as [n|] eqn:En; [|discriminate].
    destruct (negb (n =? 0)); simpl in He'; [|discriminate].
    destruct (Z.geb_spec n start); [|discriminate].
    injection He' as <-.
    destruct (idx + 1 <? List.length entries)%nat; [|discriminate].
    destruct (nth_error entries (idx + 1)) as [[t' n']|] eqn:Enth; [|discriminate].
    simpl in En. injection En as <-.
    apply nth_error_In in Enth. apply (in_map snd) in Enth.
    split; [exact Enth | lia].
Qed.

(** X17: whatever span the locator returns for a document, the entries of
    that span are read without error, and the index built from them has
    one key for each title, with every start page, and every end page that
    is not open, a number from 0 to 9999 taken from the entries. *)
Theorem located_span_gives_index (pages : list string)
    (max_scan_pages min_toc_len s e : Z) :
  find_toc_page_range pages max_scan_pages min_toc_len = (Some s, Some e) ->
  exists entries,
    extract_toc_entries pages s e = Ok entries
    /\ NoDup (dict_keys (build_topic_map entries))
    /\ forall title start end_,
         dict_get title (build_topic_map entries) = Some (start, end_) ->
         0 <= start <= 9999
         /\ forall e', end_ = Some e' -> start <= e' <= 9999.
Proof.
  intros Hfind.
  destruct (located_span_in_document _ _ _ _ _ Hfind) as (Hs & _ & He).
  destruct (page_entries_in_range pages (range2 (s - 1) e)) with (entries := @nil (string * Z))
    as [entries Hent].
  { eapply Forall_impl; [|apply range2_bounds]. simpl. intros p Hp. lia. }
  { constructor. }
  exists entries. split; [exact Hent|].
  pose proof (page_entries_ok pages (range2 (s - 1) e) []
                (Forall_nil entry_ok)) as Hok.
  rewrite Hent in Hok.
  assert (Hpages : forall p, In p (map snd entries) -> 0 <= p <= 9999).
  { intros p Hp. apply in_map_iff in Hp as (en & <- & Hen).
    rewrite Forall_forall in Hok. now apply Hok. }
  split.
  - destruct (build_topic_loop_keys entries entries 0%nat []) as [Hnd _].
    apply Hnd. constructor.
  - intros title start end_ Hget. unfold build_topic_map in Hget.
    apply build_topic_loop_pages in Hget as [Hnone|[Hstart Hend]];
      [discriminate Hnone|].
    split; [now apply Hpages|].
    intros e' He'. destruct (Hend e' He') as [Hin Hle].
    specialize (Hpages e' Hin). lia.
Qed.

Lemma located_span_gives_index_witness :
  exists entries,
    extract_toc_entries Samples.book 2 3 = Ok entries
    /\ NoDup (dict_keys (build_topic_map entries)).
Proof.
  destruct (located_span_gives_index Samples.book default_max_scan_pages
              default_min_toc_len 2 3) as (entries & Hent & Hnd & _).
  - vm_compute. reflexivity.
  - exists entries. split; assumption.
Defined.

End UploadIndex.

(** ** [parse_page_input]: tokens it passes over *)

Module PageInputFacts.
Import PyStr PyStrFacts ExtractToc ReFacts.

(** Neither a hyphen nor one of the superscript digits, which [isdigit]
    accepts and [int] refuses. *)
Definition plain (c : ascii) : bool :=
  negb (Ascii.eqb c "-")
  && negb ((code c =? 178) || (code c =? 179) || (code c =? 185)).

Lemma lower_char_plain c : plain c = true -> plain (lower_char c) = true.
Proof.
  destruct c as [[] [] [] [] [] [] [] []]; intros H;
    first [reflexivity | discriminate H].
Qed.

Lemma plain_digit c :
  plain c = true -> isdigit_char c = true -> isdecimal c = true.
Proof.
  unfold plain, isdigit_char. intros Hp Hd.
  apply andb_true_iff in Hp as [_ Hp]. apply negb_true_iff in Hp.
  destruct (isdecimal c); auto. simpl in Hd. congruence.
Qed.

Lemma all_in_append p a b :
  all_in p (String.append a b) = all_in p a && all_in p b.
Proof.
  induction a as [|c a IH]; simpl; auto.
  now rewrite IH, andb_assoc.
Qed.

Lemma lower_plain s : all_in plain s = true -> all_in plain (lower s) = true.
Proof.
  induction s as [|c s IH]; simpl; auto. intros H.
  apply andb_true_iff in H as [Hc Hs].
  now rewrite (lower_char_plain c Hc), (IH Hs).
Qed.

Lemma remove_all_step fuel old s :
  remove_all (S fuel) old s
  = match old, Re.strip_prefix old s with
    | String _ _, Some s' => remove_all fuel old s'
    | _, _ =>
        match s with
        | EmptyString => EmptyString
        | String c t => String c (remove_all fuel old t)
        end
    end.
Proof. reflexivity. Qed.

Lemma remove_all_plain fuel old :
  forall s, all_in plain s = true ->
            all_in plain (remove_all fuel old s) = true.
Proof.
  induction fuel as [|fuel IH]; intros s Hs; [exact Hs|].
  rewrite remove_all_step.
  assert (Hskip : all_in plain
                    match s with
                    | EmptyString => EmptyString
                    | String c t => String c (remove_all fuel old t)
                    end = true).
  { destruct s as [|c t]; auto. simpl in *.
    apply andb_true_iff in Hs as [Hc Ht]. now rewrite Hc, (IH t Ht). }
  destruct old as [|o old]; [exact Hskip|].
  destruct (Re.strip_prefix (String o old) s) as [s'|] eqn:Ep; [|exact Hskip].
  apply IH. apply strip_prefix_append in Ep. rewrite Ep in Hs.
  rewrite all_in_append in Hs. now apply andb_true_iff in Hs as [_ Hs].
Qed.

Lemma lstrip_plain s : all_in plain s = true -> all_in plain (lstrip s) = true.
Proof.
  induction s as [|c s IH]; simpl; auto. intros H.
  destruct (isspace c); [|exact H].
  apply andb_true_iff in H as [_ Hs]. now apply IH.
Qed.

Lemma rstrip_plain s : all_in plain s = true -> all_in plain (rstrip s) = true.
Proof.
  induction s as [|c s IH]; simpl; auto. intros H.
  apply andb_true_iff in H as [Hc Hs]. specialize (IH Hs).
  destruct (rstrip s); simpl in *.
  - destruct (isspace c); simpl; auto. now rewrite Hc.
  - now rewrite Hc, IH.
Qed.

Lemma strip_plain s : all_in plain s = true -> all_in plain (strip s) = true.
Proof. intros H. unfold strip. now apply rstrip_plain, lstrip_plain. Qed.

Lemma split_plain sep s :
  all_in plain s = true -> Forall (fun t => all_in plain t = true) (split sep s).
Proof.
  induction s as [|c s IH]; simpl; intros H.
  - repeat constructor.
  - apply andb_true_iff in H as [Hc Hs]. specialize (IH Hs).
    destruct (Ascii.eqb c sep); [constructor; auto|].
    destruct (split sep s) as [|t ts]; [repeat constructor; simpl; now rewrite Hc|].
    inversion IH; subst. constructor; auto. simpl. now rewrite Hc.
Qed.

Lemma plain_no_hyphen s : all_in plain s = true -> contains_char "-" s = false.
Proof.
  induction s as [|c s IH]; simpl; auto. intros H.
  apply andb_true_iff in H as [Hc Hs]. rewrite (IH Hs).
  unfold plain in Hc. apply andb_true_iff in Hc as [Hc _].
  apply negb_true_iff in Hc. now rewrite Hc.
Qed.

Lemma plain_isdigit s :
  all_in plain s = true -> all_isdigit s = true -> all_decimal s = true.
Proof.
  induction s as [|c s IH]; simpl; auto. intros Hp Hd.
  apply andb_true_iff in Hp as [Hpc Hps]. apply andb_true_iff in Hd as [Hdc Hds].
  now rewrite (plain_digit c Hpc Hdc), (IH Hps Hds).
Qed.

(** *** Lengths *)

Lemma length_append a b :
  String.length (String.append a b) = (String.length a + String.length b)%nat.
Proof. induction a as [|c a IH]; simpl; auto. Qed.

Lemma lower_length s : String.length (lower s) = String.length s.
Proof. induction s as [|c s IH]; simpl; auto. Qed.

Lemma remove_all_length fuel old :
  forall s, (String.length (remove_all fuel old s) <= String.length s)%nat.
Proof.
  induction fuel as [|fuel IH]; intros s; [apply Nat.le_refl|].
  rewrite remove_all_step.
  assert (Hskip : (String.length
                     match s with
                     | EmptyString => EmptyString
                     | String c t => String c (remove_all fuel old t)
                     end <= String.length s)%nat).
  { destruct s as [|c t]; simpl; auto. specialize (IH t). lia. }
  destruct old as [|o old]; [exact Hskip|].
  destruct (Re.strip_prefix (String o old) s) as [s'|] eqn:Ep; [|exact Hskip].
  apply strip_prefix_append in Ep. rewrite Ep, length_append.
  specialize (IH s'). lia.
Qed.

Lemma lstrip_length s : (String.length (lstrip s) <= String.length s)%nat.
Proof.
  induction s as [|c s IH]; simpl; auto.
  destruct (isspace c); simpl; lia.
Qed.

Lemma rstrip_length s : (String.length (rstrip s) <= String.length s)%nat.
Proof.
  induction s as [|c s IH]; simpl; auto.
  destruct (rstrip s); simpl in *; [destruct (isspace c); simpl; lia | lia].
Qed.

Lemma strip_length s : (String.length (strip s) <= String.length s)%nat.
Proof.
  unfold strip. etransitivity; [apply rstrip_length | apply lstrip_length].
Qed.

Lemma split_pieces_short sep s :
  Forall (fun t => (String.length t <= String.length s)%nat) (split sep s).
Proof.
  induction s as [|c s IH]; simpl.
  - repeat constructor.
  - assert (Hmono : Forall (fun t => (String.length t <= S (String.length s))%nat)
                      (split sep s)).
    { eapply Forall_impl; [|exact IH]. simpl. intros t Ht. lia. }
    destruct (Ascii.eqb c sep); [constructor; [simpl; lia | exact Hmono]|].
    destruct (split sep s) as [|t ts];
      [constructor; [simpl; lia | constructor]|].
    inversion IH; subst. inversion Hmono; subst.
    constructor; [simpl; lia | assumption].
Qed.

(** A range for one page, not negative. *)
Definition single_page (r : Z * Z) : Prop := fst r = snd r /\ 0 <= fst r.

(** A token [int] does not refuse for its length. *)
Definition short (t : string) : Prop :=
  Z.of_nat (String.length t) <= int_max_str_digits.

Lemma input_part_plain part :
  all_in plain part = true -> short part ->
  exists rs,
    input_part part = Ok rs /\ Forall single_page rs
    /\ (List.length rs <= 1)%nat.
Proof.
  intros Hp Hshort. unfold input_part. rewrite (plain_no_hyphen part Hp).
  unfold isdigit.
  destruct (nonempty part && all_isdigit part) eqn:E.
  - apply andb_true_iff in E as [Hne Hd].
    pose proof (plain_isdigit _ Hp Hd) as Hdec.
    assert (Hnum : numeric part = true).
    { destruct part; [discriminate Hne | exact Hdec]. }
    rewrite (int_numeric part Hnum Hshort).
    exists [(decimal_value 0 part, decimal_value 0 part)].
    split; [reflexivity|]. split; [|simpl; lia].
    constructor; [|constructor]. split; [reflexivity|]. cbn [fst].
    destruct (TocEntriesFacts.decimal_value_bounds part 0 Hdec) as [Hlo _]; lia.
  - exists []. split; [reflexivity|]. split; [constructor | simpl; lia].
Qed.

Lemma input_parts_plain parts :
  Forall (fun t => all_in plain t = true /\ short t) parts ->
  forall ranges,
    Forall single_page ranges ->
    exists rs,
      input_parts parts ranges = Ok rs /\ Forall single_page rs
      /\ (List.length rs <= List.length ranges + List.length parts)%nat.
Proof.
  induction 1 as [|part parts [Hp Hshort] Hps IH]; intros ranges Hr; simpl.
  - exists ranges. repeat split; auto. lia.
  - destruct (input_part_plain part Hp Hshort) as (r & -> & Hr1 & Hlen). simpl.
    destruct (IH (ranges ++ r)) as (rs & -> & Hrs & Hlen').
    { apply Forall_app. auto. }
    exists rs. repeat split; auto. rewrite length_app in Hlen'. lia.
Qed.

(** X18: on an input of at most [int_max_str_digits] characters, none of
    them a hyphen or a superscript digit, [parse_page_input] never raises:
    a token of digits gives the range of that one page and every other
    token is passed over in silence, so that the ranges can be fewer than
    the tokens, down to none.  (The characters are those below 256; of
    these, the superscript digits are the ones that [isdigit] accepts and
    [int] refuses.) *)
Theorem parse_page_input_without_hyphen (input_str : string) :
  all_in plain input_str = true ->
  Z.of_nat (String.length input_str) <= int_max_str_digits ->
  exists rs,
    parse_page_input input_str = Ok rs
    /\ Forall single_page rs
    /\ (List.length rs
        <= List.length
             (split ","
                (strip (replace_empty "page"
                          (replace_empty "pages" (lower input_str))))))%nat.
Proof.
  intros Hp Hlen. unfold parse_page_input.
  set (cleaned := strip (replace_empty "page"
                           (replace_empty "pages" (lower input_str)))).
  assert (Hc : all_in plain cleaned = true).
  { unfold cleaned, replace_empty.
    apply strip_plain, remove_all_plain, remove_all_plain, lower_plain, Hp. }
  assert (Hcl : (String.length cleaned <= String.length input_str)%nat).
  { unfold cleaned, replace_empty.
    etransitivity; [apply strip_length|].
    etransitivity; [apply remove_all_length|].
    etransitivity; [apply remove_all_length|].
    now rewrite lower_length. }
  destruct (input_parts_plain (map strip (split "," cleaned))) with (ranges := @nil (Z * Z))
    as (rs & Hrs & Hall & Hlen').
  - apply Forall_forall. intros t Ht. apply in_map_iff in Ht as (x & <- & Hx).
    split.
    + apply strip_plain.
      pose proof (split_plain "," cleaned Hc) as Hsp.
      rewrite Forall_forall in Hsp. now apply Hsp.
    + pose proof (split_pieces_short "," cleaned) as Hsp.
      rewrite Forall_forall in Hsp. specialize (Hsp x Hx).
      pose proof (strip_length x). unfold short. lia.
  - constructor.
  - exists rs. repeat split; auto. rewrite length_map in Hlen'. simpl in Hlen'.
    exact Hlen'.
Qed.

Lemma parse_page_input_without_hyphen_witness :
  exists rs,
    parse_page_input "Pages 2, x, 4 and 5" = Ok rs /\ Forall single_page rs.
Proof.
  destruct (parse_page_input_without_hyphen "Pages 2, x, 4 and 5")
    as (rs & Hrs & Hall & _).
  - reflexivity.
  - unfold int_max_str_digits. simpl. lia.
  - exists rs. split; assumption.
Defined.

End PageInputFacts.

(** ** Reading the pages of a range *)

Module PageReading.
Import ExtractToc TocEntries Actions.

(** [sep.join(l)]. *)
Fixpoint join (sep : string) (l : list string) : string :=
  match l with
  | [] => EmptyString
  | x :: rest =>
      match rest with
      | [] => x
      | _ => String.append x (String.append sep (join sep rest))
      end
  end.

Definition newline : string := String "010" EmptyString.

(** *** [extract_content] of [server/extract_toc.py] *)

(** [[reader.pages[i].extract_text() or "" for i in ...]]. *)
Fixpoint read_pages (pages : list string) (ps : list Z) : res (list string) :=
  match ps with
  | [] => Ok []
  | p :: rest =>
      txt <- getitem pages p ;;
      txts <- read_pages pages rest ;;
      Ok (txt :: txts)
  end.

(** [last = end or start]. *)
Definition end_or_start (start : Z) (end_ : option Z) : Z :=
  match end_ with
  | Some e => if e =? 0 then start else e
  | None => start
  end.

Definition extract_content (pages : list string) (start : Z)
    (end_ : option Z) : res string :=
  txts <- read_pages pages (range2 (start - 1) (end_or_start start end_)) ;;
  Ok (PyStr.strip (join newline txts)).

(** *** [get_by_pages] and [by_topic] of [rasa_backend/actions/actions.py] *)

Section Fitz.

(** The document library: whether [fitz.open] succeeds, and the text
    [doc.load_page(p).get_text()] of a page, [None] when that raises. *)
Variable fitz_open : bool.
Variable get_text : Z -> option string.

Fixpoint load_pages (ps : list Z) : option (list string) :=
  match ps with
  | [] => Some []
  | p :: rest =>
      match get_text p with
      | Some t => option_map (cons t) (load_pages rest)
      | None => None
      end
  end.

(** [extract_pdf_text]; [None] when it raises, as [range(start - 1, None)]
    does. *)
Definition extract_pdf_text (start : Z) (end_ : option Z) : option string :=
  if fitz_open then
    match end_ with
    | Some e =>
        option_map (fun txts => PyStr.strip (join newline txts))
          (load_pages (range2 (start - 1) e))
    | None => None
    end
  else None.

(** What [get_by_pages] returns: the text, the notice that the pages have
    none, or the message that reading failed. *)
Inductive body : Type :=
| Text (t : string)
| NoText
| ReadError.

Definition get_by_pages (start : Z) (end_ : option Z) : body :=
  match extract_pdf_text start end_ with
  | Some t => if nonempty t then Text t else NoText
  | None => ReadError
  end.

(** What [by_topic] returns: the not-found message, or the title and pages
    of its header with the body under it. *)
Inductive reply : Type :=
| NotFoundReply
| TopicReply (real : string) (span : page_span) (b : body).

Definition by_topic_reply `{Difflib.SequenceMatcher} (topic : string)
    (topic_map : dict page_span) : res reply :=
  r <- by_topic topic topic_map ;;
  Ok match r with
     | Resolved real span => TopicReply real span (get_by_pages (fst span) (snd span))
     | TopicNotFound => NotFoundReply
     end.

End Fitz.

End PageReading.

Module PageReadingFacts.
Import ExtractToc TocEntries TocEntriesFacts Actions PageReading
  ResolverFacts ResolverClaims ResolverExtras TopicIndexFacts
  TopicIndexInvariants.

Lemma range2_one start : range2 (start - 1) start = [start - 1].
Proof.
  unfold range2. replace (start - (start - 1)) with 1 by lia.
  simpl. f_equal. lia.
Qed.

Lemma read_pages_in_range pages ps :
  Forall (fun p => 0 <= p < Z.of_nat (List.length pages)) ps ->
  exists txts, read_pages pages ps = Ok txts.
Proof.
  induction 1 as [|p ps Hp Hps IH]; simpl; [eauto|].
  destruct (getitem_in_range pages p Hp) as [txt ->].
  destruct IH as [txts ->]. simpl. eauto.
Qed.

(** X19: with an open end, [None] or 0, [extract_content] returns the
    trimmed text of the start page alone; and for every range inside the
    document it returns a text. *)
Theorem extract_content_open_end (pages : list string) (start : Z) :
  1 <= start <= Z.of_nat (List.length pages) ->
  extract_content pages start None
  = Ok (PyStr.strip (nth (Z.to_nat (start - 1)) pages EmptyString))
  /\ extract_content pages start (Some 0) = extract_content pages start None
  /\ forall e, e <= Z.of_nat (List.length pages) ->
       exists t, extract_content pages start (Some e) = Ok t.
Proof.
  intros Hs. split; [|split].
  - unfold extract_content. simpl end_or_start. rewrite range2_one.
    simpl. unfold getitem.
    destruct (Z.ltb_spec (start - 1) 0); [lia|].
    destruct (Z.ltb_spec (start - 1) 0); [lia|].
    destruct (Z.leb_spec (Z.of_nat (List.length pages)) (start - 1)); [lia|].
    simpl.
    destruct (nth_error pages (Z.to_nat (start - 1))) as [txt|] eqn:En.
    + simpl. now rewrite (nth_error_nth _ _ _ En).
    + apply nth_error_None in En. lia.
  - reflexivity.
  - intros e He. unfold extract_content.
    destruct (read_pages_in_range pages
                (range2 (start - 1) (end_or_start start (Some e))))
      as [txts ->]; [|simpl; eauto].
    eapply Forall_impl; [|apply range2_bounds]. simpl. intros p Hp.
    destruct (e =? 0); lia.
Qed.

Lemma extract_content_open_end_witness :
  extract_content Samples.book 1 None = Ok "A Book".
Proof.
  apply (proj1 (extract_content_open_end Samples.book 1 ltac:(simpl; lia))).
Defined.

(** The last entry of a list of entries is indexed with an open end. *)
Lemma last_entry_open front title start :
  dict_get title (build_topic_map (front ++ [(title, start)]))
  = Some (start, None).
Proof.
  unfold build_topic_map.
  rewrite (build_topic_loop_last _ _ 0%nat [] (List.length front) title start).
  - unfold end_of. cbn [Nat.add].
    replace (nth_error (front ++ [(title, start)]) (S (List.length front)))
      with (@None (string * Z)); [reflexivity|].
    symmetry. apply nth_error_None. rewrite length_app. simpl. lia.
  - rewrite nth_error_app2 by lia. now rewrite Nat.sub_diag.
  - rewrite skipn_all2; [intros []|]. rewrite length_app. simpl. lia.
Qed.

(** X20: asked by topic for the last entry of a table of contents, by its
    cleaned title, which no other title shares, [by_topic] resolves the
    topic and then fails to read it: the range it stored has no end, and
    reading pages up to [None] raises, whatever the document holds.  The
    body under the header is the read error. *)
Theorem last_entry_unreadable (M : Difflib.SequenceMatcher)
    (fitz_open : bool) (get_text : Z -> option string)
    (front : list (string * Z)) (title : string) (start : Z) :
  (forall k, In k (map fst (front ++ [(title, start)])) ->
             clean_topic_key k = clean_topic_key title -> k = title) ->
  by_topic_reply fitz_open get_text (clean_topic_key title)
    (build_topic_map (front ++ [(title, start)]))
  = Ok (TopicReply title (start, None) ReadError).
Proof.
  intros Huniq. set (entries := front ++ [(title, start)]) in *.
  pose proof (last_entry_open front title start) as Hget. fold entries in Hget.
  assert (Hin : In title (dict_keys (build_topic_map entries)))
    by (eapply dict_get_some_in_keys; eauto).
  destruct (last_clean (clean_topic_key title) (dict_keys (build_topic_map entries)))
    as [real|] eqn:El.
  - destruct (last_clean_lookup _ _ _ El) as (Hreal & Hc & _).
    assert (real = title).
    { apply Huniq; auto.
      destruct (build_topic_loop_keys entries entries 0%nat []) as [_ Hkeys].
      apply Hkeys in Hreal. simpl in Hreal. tauto. }
    subst real.
    destruct (by_topic_exact (clean_topic_key title) (build_topic_map entries) title)
      as (span & Heq & Hspan).
    { unfold query_key. now rewrite clean_topic_key_canonical. }
    rewrite Hget in Hspan. injection Hspan as <-.
    unfold by_topic_reply. rewrite Heq. simpl.
    unfold get_by_pages, extract_pdf_text. now destruct fitz_open.
  - destruct (proj1 (last_clean_none _ _) El title Hin eq_refl).
Qed.

Lemma last_entry_unreadable_witness :
  by_topic_reply true (fun _ => Some "text") "results"
    (build_topic_map TopicIndexFacts.example_entries)
  = Ok (TopicReply "Results" (9, None) ReadError).
Proof.
  apply (last_entry_unreadable Difflib.RatcliffObershelp true
           (fun _ => Some "text") [("Intro", 1); ("Methods", 5)] "Results" 9).
  intros k [<-|[<-|[<-|[]]]]; intros Hc; try reflexivity;
    vm_compute in Hc; discriminate Hc.
Defined.

End PageReadingFacts.

(** ** The two page-range parsers on well-formed queries *)

Module ParsersAgree.
Import PyStr PyStrFacts ExtractToc Actions PageRangeFacts ReFacts.

(** A page number as it is written: decimal digits, at least one and no
    more than [int] takes. *)
Definition page_digits (s : string) : Prop :=
  numeric s = true /\ Z.of_nat (String.length s) <= int_max_str_digits.

(** A token of the range grammar: a page number, or two of them joined by
    a hyphen. *)
Definition well_formed (tok : string) : Prop :=
  page_digits tok
  \/ exists a b, tok = hyphenated a b /\ page_digits a /\ page_digits b.

(** A character of a well-formed query: a digit, a hyphen or a comma. *)
Definition simple (c : ascii) : bool :=
  isdecimal c || Ascii.eqb c "-" || Ascii.eqb c ",".

Lemma all_decimal_simple s : all_decimal s = true -> all_in simple s = true.
Proof.
  induction s as [|c s IH]; simpl; auto. intros H.
  apply andb_true_iff in H as [Hc Hs]. unfold simple at 1.
  now rewrite Hc, (IH Hs).
Qed.

Lemma well_formed_simple tok : well_formed tok -> all_in simple tok = true.
Proof.
  intros [[Hn _]|(a & b & -> & [Ha _] & [Hb _])].
  - now apply all_decimal_simple, numeric_all_decimal.
  - unfold hyphenated. rewrite PageInputFacts.all_in_append. simpl.
    rewrite (all_decimal_simple a (numeric_all_decimal a Ha)).
    now rewrite (all_decimal_simple b (numeric_all_decimal b Hb)).
Qed.

(** A text is made of the characters of its pieces and of separators. *)
Lemma split_all_in p sep s :
  p sep = true ->
  Forall (fun t => all_in p t = true) (split sep s) -> all_in p s = true.
Proof.
  intros Hsep. induction s as [|c s IH]; simpl; auto.
  destruct (Ascii.eqb_spec c sep) as [->|Hne].
  - intros Hall. inversion Hall; subst. rewrite Hsep. now apply IH.
  - destruct (split sep s) as [|t ts] eqn:Es.
    + intros Hall. inversion Hall as [|? ? Hc _]; subst. simpl in Hc.
      apply andb_true_iff in Hc as [Hc _]. rewrite Hc. apply IH. constructor.
    + intros Hall. inversion Hall as [|? ? Hc Hts]; subst. simpl in Hc.
      apply andb_true_iff in Hc as [Hc Ht]. rewrite Hc. apply IH.
      now constructor.
Qed.

Lemma simple_not_space c : simple c = true -> isspace c = false.
Proof.
  destruct c as [[] [] [] [] [] [] [] []]; intros H;
    first [reflexivity | discriminate H].
Qed.

Lemma simple_lower_char c : simple c = true -> lower_char c = c.
Proof.
  destruct c as [[] [] [] [] [] [] [] []]; intros H;
    first [reflexivity | discriminate H].
Qed.

Lemma simple_not_p c : simple c = true -> Ascii.eqb "p" c = false.
Proof.
  destruct c as [[] [] [] [] [] [] [] []]; intros H;
    first [reflexivity | discriminate H].
Qed.

Lemma simple_no_space s : all_in simple s = true -> no_space s = true.
Proof.
  induction s as [|c s IH]; simpl; auto. intros H.
  apply andb_true_iff in H as [Hc Hs].
  now rewrite (simple_not_space c Hc), (IH Hs).
Qed.

Lemma simple_lower s : all_in simple s = true -> lower s = s.
Proof.
  induction s as [|c s IH]; simpl; auto. intros H.
  apply andb_true_iff in H as [Hc Hs].
  now rewrite (simple_lower_char c Hc), (IH Hs).
Qed.

(** A word that starts with [p] does not occur in a well-formed query. *)
Lemma simple_remove_all fuel word :
  forall s, all_in simple s = true ->
            remove_all fuel (String "p" word) s = s.
Proof.
  induction fuel as [|fuel IH]; intros s Hs; [reflexivity|].
  rewrite PageInputFacts.remove_all_step.
  destruct s as [|c s]; [reflexivity|].
  simpl in Hs. apply andb_true_iff in Hs as [Hc Hs].
  change (Re.strip_prefix (String "p" word) (String c s))
    with (if Ascii.eqb "p" c then Re.strip_prefix word s else None).
  rewrite (simple_not_p c Hc).
  now rewrite (IH s Hs).
Qed.

Lemma split_two a b :
  contains_char "-" a = false -> contains_char "-" b = false ->
  split "-" (hyphenated a b) = [a; b].
Proof.
  intros Ha Hb. unfold hyphenated. induction a as [|c a IH]; simpl.
  - clear Ha. induction b as [|c b IH]; simpl; auto.
    simpl in Hb. apply orb_false_iff in Hb as [Hc Hb].
    rewrite Hc. specialize (IH Hb). simpl in IH.
    injection IH as IH. now rewrite IH.
  - simpl in Ha. apply orb_false_iff in Ha as [Hc Ha].
    rewrite Hc. now rewrite (IH Ha).
Qed.

Lemma all_decimal_isdigit s : all_decimal s = true -> all_isdigit s = true.
Proof.
  induction s as [|d s IH]; simpl; auto. intros H.
  apply andb_true_iff in H as [Hd Hs]. unfold isdigit_char.
  now rewrite Hd, (IH Hs).
Qed.

Lemma numeric_isdigit tok : numeric tok = true -> ExtractToc.isdigit tok = true.
Proof.
  intros Hn. unfold ExtractToc.isdigit.
  rewrite (all_decimal_isdigit tok (numeric_all_decimal tok Hn)).
  destruct tok; [discriminate Hn | reflexivity].
Qed.

(** On a well-formed token the two parsers read the same range. *)
Lemma input_part_agrees tok :
  well_formed tok ->
  exists r, parse_part tok = Ok r /\ input_part tok = Ok [r].
Proof.
  intros Hwf. pose proof (well_formed_simple tok Hwf) as Hs.
  destruct Hwf as [[Hn Hlen]|(a & b & -> & [Ha Hla] & [Hb Hlb])].
  - exists (decimal_value 0 tok, decimal_value 0 tok). split.
    + rewrite <- (strip_no_space tok (simple_no_space tok Hs)) at 2 3.
      apply parse_part_numeric;
        now rewrite (strip_no_space tok (simple_no_space tok Hs)).
    + unfold input_part.
      rewrite (all_decimal_no_hyphen tok (numeric_all_decimal tok Hn)).
      rewrite (numeric_isdigit tok Hn), (int_numeric tok Hn Hlen). reflexivity.
  - exists (decimal_value 0 a, decimal_value 0 b). split.
    + apply (parse_part_hyphenated _ a b); auto.
      apply strip_no_space, simple_no_space, Hs.
    + unfold input_part. unfold hyphenated at 1.
      rewrite contains_char_append.
      rewrite (split_two a b)
        by (apply all_decimal_no_hyphen, numeric_all_decimal; assumption).
      now rewrite (int_numeric a Ha Hla), (int_numeric b Hb Hlb).
Qed.

Lemma parts_agree toks :
  Forall well_formed toks ->
  forall acc, input_parts toks acc = parse_parts toks acc
              /\ is_ok (parse_parts toks acc) = true.
Proof.
  induction 1 as [|tok toks Hwf Hwfs IH]; intros acc; simpl; auto.
  destruct (input_part_agrees tok Hwf) as (r & -> & ->). simpl. apply IH.
Qed.

(** X21: on a query made of well-formed tokens, each a run of decimal
    digits or two runs joined by a hyphen, no run longer than [int] takes,
    separated by commas with no space, the two parsers of the repository
    return the same ranges, and neither raises. *)
Theorem parsers_agree_on_well_formed (q : string) :
  Forall well_formed (split "," q) ->
  parse_page_input q = parse_page_query q
  /\ is_ok (parse_page_query q) = true.
Proof.
  intros Hwf.
  assert (Hs : all_in simple q = true).
  { apply (split_all_in simple ","); [reflexivity|].
    eapply Forall_impl; [|exact Hwf]. apply well_formed_simple. }
  unfold parse_page_input, parse_page_query, replace_empty.
  rewrite (simple_lower q Hs).
  rewrite (simple_remove_all _ "ages" q Hs).
  rewrite (simple_remove_all _ "age" q Hs).
  rewrite (strip_no_space q (simple_no_space q Hs)).
  assert (Hmap : map strip (split "," q) = split "," q).
  { clear Hs. induction Hwf as [|tok toks Ht Hts IH]; simpl; auto.
    rewrite IH. f_equal.
    apply strip_no_space, simple_no_space, well_formed_simple, Ht. }
  rewrite Hmap. apply parts_agree, Hwf.
Qed.

Lemma parsers_agree_on_well_formed_witness :
  parse_page_input "2,4,6-8" = parse_page_query "2,4,6-8"
  /\ is_ok (parse_page_query "2,4,6-8") = true.
Proof.
  apply (parsers_agree_on_well_formed "2,4,6-8").
  assert (Hdigit : forall c, isdecimal c = true ->
                              page_digits (String c EmptyString)).
  { intros c Hc. split; [simpl; now rewrite Hc|].
    unfold int_max_str_digits. simpl. lia. }
  change (Forall well_formed ["2"; "4"; "6-8"]).
  constructor; [left; now apply Hdigit|].
  constructor; [left; now apply Hdigit|].
  constructor; [|constructor].
  right. exists "6", "8". split; [reflexivity|]. split; now apply Hdigit.
Defined.

End ParsersAgree.

(** ** The columns of the tables of a band *)

Module BandColumns.
Import SpreadsheetAnalysis.

(** The cells a table cell is copied to, one for each column it spans,
    when its table stands at column offset [off]. *)
Definition placed_cell (off : Z) (cell : DocumentTableCell) : list col_cell :=
  map (fun span_idx =>
         {| col := off + column_index cell + span_idx;
            text := PyStr.strip (content cell) |})
      (range (span_of cell)).

(** All the cells of the rows of a band. *)
Definition band_cells (d : band_rows_t) : list col_cell := flat_map snd d.

Lemma in_range n i : In i (range n) -> 0 <= i < n.
Proof.
  unfold range. intros Hin. apply in_map_iff in Hin as (k & <- & Hk).
  apply in_seq in Hk. lia.
Qed.

Lemma fold_max_upper (l : list Z) :
  forall x, let m := fold_left (fun m y => if m <? y then y else m) l x in
            x <= m /\ (forall y, In y l -> y <= m) /\ (m = x \/ In m l).
Proof.
  induction l as [|a l IH]; intros x; simpl.
  - split; [lia|]. split; [intros y []|now left].
  - destruct (IH (if x <? a then a else x)) as (H1 & H2 & H3).
    destruct (Z.ltb_spec x a) as [Hlt|Hge].
    + split; [lia|]. split.
      * intros y [<-|Hy]; [lia|auto].
      * right. destruct H3 as [->|H3]; auto.
    + split; [lia|]. split.
      * intros y [<-|Hy]; [lia|auto].
      * destruct H3 as [->|H3]; auto.
Qed.

Lemma py_max_upper (l : list Z) (m : Z) :
  py_max Z.ltb l = Ok m -> (forall y, In y l -> y <= m) /\ In m l.
Proof.
  destruct l as [|x l]; simpl; [discriminate|].
  intros Heq. injection Heq as <-.
  destruct (fold_max_upper l x) as (H1 & H2 & H3). split.
  - intros y [<-|Hy]; auto.
  - destruct H3 as [->|H3]; auto.
Qed.

Lemma setdefault_append_cells r c d :
  Permutation (band_cells (setdefault_append r c d)) (band_cells d ++ [c]).
Proof.
  unfold band_cells. induction d as [|[r' cs] d IH]; simpl; auto.
  destruct (r' =? r); simpl.
  - rewrite <- !app_assoc. apply Permutation_app_head, Permutation_app_comm.
  - rewrite <- app_assoc. now apply Permutation_app_head.
Qed.

Lemma add_cell_cells off cell d :
  Permutation (band_cells (add_cell off d cell))
              (band_cells d ++ placed_cell off cell).
Proof.
  unfold add_cell, placed_cell. generalize (range (span_of cell)).
  intros l. revert d. induction l as [|i l IH]; intros d; simpl.
  - now rewrite app_nil_r.
  - etransitivity; [apply IH|].
    etransitivity;
      [apply Permutation_app_tail, setdefault_append_cells|].
    now rewrite <- app_assoc.
Qed.

Section Columns.
Context `{Shapely} `{FloatArith}.

(** The cells a table standing at an offset gives to its band. *)
Definition placed_table (t_off : table_info * Z) : list col_cell :=
  flat_map (placed_cell (snd t_off)) (table_cells (table (fst t_off))).

(** No column index of the table is negative and no cell spans beyond the
    last column that some cell of the table starts in. *)
Definition spans_fit (t : table_info) : Prop :=
  forall cell, In cell (table_cells (table t)) ->
    0 <= column_index cell
    /\ exists last, In last (table_cells (table t))
                    /\ column_index cell + span_of cell - 1 <= column_index last.

(** Every column of the first table is before every column of the second. *)
Definition left_of (a b : table_info * Z) : Prop :=
  forall c c', In c (placed_table a) -> In c' (placed_table b) ->
               col c < col c'.

Lemma add_table_cells t_off d :
  Permutation (band_cells (add_table d t_off))
              (band_cells d ++ placed_table t_off).
Proof.
  unfold add_table, placed_table.
  generalize (table_cells (table (fst t_off))). intros l. revert d.
  induction l as [|cell l IH]; intros d; simpl.
  - now rewrite app_nil_r.
  - etransitivity; [apply IH|].
    etransitivity; [apply Permutation_app_tail, add_cell_cells|].
    now rewrite <- app_assoc.
Qed.

Lemma add_tables_cells placed :
  forall d, Permutation (band_cells (fold_left add_table placed d))
                        (band_cells d ++ flat_map placed_table placed).
Proof.
  induction placed as [|t_off placed IH]; intros d; simpl.
  - now rewrite app_nil_r.
  - etransitivity; [apply IH|].
    etransitivity; [apply Permutation_app_tail, add_table_cells|].
    now rewrite <- app_assoc.
Qed.

Lemma placed_table_columns t off c :
  spans_fit t -> In c (placed_table (t, off)) ->
  forall m, py_max Z.ltb (map column_index (table_cells (table t))) = Ok m ->
            off <= col c < off + (m + 1).
Proof.
  intros Hfit Hin m Hm. unfold placed_table in Hin. simpl in Hin.
  apply in_flat_map in Hin as (cell & Hcell & Hin).
  unfold placed_cell in Hin. apply in_map_iff in Hin as (i & <- & Hi).
  apply in_range in Hi. simpl.
  destruct (Hfit cell Hcell) as (Hpos & last & Hlast & Hle).
  destruct (py_max_upper _ _ Hm) as (Hup & _).
  assert (column_index last <= m) by (apply Hup, in_map, Hlast).
  lia.
Qed.

(** The offsets computed for the tables of a band give each table a range
    of columns after the ranges of the tables before it. *)
Lemma column_offsets_apart tbls :
  Forall spans_fit tbls ->
  forall cum offs, column_offsets tbls cum = Ok offs ->
    map fst (combine tbls offs) = tbls
    /\ Forall (fun t_off => cum <= snd t_off) (combine tbls offs)
    /\ StronglySorted left_of (combine tbls offs).
Proof.
  induction 1 as [|t tbls Hfit Hfits IH]; intros cum offs; simpl.
  - intros Heq. injection Heq as <-. repeat split; constructor.
  - destruct (py_max Z.ltb (map column_index (table_cells (table t))))
      as [m|e] eqn:Em; simpl; [|discriminate].
    destruct (column_offsets tbls (cum + (m + 1))) as [offs'|e] eqn:Eo; simpl;
      [|discriminate].
    intros Heq. injection Heq as <-. simpl.
    destruct (IH _ _ Eo) as (Hfst & Hlow & Hsorted).
    assert (Hm : 0 <= m).
    { destruct (py_max_upper _ _ Em) as (_ & Hin).
      apply in_map_iff in Hin as (cell & <- & Hcell).
      now destruct (Hfit cell Hcell). }
    split; [now rewrite Hfst|]. split.
    + constructor; [simpl; lia|].
      eapply Forall_impl; [|exact Hlow]. intros t_off Hle. simpl in Hle. lia.
    + constructor; auto.
      apply Forall_forall. intros [u p] Hin c c' Hc Hc'.
      assert (Hu : spans_fit u).
      { rewrite Forall_forall in Hfits. apply Hfits. rewrite <- Hfst.
        apply (in_map fst) in Hin. exact Hin. }
      assert (Hp : cum + (m + 1) <= p).
      { rewrite Forall_forall in Hlow. apply (Hlow (u, p) Hin). }
      pose proof (placed_table_columns t cum c Hfit Hc m Em) as Hcol.
      unfold placed_table in Hc'. simpl in Hc'.
      apply in_flat_map in Hc' as (cell & Hcell & Hc').
      unfold placed_cell in Hc'. apply in_map_iff in Hc' as (i & <- & Hi).
      apply in_range in Hi. simpl. destruct (Hu cell Hcell) as (Hpos & _).
      lia.
Qed.

End Columns.

(** X22: in a band whose tables have no negative column index and no cell
    that spans beyond the table's last column, the cells of the band's
    rows are those of its tables, taken from left to right, each table
    standing at its offset, and every column of a table comes before every
    column of the tables to its right: cells of two tables never share a
    column. *)
Theorem band_columns_apart (S : Shapely) (b : band) (y : Q)
    (band_rows : band_rows_t) :
  Forall spans_fit (band_tables b) ->
  band_element b = Ok (BandEl y band_rows) ->
  exists placed,
    map fst placed
    = stable_sort (fun t u => Qlt_bool (xmin t) (xmin u)) (band_tables b)
    /\ Permutation (band_cells band_rows) (flat_map placed_table placed)
    /\ StronglySorted left_of placed.
Proof.
  intros Hfit. unfold band_element.
  set (sorted := stable_sort _ (band_tables b)).
  destruct (column_offsets sorted 0) as [offs|e] eqn:Eo; simpl; [|discriminate].
  intros Heq. injection Heq as _ <-.
  assert (Hsorted : Forall spans_fit sorted).
  { apply (Permutation_Forall (Permutation_sym (stable_sort_perm _ _))).
    exact Hfit. }
  destruct (column_offsets_apart sorted Hsorted 0 offs Eo) as (Hfst & _ & Hss).
  exists (combine sorted offs). split; [exact Hfst|]. split; [|exact Hss].
  apply (add_tables_cells (combine sorted offs) []).
Qed.

(** A band of two tables: to the right a table of one cell, to the left a
    table whose heading spans its two columns. *)
Definition heading_table : DocumentTable :=
  Samples.table_on 1 (Samples.rect 0 0 10 10)
    [{| row_index := 0; column_index := 0; column_span := Some 2;
        content := " h " |};
     Samples.cell 1 0 "a"; Samples.cell 1 1 "b"].

Definition heading_info : table_info (H := Rings) :=
  {| table := heading_table; poly := Samples.rect 0 0 10 10;
     ymin := inject_Z 0; ymax := inject_Z 10; xmin := inject_Z 0 |}.

Definition side_info : table_info (H := Rings) :=
  {| table := Samples.right_table; poly := Samples.rect 20 5 30 15;
     ymin := inject_Z 5; ymax := inject_Z 15; xmin := inject_Z 20 |}.

Definition sample_band : band (H := Rings) :=
  {| band_tables := [side_info; heading_info];
     band_ymin := inject_Z 0; band_ymax := inject_Z 15 |}.

Definition sample_rows : band_rows_t :=
  [(0, [{| col := 0; text := "h" |}; {| col := 1; text := "h" |};
        {| col := 2; text := "c" |}]);
   (1, [{| col := 0; text := "a" |}; {| col := 1; text := "b" |}])].

Lemma band_columns_apart_witness :
  exists placed,
    map fst placed = [heading_info; side_info]
    /\ Permutation (band_cells sample_rows) (flat_map placed_table placed)
    /\ StronglySorted left_of placed.
Proof.
  apply (band_columns_apart Rings sample_band (inject_Z 0) sample_rows).
  - constructor; [|constructor; [|constructor]].
    + intros cell [<-|[]]. split; [simpl; lia|].
      exists (Samples.cell 0 0 "c"). split; [now left | simpl; lia].
    + intros cell Hin. split.
      * destruct Hin as [<-|[<-|[<-|[]]]]; simpl; lia.
      * exists (Samples.cell 1 1 "b"). split; [simpl; auto|].
        destruct Hin as [<-|[<-|[<-|[]]]]; simpl; lia.
  - vm_compute. reflexivity.
Defined.

End BandColumns.
